(** * Fitch proofs for propositional logic: a shallow embedding

    The Python sources under [propositional/] ([basis.py], [sentence.py],
    [truthfunction.py], [rule.py], [proof.py], [prove.py]) are transcribed
    function by function.  Python strings are sequences of code points, so a
    character is a code point [N] and a string a list of them; Python integers
    are [Z]; list positions coming from [range] and [len] are [nat]; a raised
    exception is a constructor of [exn]. *)

From Stdlib Require Import Ascii String DecimalString.
From Stdlib Require Import Decimal DecimalFacts DecimalPos DecimalN.
From Stdlib Require Import List ZArith NArith Arith Lia Bool Permutation Sorted.
Import ListNotations.
Local Open Scope list_scope.

Set Implicit Arguments.

(** ** Python values and exceptions *)

Module Py.

Definition char := N.
Definition str := list char.

(** [py "PvQ"] is the Python literal ['PvQ'] (ASCII text only). *)
Definition py (s : string) : str := List.map N_of_ascii (list_ascii_of_string s).

(** A single ASCII character. *)
Definition ch (a : ascii) : char := N_of_ascii a.

Arguments py s%_string.
Arguments ch a%_char.

Inductive exn : Type :=
| IndexError | KeyError | TypeError | AttributeError | ValueError.

(** Outcome of a call: a value, a raised exception, or the model running out
    of recursion budget. *)
Inductive result (A : Type) : Type :=
| Ok (a : A)
| Raise (e : exn)
| OutOfFuel.

Arguments Ok {A} a.
Arguments Raise {A} e.
Arguments OutOfFuel {A}.

Definition bind {A B} (m : result A) (k : A -> result B) : result B :=
  match m with
  | Ok a => k a
  | Raise e => Raise e
  | OutOfFuel => OutOfFuel
  end.

Definition str_eqb (a b : str) : bool :=
  if list_eq_dec N.eq_dec a b then true else false.

(** [l[i]] with Python's negative indices. *)
Definition index {A} (l : list A) (i : Z) : result A :=
  let n := Z.of_nat (length l) in
  let j := if (i <? 0)%Z then (i + n)%Z else i in
  if ((j <? 0) || (n <=? j))%Z then Raise IndexError
  else match nth_error l (Z.to_nat j) with
       | Some a => Ok a
       | None => Raise IndexError
       end.

(** [l[i]] for a position that is a natural number. *)
Definition at_nat {A} (l : list A) (i : nat) : result A :=
  match nth_error l i with
  | Some a => Ok a
  | None => Raise IndexError
  end.

(** [l[-1]]. *)
Definition last_item {A} (l : list A) : result A := index l (-1).

(** [s[1:-1]]. *)
Definition inner {A} (s : list A) : list A := firstn (length s - 2) (skipn 1 s).

(** [c in s] for a one-character [c]. *)
Definition mem (c : char) (s : str) : bool := existsb (N.eqb c) s.

(** [sep.join(parts)]. *)
Fixpoint join (sep : str) (parts : list str) : str :=
  match parts with
  | [] => []
  | [p] => p
  | p :: rest => p ++ sep ++ join sep rest
  end.

Fixpoint starts_with (s p : str) : bool :=
  match p, s with
  | [], _ => true
  | _ :: _, [] => false
  | c :: p', d :: s' => N.eqb c d && starts_with s' p'
  end.

(** [s.replace(old, new)]: every non-overlapping occurrence, left to right.
    [skip] counts the characters of a match still to be dropped. *)
Fixpoint replace_from (old new : str) (skip : nat) (s : str) : str :=
  match s with
  | [] => []
  | c :: s' =>
      match skip with
      | S k => replace_from old new k s'
      | O => if starts_with s old
             then new ++ replace_from old new (length old - 1) s'
             else c :: replace_from old new 0 s'
      end
  end.

Definition replace (old new : str) (s : str) : str :=
  match old with
  | [] => new ++ flat_map (fun c => c :: new) s
  | _ => replace_from old new 0 s
  end.

(** [str(z)] for an integer. *)
Definition str_of_int (z : Z) : str := py (NilZero.string_of_int (Z.to_int z)).

(** [str(b)] for a boolean. *)
Definition str_of_bool (b : bool) : str := if b then py "True" else py "False".

(** [' ' * k]. *)
Definition spaces (k : Z) : str := repeat (ch " ") (Z.to_nat k).

Definition len {A} (l : list A) : Z := Z.of_nat (length l).

(** [sorted(l)] on positions. *)
Fixpoint insert_sorted (x : nat) (l : list nat) : list nat :=
  match l with
  | [] => [x]
  | y :: l' => if x <=? y then x :: l else y :: insert_sorted x l'
  end.

Definition sorted (l : list nat) : list nat := fold_right insert_sorted [] l.

(** [sorted(set(l))] on characters: strictly increasing, no repetition. *)
Fixpoint insert_char (x : char) (l : list char) : list char :=
  match l with
  | [] => [x]
  | y :: l' =>
      if (x <? y)%N then x :: l
      else if (x =? y)%N then l
      else y :: insert_char x l'
  end.

Definition sorted_set (l : list char) : list char := fold_right insert_char [] l.

End Py.

Import Py.

Notation "x <- m ;; k" := (bind m (fun x => k))
  (at level 61, m at next level, right associativity).
Notation "' pat <- m ;; k" := (bind m (fun x => match x with pat => k end))
  (at level 61, pat pattern, m at next level, right associativity).

(** ** basis.py *)

Definition NULLARIES : list char := [ch "#"].
Definition UNARIES : list char := [ch "~"].
Definition BINARIES : list char := [ch "v"; ch "&"; ch "^"; ch ">"; ch "-"].
Definition CONNECTIVES : list str :=
  [py "#"; py "~"; py "v"; py "&"; py "^"; py ">"; py "-"].

(** Code points of the display symbols. *)
Definition u_falsum : char := 8869%N.   (* U+22A5 *)
Definition u_not : char := 172%N.       (* U+00AC *)
Definition u_or : char := 8744%N.       (* U+2228 *)
Definition u_and : char := 8743%N.      (* U+2227 *)
Definition u_xor : char := 8853%N.      (* U+2295 *)
Definition u_cond : char := 10230%N.    (* U+27F6 *)
Definition u_bicond : char := 10231%N.  (* U+27F7 *)

Definition sp : char := ch " ".

Definition SPEC_CONNECTIVES : list str :=
  [ [u_falsum]; [u_not]; [sp; u_or; sp]; [sp; u_and; sp]; [sp; u_xor; sp];
    [sp; u_cond; sp; sp]; [sp; u_bicond; sp; sp] ].

Definition VALID : str :=
  py "()#~v&^>-" ++ [u_falsum; u_not; u_or; u_and; u_xor; u_cond; u_bicond; sp].

(** A [dict[str, bool]] keyed by one-character names, in insertion order. *)
Definition dict := list (char * bool).

Fixpoint dict_get (d : dict) (k : char) : result bool :=
  match d with
  | [] => Raise KeyError
  | (k', v) :: d' => if (k =? k')%N then Ok v else dict_get d' k
  end.

(** [d[k] = v]. *)
Fixpoint dict_set (d : dict) (k : char) (v : bool) : dict :=
  match d with
  | [] => [(k, v)]
  | (k', v') :: d' =>
      if (k =? k')%N then (k', v) :: d' else (k', v') :: dict_set d' k v
  end.

(** [dict(d, **e)]. *)
Definition dict_update (d e : dict) : dict :=
  fold_left (fun acc kv => dict_set acc (fst kv) (snd kv)) e d.

(** [TFS]: the truth functions of the connectives. *)
Definition tf_cond (p q : bool) : bool := negb p || q.
Definition tf_bicond (p q : bool) : bool := tf_cond p q && tf_cond q p.

Definition TFS (c : char) : option (bool -> bool -> bool) :=
  if (c =? ch "v")%N then Some orb
  else if (c =? ch "&")%N then Some andb
  else if (c =? ch ">")%N then Some tf_cond
  else if (c =? ch "-")%N then Some tf_bicond
  else if (c =? ch "^")%N then Some (fun p q => negb (tf_bicond p q))
  else None.

(** class Symbol: [symb], [left], [right], [formula]; [type] is a function of
    [symb]. *)
#[warnings="-register-all"]
Inductive Symbol : Type :=
| Sym (symb : char) (left right : option Symbol) (formula : str).

Definition symb (s : Symbol) : char := let '(Sym c _ _ _) := s in c.
Definition sym_left (s : Symbol) : option Symbol := let '(Sym _ l _ _) := s in l.
Definition sym_right (s : Symbol) : option Symbol := let '(Sym _ _ r _) := s in r.
Definition sym_formula (s : Symbol) : str := let '(Sym _ _ _ f) := s in f.

Inductive symbol_type : Type := connective | constant | atomic.

Definition sym_type (s : Symbol) : symbol_type :=
  if mem (symb s) BINARIES || mem (symb s) UNARIES then connective
  else if mem (symb s) NULLARIES then constant
  else atomic.

(** [Symbol.__call__]: the value of the tree under [vals].  Calling a missing
    child ([None(vals)]) is a [TypeError]. *)
Fixpoint Symbol_call (s : Symbol) (vals : dict) : result bool :=
  match s with
  | Sym c l r _ =>
      if (c =? ch "#")%N then Ok false
      else if (c =? ch "~")%N then
        match l with
        | Some l' => p <- Symbol_call l' vals ;; Ok (negb p)
        | None => Raise TypeError
        end
      else
        match sym_type s with
        | atomic => dict_get vals c
        | _ =>
            match TFS c with
            | None => Raise KeyError
            | Some f =>
                match l with
                | None => Raise TypeError
                | Some l' =>
                    p <- Symbol_call l' vals ;;
                    match r with
                    | None => Raise TypeError
                    | Some r' => q <- Symbol_call r' vals ;; Ok (f p q)
                    end
                end
            end
        end
  end.

(** ** truthfunction.py *)

(** [Sentence._replace] (a static method, used by [str(sentence)]). *)
Definition _replace (arg : str) (old new : list str) : str :=
  fold_left (fun a on => replace (fst on) (snd on) a) (combine old new) arg.

(** [str(sentence)], from the root that carries the sentence's formula. *)
Definition str_of_root (root : Symbol) : str :=
  _replace (sym_formula root) CONNECTIVES SPEC_CONNECTIVES.

(** class TruthFunction.  [tf_sentence] stands for [self.sentence]; the class
    reads only its root (and the formula and text that hang off the root). *)
Record TruthFunction : Type := mkTF {
  tf_sentence : Symbol;
  atomics : list char;
  tf_true : list dict;
  tf_false : list dict;
  canonical : list dict
}.

(** [TruthFunction._canonical]. *)
Definition _canonical (atomics : list char) : list dict :=
  let n := length atomics in
  map (fun i =>
         fold_left (fun vals ja =>
                      if (i / 2 ^ (n - fst ja - 1)) mod 2 =? 0
                      then dict_set vals (snd ja) true
                      else dict_set vals (snd ja) false)
                   (combine (seq 0 n) atomics) [])
      (seq 0 (2 ^ n)).

(** The loop of [__init__] that fills [self.true] and [self.false]. *)
Fixpoint fill (root : Symbol) (canon t f : list dict)
  : result (list dict * list dict) :=
  match canon with
  | [] => Ok (t, f)
  | vals :: rest =>
      b <- Symbol_call root vals ;;
      if b then fill root rest (t ++ [vals]) f
      else fill root rest t (f ++ [vals])
  end.

(** [TruthFunction.__init__]. *)
Definition TruthFunction_init (root : Symbol) : result TruthFunction :=
  let atomics :=
    sorted_set (filter (fun c => negb (mem c VALID)) (sym_formula root)) in
  let canonical := _canonical atomics in
  '(t, f) <- fill root canonical [] [] ;;
  Ok (mkTF root atomics t f canonical).

(** [TruthFunction.__call__]. *)
Definition TruthFunction_call (tf : TruthFunction) (vals : dict) : result bool :=
  Symbol_call (tf_sentence tf) vals.

(** [TruthFunction.__adjust]. *)
Definition __adjust (modifier comparison : str) : str :=
  modifier ++ spaces (len comparison - len modifier).

Definition two_spaces : str := [sp; sp].
Definition newline : str := [10%N].

Fixpoint mapM {A B} (f : A -> result B) (l : list A) : result (list B) :=
  match l with
  | [] => Ok []
  | a :: l' => b <- f a ;; bs <- mapM f l' ;; Ok (b :: bs)
  end.

(** [TruthFunction.__calcString]; the sentences are given by their roots. *)
Definition __calcString (tf : TruthFunction) (sentences : list Symbol)
  (displayExp : bool) : result str :=
  let subsentences :=
    map (fun s => __adjust (str_of_root s) (str_of_bool false)) sentences in
  let result_ :=
    join two_spaces (map (fun a => [a]) (atomics tf)) ++ two_spaces
    ++ (if displayExp then join two_spaces subsentences else []) ++ newline in
  arr <- mapM (fun vals =>
                 values <- mapM (fun s =>
                                   b <- Symbol_call s vals ;;
                                   Ok (__adjust (str_of_bool b) (str_of_root s)))
                                sentences ;;
                 Ok (join two_spaces
                       (map (fun kv => firstn 1 (str_of_bool (snd kv))) vals)
                     ++ two_spaces ++ join two_spaces values ++ newline))
              (canonical tf) ;;
  Ok (result_ ++ concat arr).

(** [TruthFunction.__str__] with its default [displayExp = False]. *)
Definition TruthFunction_str (tf : TruthFunction) : result str :=
  __calcString tf [tf_sentence tf] false.

(** [TruthFunction.__eq__]. *)
Definition TruthFunction_eq (self other : TruthFunction) : result bool :=
  a <- TruthFunction_str self ;;
  b <- TruthFunction_str other ;;
  Ok (str_eqb (replace [sp] [] a) (replace [sp] [] b)).

(** The two loops of [__gt__]; [curr_val and other(...)] does not evaluate
    its right operand once [curr_val] is false. *)
Fixpoint gt_inner (other : TruthFunction) (vals : dict) (other_canon : list dict)
  (curr_val : bool) : result bool :=
  match other_canon with
  | [] => Ok curr_val
  | other_vals :: rest =>
      if curr_val
      then b <- TruthFunction_call other (dict_update vals other_vals) ;;
           gt_inner other vals rest b
      else gt_inner other vals rest false
  end.

Fixpoint gt_outer (other : TruthFunction) (trues other_canon : list dict)
  (curr_val : bool) : result bool :=
  match trues with
  | [] => Ok curr_val
  | vals :: rest =>
      c <- gt_inner other vals other_canon curr_val ;;
      if negb c then Ok c else gt_outer other rest other_canon c
  end.

(** [TruthFunction.__gt__].  The set difference is iterated here in the order
    of [other.atomics]; Python's order is unspecified and the result does
    not depend on it, every combination being tried. *)
Definition TruthFunction_gt (self other : TruthFunction) : result bool :=
  e <- TruthFunction_eq self other ;;
  if e then Ok false
  else
    let other_canon :=
      _canonical (filter (fun c => negb (mem c (atomics self))) (atomics other)) in
    gt_outer other (tf_true self) other_canon true.

(** [TruthFunction.__ge__]: [self == other or self > other]. *)
Definition TruthFunction_ge (self other : TruthFunction) : result bool :=
  e <- TruthFunction_eq self other ;;
  if e then Ok true else TruthFunction_gt self other.

(** [a < b] on TruthFunctions.  The class defines no [__lt__], so Python
    evaluates the reflected [b.__gt__(a)]. *)
Definition TruthFunction_lt (self other : TruthFunction) : result bool :=
  TruthFunction_gt other self.

Fixpoint taut_all (tf : TruthFunction) (canon : list dict) (res : bool)
  : result bool :=
  match canon with
  | [] => Ok res
  | vals :: rest =>
      if res then b <- TruthFunction_call tf vals ;; taut_all tf rest b
      else taut_all tf rest false
  end.

Fixpoint taut_any (tf : TruthFunction) (canon : list dict) (res : bool)
  : result bool :=
  match canon with
  | [] => Ok res
  | vals :: rest =>
      if res then taut_any tf rest true
      else b <- TruthFunction_call tf vals ;; taut_any tf rest b
  end.

(** [TruthFunction.taut]. *)
Definition taut (tf : TruthFunction) (val : bool) : result bool :=
  if val then taut_all tf (canonical tf) true
  else r <- taut_any tf (canonical tf) false ;; Ok (negb r).

(** ** sentence.py *)

(** class Sentence: [root], [formula], [tf], [left], [right]. *)
#[warnings="-register-all"]
Inductive Sentence : Type :=
| mkSentence (root : Symbol) (formula : str) (tf : TruthFunction)
    (left right : option Sentence).

Definition root (s : Sentence) : Symbol := let '(mkSentence r _ _ _ _) := s in r.
Definition formula (s : Sentence) : str := let '(mkSentence _ f _ _ _) := s in f.
Definition tf (s : Sentence) : TruthFunction := let '(mkSentence _ _ t _ _) := s in t.
(** The properties [first] and [second] return [left] and [right]. *)
Definition first (s : Sentence) : option Sentence :=
  let '(mkSentence _ _ _ l _) := s in l.
Definition second (s : Sentence) : option Sentence :=
  let '(mkSentence _ _ _ _ r) := s in r.
(** The property [mc]. *)
Definition mc (s : Sentence) : char := symb (root s).

(** [Sentence.__init__] when a root is given: the formula argument is then
    ignored, the truth function is built at once, and so are the
    sub-sentences. *)
Fixpoint Sentence_of_root (r : Symbol) : result Sentence :=
  match r with
  | Sym c l rt f =>
      t <- TruthFunction_init r ;;
      match l with
      | Some l' =>
          sl <- Sentence_of_root l' ;;
          if (c =? ch "~")%N
          then Ok (mkSentence r f t (Some sl) (Some sl))
          else match rt with
               | Some r' =>
                   sr <- Sentence_of_root r' ;;
                   Ok (mkSentence r f t (Some sl) (Some sr))
               | None => Raise AttributeError
               end
      | None => Ok (mkSentence r f t None None)
      end
  end.

(** [Sentence._setup]: the Symbol of a one-character formula, or else the
    flag saying whether the formula starts with a negation. *)
Definition _setup (formula : str) : result (Symbol + nat) :=
  if length formula =? 1
  then match formula with
       | c :: _ => Ok (inl (Sym c None None formula))
       | [] => Raise IndexError
       end
  else c <- index formula 0 ;;
       Ok (inr (if (c =? ch "~")%N then 1 else 0)).

(** The [connectives] dictionary of a scan: position and character, in the
    order of insertion (every position is inserted at most once). *)
Definition connectives_t := list (nat * char).

Fixpoint conn_get (d : connectives_t) (k : nat) : result char :=
  match d with
  | [] => Raise KeyError
  | (k', c) :: d' => if k =? k' then Ok c else conn_get d' k
  end.

(** One round of the [for] loop of [_enclosed]. *)
Definition scan_step (formula_len : nat)
  (st : Z * connectives_t * bool) (ic : nat * char) : Z * connectives_t * bool :=
  let '(group_depth, connectives, enclosed) := st in
  let '(index, char) := ic in
  let group_depth := if (char =? ch "(")%N then (group_depth + 1)%Z else group_depth in
  let group_depth := if (char =? ch ")")%N then (group_depth - 1)%Z else group_depth in
  if (group_depth =? 0)%Z
     && negb (Z.of_nat index =? Z.of_nat formula_len - 1)%Z
     && mem char BINARIES
  then (group_depth, connectives ++ [(index, char)], false)
  else (group_depth, connectives, enclosed).

Definition scan (formula : str) (start : nat) : Z * connectives_t * bool :=
  fold_left (scan_step (length formula))
    (combine (seq start (length formula - start)) (skipn start formula))
    (0%Z, [], true).

Definition parens (s : str) : str := ch "(" :: s ++ [ch ")"].

(** [Sentence._enclosed]; [parse] is [self._parse], called for a wide-scope
    negation. *)
Definition _enclosed (parse : str -> result Symbol) (formula : str) (start : nat)
  : result (Symbol + (bool * connectives_t)) :=
  let '(_, connectives, enclosed) := scan formula start in
  if (start =? 1) && enclosed
  then neg <- parse (skipn 1 formula) ;;
       let formula := sym_formula neg in
       let formula := if 1 <? length formula then parens formula else formula in
       Ok (inl (Sym (ch "~") (Some neg) (Some neg) (ch "~" :: formula)))
  else Ok (inr (enclosed, connectives)).

(** [Sentence._trim]. *)
Definition _trim (arg : str) : result str :=
  if (length arg =? 3) || (length arg =? 4)
  then a <- index arg 0 ;;
       if (a =? ch "(")%N
       then z <- last_item arg ;;
            if (z =? ch ")")%N then Ok (inner arg) else Ok arg
       else Ok arg
  else Ok arg.

(** [Sentence._untrim]. *)
Definition _untrim (parse : str -> result Symbol) (arg : str) : result str :=
  a <- index arg 0 ;;
  if negb (a =? ch "~")%N && (2 <? length arg)
  then Ok (parens arg)
  else e <- _enclosed parse arg 0 ;;
       match e with
       | inr (false, _) => Ok (parens arg)
       | _ => Ok arg
       end.

(** [Sentence._same_scope]. *)
Definition _same_scope (formula : str) (connectives : connectives_t)
  : result (str * nat) :=
  let connindex := sorted (map fst connectives) in
  mc_pos <- at_nat connindex 0 ;;
  if 1 <? length connectives
  then
    let num_args := length connectives + 1 in
    let num_first_args := num_args / 2 in
    arg1_pos <- index connindex (Z.of_nat num_first_args - 1) ;;
    let arg1 := firstn arg1_pos formula in
    let arg1 := if 1 <? num_first_args then parens arg1 else arg1 in
    c <- conn_get connectives arg1_pos ;;
    Ok (arg1 ++ [c] ++ parens (skipn (arg1_pos + 1) formula), length arg1)
  else Ok (formula, mc_pos).

(** [Sentence._parse].  The [while] loop of the source strips one pair of
    enclosing parentheses and repeats the first four statements of the
    function before falling through to the rest of it, which is what a call
    on [formula[1:-1]] does; it is written here as that call. *)
Fixpoint _parse (fuel : nat) (formula : str) : result Symbol :=
  match fuel with
  | O => OutOfFuel
  | S fuel' =>
      start <- _setup formula ;;
      match start with
      | inl symbol => Ok symbol
      | inr start =>
          e <- _enclosed (_parse fuel') formula start ;;
          match e with
          | inl symbol => Ok symbol
          | inr (enclosed, connectives) =>
              if (start =? 0) && enclosed
              then _parse fuel' (inner formula)
              else
                '(formula, mc_pos) <- _same_scope formula connectives ;;
                mc <- at_nat formula mc_pos ;;
                t1 <- _trim (firstn mc_pos formula) ;;
                arg1 <- _parse fuel' t1 ;;
                t2 <- _trim (skipn (mc_pos + 1) formula) ;;
                arg2 <- _parse fuel' t2 ;;
                arg1_f <- _untrim (_parse fuel') (sym_formula arg1) ;;
                arg2_f <- (if negb (symb arg2 =? mc)%N
                           then _untrim (_parse fuel') (sym_formula arg2)
                           else Ok (sym_formula arg2)) ;;
                Ok (Sym mc (Some arg1) (Some arg2) (arg1_f ++ [mc] ++ arg2_f))
          end
      end
  end.

(** [Sentence.__init__] when only the formula text is given. *)
Definition Sentence_of_text (fuel : nat) (formula : str) : result Sentence :=
  let formula := _replace formula [py "["; py "]"] [py "("; py ")"] in
  let formula := _replace formula SPEC_CONNECTIVES CONNECTIVES in
  r <- _parse fuel (replace [sp] [] formula) ;;
  Sentence_of_root r.

(** [Sentence.__str__]. *)
Definition Sentence_str (s : Sentence) : str :=
  _replace (formula s) CONNECTIVES SPEC_CONNECTIVES.

(** [str(x)] for a value that is a Sentence or [None]. *)
Definition str_of_obj (x : option Sentence) : str :=
  match x with
  | Some s => Sentence_str s
  | None => py "None"
  end.

(** [Sentence.__eq__]: the rendered texts are compared. *)
Definition Sentence_eq (self : Sentence) (other : option Sentence) : bool :=
  str_eqb (Sentence_str self) (str_of_obj other).

(** [a == b] where either side may be [None]: Python falls back on the
    reflected [Sentence.__eq__] when the left operand is [None]. *)
Definition obj_eq (a b : option Sentence) : bool :=
  match a, b with
  | Some s, _ => Sentence_eq s b
  | None, Some s => Sentence_eq s None
  | None, None => true
  end.

(** [Sentence.equivalent]. *)
Definition equivalent (self other : Sentence) : result bool :=
  TruthFunction_eq (tf self) (tf other).

(** [Sentence.negate].  [_untrim] calls [_enclosed] with [start = 0], which
    never reaches its call of the parser; the parser handed to it here
    and in [Sentence_join] is therefore immaterial. *)
Definition negate (self : Sentence) : result (option Sentence) :=
  if (symb (root self) =? ch "~")%N then Ok (first self)
  else
    u <- _untrim (_parse 0) (formula self) ;;
    let formula := ch "~" :: u in
    s <- Sentence_of_root (Sym (ch "~") (Some (root self)) (Some (root self)) formula) ;;
    Ok (Some s).

(** [Sentence.join]. *)
Definition Sentence_join (self : Sentence) (other : option Sentence)
  (connective : char) : result Sentence :=
  if obj_eq other None then Ok self
  else match other with
       | None => Ok self
       | Some o =>
           a <- _untrim (_parse 0) (formula self) ;;
           b <- _untrim (_parse 0) (formula o) ;;
           let formula := a ++ [connective] ++ b in
           Sentence_of_root (Sym connective (Some (root self)) (Some (root o)) formula)
       end.

(** [Sentence.connect]; [fuel] bounds the depth of the halving recursion. *)
Fixpoint connect_fuel (fuel : nat) (sentences : list Sentence) (connective : char)
  : result (option Sentence) :=
  match fuel with
  | O => OutOfFuel
  | S fuel' =>
      if length sentences =? 0 then Ok None
      else if length sentences =? 1
      then s <- at_nat sentences 0 ;; Ok (Some s)
      else
        let num_args := length sentences / 2 in
        first <- connect_fuel fuel' (firstn num_args sentences) connective ;;
        second <- connect_fuel fuel' (skipn num_args sentences) connective ;;
        match first with
        | None => Raise AttributeError
        | Some f => s <- Sentence_join f second connective ;; Ok (Some s)
        end
  end.

Definition connect (sentences : list Sentence) (connective : char)
  : result (option Sentence) :=
  connect_fuel (S (length sentences)) sentences connective.

(** ** rule.py and proof.py *)

(** The [lines] argument of a rule: [None], one line number, or a list whose
    items are line numbers or sections (lists of line numbers), as in
    [[3, [4, 5], [6, 7]]]. *)
Inductive item : Type :=
| IInt (z : Z)
| IList (l : list Z).

Inductive lines_t : Type :=
| LNone
| LInt (z : Z)
| LList (l : list item).

(** The arguments a Rule keeps for display, by value.  Where the source puts
    the object [lines] itself among them, the value is marked [ALines] (or
    [ArgsLines] when it is the whole argument list); the objects are added
    further down, with [Rule_obj]. *)
Inductive arg : Type :=
| AStr (s : str)
| AItem (i : item)
| ALines (l : lines_t).

Inductive args_t : Type :=
| ArgsNone
| ArgsLines (l : lines_t)
| ArgsList (l : list arg).

(** class Rule. *)
Record Rule : Type := mkRule { name : str; arguments : args_t }.

(** class Proof.  A line's theorem can be [None]: nothing checks what a rule
    produces. *)
Record Proof : Type := mkProof {
  theorems : list (option Sentence);
  premises : list Sentence;
  rules : list Rule;
  indents : list Z;
  accesses : list Z
}.

(** The sentence a rule derives, or the pair that [&E] returns. *)
Inductive new_t : Type :=
| NewS (s : option Sentence)
| NewT (a b : option Sentence).

(** A parameter of type [Union[str, Sentence]] (or [None]). *)
Inductive text_or_obj : Type :=
| OStr (s : str)
| OObj (o : option Sentence).

(** [Proof.__init__]. *)
Definition Proof_init (fuel : nat) (premises : list (str + Sentence))
  : result Proof :=
  premises <- mapM (fun p => match p with
                             | inl text => Sentence_of_text fuel text
                             | inr s => Ok s
                             end) premises ;;
  Ok (mkProof (map Some premises) premises
        (map (fun _ => mkRule (py "Premise") ArgsNone) premises)
        (map (fun _ => 0%Z) premises)
        (map (fun _ => 1%Z) premises)).

(** [len(proof)] and the properties [line], [indent], [access], [index]. *)
Definition Proof_len (p : Proof) : Z := len (theorems p).
Definition line (p : Proof) : Z := Proof_len p.
Definition indent (p : Proof) : result Z :=
  if (Proof_len p =? 0)%Z then Ok 0%Z else last_item (indents p).
Definition access (p : Proof) : Z :=
  if (len (accesses p) =? 0)%Z then 1%Z else List.last (accesses p) 0%Z.
Definition Proof_index (p : Proof) : list Z :=
  map (fun i => Z.of_nat i) (seq 1 (length (theorems p))).

(** [Proof.__getitem__] on an integer. *)
Definition getitem (p : Proof) (line : Z) : result (option Sentence) :=
  index (theorems p) (line - 1).

(** [Proof.__getitem__] on whatever was passed as [lines] or as an item of
    it: anything that is neither a slice nor an integer falls off the end of
    the method, which returns [None]. *)
Definition getitem_lines (p : Proof) (l : lines_t) : result (option Sentence) :=
  match l with
  | LInt z => getitem p z
  | _ => Ok None
  end.

Definition getitem_item (p : Proof) (i : item) : result (option Sentence) :=
  match i with
  | IInt z => getitem p z
  | IList _ => Ok None
  end.

(** [Proof._get_access]. *)
Definition _get_access (p : Proof) (indent : Z) : result Z :=
  if negb (existsb (Z.eqb indent) (indents p))
  then Ok (10 * access p + 1)%Z
  else
    match filter (fun a => (len (str_of_int a) =? indent + 1)%Z) (accesses p) with
    | [] => Raise ValueError
    | a :: rest => Ok (fold_left Z.max rest a + 1)%Z
    end.

(** [Proof._can_access]. *)
Definition _can_access (p : Proof) (accessee accessed : Z) : result bool :=
  let accessee := if (accessee =? Proof_len p + 1)%Z then (accessee - 1)%Z
                  else accessee in
  a <- index (accesses p) (accessee - 1) ;;
  b <- index (accesses p) (accessed - 1) ;;
  Ok (starts_with (str_of_int a) (str_of_int b)).

(** One round of the generator [Proof.accessible]: what it yields for the
    line [i], if anything. *)
Definition accessible_step (p : Proof) (accessee i : Z)
  : result (option (option Sentence * Z)) :=
  c <- _can_access p accessee i ;;
  if c then s <- getitem p i ;; Ok (Some (s, i)) else Ok None.

(** [Proof.accessible] run to its end on a ledger that does not change
    meanwhile. *)
Fixpoint accessible_from (p : Proof) (accessee : Z) (idx : list Z)
  : result (list (option Sentence * Z)) :=
  match idx with
  | [] => Ok []
  | i :: rest =>
      y <- accessible_step p accessee i ;;
      ys <- accessible_from p accessee rest ;;
      Ok (match y with Some v => v :: ys | None => ys end)
  end.

Definition accessible (p : Proof) (accessee : Z)
  : result (list (option Sentence * Z)) :=
  accessible_from p accessee (Proof_index p).

(** The property [priors]. *)
Definition priors (p : Proof) : result (list (option Sentence * Z)) :=
  accessible p (line p).

(** [Proof.append_sentence].  [rule == Rule('Assume')] compares the rule with
    a Rule made on the spot; the class has no [__eq__], the comparison is by
    identity and is false.  [not access] holds for [None] and for [0]. *)
Definition append_sentence (fuel : nat) (p : Proof) (indent_ : Z)
  (theorem : text_or_obj) (rule : Rule) (access_ : option Z) : result Proof :=
  theorem <- match theorem with
             | OStr text => s <- Sentence_of_text fuel text ;; Ok (Some s)
             | OObj o => Ok o
             end ;;
  let not_access := match access_ with
                    | None => true
                    | Some a => (a =? 0)%Z
                    end in
  new_access <-
    (if not_access
     then
       self_indent <- indent p ;;
       if false || (indent_ >? self_indent)%Z then _get_access p indent_
       else if (indent_ =? self_indent)%Z then Ok (access p)
       else Ok (access p / 10)%Z
     else Ok (match access_ with Some a => a | None => 0%Z end)) ;;
  Ok (mkProof (theorems p ++ [theorem]) (premises p) (rules p ++ [rule])
        (indents p ++ [indent_]) (accesses p ++ [new_access])).

(** [Proof.pop]. *)
Definition pop (p : Proof) : result Proof :=
  match indents p, theorems p, rules p, accesses p with
  | _ :: _, _ :: _, _ :: _, _ :: _ =>
      Ok (mkProof (removelast (theorems p)) (premises p) (removelast (rules p))
            (removelast (indents p)) (removelast (accesses p)))
  | _, _, _, _ => Raise IndexError
  end.

(** *** Python operations on the [lines] argument *)

(** [repr] of a list of integers, as in ['[4, 5]']. *)
Definition str_of_int_list (l : list Z) : str :=
  py "[" ++ join (py ", ") (map str_of_int l) ++ py "]".

(** [str(x)] for an item of [lines]. *)
Definition str_of_item (i : item) : str :=
  match i with
  | IInt z => str_of_int z
  | IList l => str_of_int_list l
  end.

(** [lines[i]]: [None] and integers are not subscriptable. *)
Definition lines_at (lines : lines_t) (i : Z) : result item :=
  match lines with
  | LList l => index l i
  | _ => Raise TypeError
  end.

(** [x[i]] for an item [x] of [lines]. *)
Definition item_at (x : item) (i : Z) : result Z :=
  match x with
  | IList l => index l i
  | IInt _ => Raise TypeError
  end.

(** Lexicographic [<] on lists of integers. *)
Fixpoint list_lt (a b : list Z) : bool :=
  match a, b with
  | [], [] => false
  | [], _ :: _ => true
  | _ :: _, [] => false
  | x :: a', y :: b' => if (x =? y)%Z then list_lt a' b' else (x <? y)%Z
  end.

(** [a < b] on items: an integer and a list do not compare. *)
Definition item_lt (a b : item) : result bool :=
  match a, b with
  | IInt x, IInt y => Ok (x <? y)%Z
  | IList x, IList y => Ok (list_lt x y)
  | _, _ => Raise TypeError
  end.

Fixpoint min_from (m : item) (l : list item) : result item :=
  match l with
  | [] => Ok m
  | x :: rest => c <- item_lt x m ;; min_from (if c then x else m) rest
  end.

Fixpoint max_from (m : item) (l : list item) : result item :=
  match l with
  | [] => Ok m
  | x :: rest => c <- item_lt m x ;; max_from (if c then x else m) rest
  end.

(** [min(lines)] and [max(lines)]. *)
Definition py_min (lines : lines_t) : result item :=
  match lines with
  | LList [] => Raise ValueError
  | LList (x :: rest) => min_from x rest
  | _ => Raise TypeError
  end.

Definition py_max (lines : lines_t) : result item :=
  match lines with
  | LList [] => Raise ValueError
  | LList (x :: rest) => max_from x rest
  | _ => Raise TypeError
  end.

Fixpoint insert_item (x : item) (l : list item) : result (list item) :=
  match l with
  | [] => Ok [x]
  | y :: l' =>
      c <- item_lt x y ;;
      if c then Ok (x :: l) else r <- insert_item x l' ;; Ok (y :: r)
  end.

Fixpoint sort_items (l : list item) : result (list item) :=
  match l with
  | [] => Ok []
  | x :: l' => r <- sort_items l' ;; insert_item x r
  end.

(** [sorted(lines)]: a stable sort; it raises [TypeError] when [lines] is not
    a list or mixes integers with lists. *)
Definition py_sorted (lines : lines_t) : result (list item) :=
  match lines with
  | LList l => sort_items l
  | _ => Raise TypeError
  end.

(** [[arg for arg in lines if isinstance(arg, int)]]. *)
Definition int_items (lines : lines_t) : result (list item) :=
  match lines with
  | LList l => Ok (filter (fun x => match x with IInt _ => true | _ => false end) l)
  | _ => Raise TypeError
  end.

(** The text [f'{str(a)} - {str(b)}']. *)
Definition dash (a b : str) : str := a ++ py " - " ++ b.

(** [Rule._section_order]. *)
Definition _section_order (lines : lines_t) (start stop : Z) : result (list str) :=
  l_stop <- lines_at lines stop ;;
  a <- item_at l_stop start ;;
  l_start <- lines_at lines start ;;
  b <- item_at l_start start ;;
  stop0 <- item_at l_stop 0 ;;
  stop1 <- item_at l_stop (-1) ;;
  start0 <- item_at l_start 0 ;;
  start1 <- item_at l_start (-1) ;;
  if (a <? b)%Z
  then Ok [dash (str_of_int stop0) (str_of_int stop1);
           dash (str_of_int start0) (str_of_int start1)]
  else Ok [dash (str_of_int start0) (str_of_int start1);
           dash (str_of_int stop0) (str_of_int stop1)].

(** [x.first], [x.second], [x.mc] on a value that may be [None]. *)
Definition attr {A} (f : Sentence -> A) (x : option Sentence) : result A :=
  match x with
  | Some s => Ok (f s)
  | None => Raise AttributeError
  end.

(** [x.join(y, connective)] once [x] has been evaluated; [y] is evaluated
    after the attribute lookup on [x]. *)
Definition join_obj (x : option Sentence) (y : result (option Sentence))
  (connective : char) : result (option Sentence) :=
  match x with
  | None => Raise AttributeError
  | Some s => o <- y ;; r <- Sentence_join s o connective ;; Ok (Some r)
  end.

Definition rule_is (rule : str) (name : string) : bool := str_eqb rule (py name).

(** [Rule.apply].  The first component of the result is the content of the
    caller's [lines] object as the call leaves it: the method reverses it in
    place before it does anything else.  The Rule returned is given as it
    reads when the call returns; [keep] makes of it the object, which holds
    the caller's list.  A rule name that matches no [case] makes the method
    return [None]. *)
Definition Rule_apply (rule : str) (premises : Proof) (lines : lines_t)
  (other : option Sentence) (fl : bool)
  : lines_t * result (option (Rule * new_t * Z * Z)) :=
  let lines := match lines with
               | LList l => if negb fl then LList (rev l) else lines
               | _ => lines
               end in
  (lines,
   indent_ <- indent premises ;;
   if rule_is rule "assume" then
     let indent_ := (indent_ + (if fl then 1 else 0))%Z in
     a <- _get_access premises indent_ ;;
     Ok (Some (mkRule (py "Assume") ArgsNone, NewS other, indent_, a))
   else if rule_is rule "reit" then
     t <- getitem_lines premises lines ;;
     Ok (Some (mkRule (py "Reit") (ArgsList [ALines lines]), NewS t, indent_,
               access premises))
   else if rule_is rule "#E" then
     Ok (Some (mkRule (py "#Elim") (ArgsList [ALines lines]), NewS other, indent_,
               access premises))
   else if rule_is rule "#I" then
     s <- Sentence_of_text 1 (py "#") ;;
     Ok (Some (mkRule (py "#Intro") (ArgsLines lines), NewS (Some s), indent_,
               access premises))
   else if rule_is rule "~E" then
     t <- getitem_lines premises lines ;;
     f <- attr first t ;;
     ff <- attr first f ;;
     Ok (Some (mkRule (py "~Elim") (ArgsList [ALines lines]), NewS ff, indent_,
               access premises))
   else if rule_is rule "~I" then
     lo <- py_min lines ;;
     hi <- py_max lines ;;
     let args := [AStr (dash (str_of_item lo) (str_of_item hi))] in
     lo <- py_min lines ;;
     t <- getitem_item premises lo ;;
     n <- match t with
          | Some s => negate s
          | None => Raise AttributeError
          end ;;
     Ok (Some (mkRule (py "~Intro") (ArgsList args), NewS n, indent_ - 1,
               access premises / 10))%Z
   else if rule_is rule "&E" then
     t1 <- getitem_lines premises lines ;;
     a <- attr first t1 ;;
     t2 <- getitem_lines premises lines ;;
     b <- attr second t2 ;;
     Ok (Some (mkRule (py "&Elim") (ArgsList [ALines lines]), NewT a b, indent_,
               access premises))
   else if rule_is rule "&I" then
     l0 <- lines_at lines 0 ;;
     x <- getitem_item premises l0 ;;
     theorem <- join_obj x (l1 <- lines_at lines 1 ;; getitem_item premises l1)
                  (ch "&") ;;
     srt <- py_sorted lines ;;
     Ok (Some (mkRule (py "&Intro") (ArgsList (map AItem srt)), NewS theorem,
               indent_, access premises))
   else if rule_is rule "vE" then
     ints <- int_items lines ;;
     sections <- _section_order lines 1 2 ;;
     let args := map AItem ints ++ map AStr sections in
     l1 <- lines_at lines 1 ;;
     e <- item_at l1 (-1) ;;
     t <- getitem premises e ;;
     Ok (Some (mkRule (py "vElim") (ArgsList args), NewS t, indent_ - 1,
               access premises / 10))%Z
   else if rule_is rule "vI" then
     let r := mkRule (py "vIntro") (ArgsList [ALines lines]) in
     if negb fl then
       theorem <- join_obj other (getitem_lines premises lines) (ch "v") ;;
       Ok (Some (r, NewS theorem, indent_, access premises))
     else
       x <- getitem_lines premises lines ;;
       theorem <- join_obj x (Ok other) (ch "v") ;;
       Ok (Some (r, NewS theorem, indent_, access premises))
   else if rule_is rule ">E" then
     l0 <- lines_at lines 0 ;;
     x0 <- getitem_item premises l0 ;;
     m <- attr mc x0 ;;
     use_first <-
       (if (m =? ch ">")%N
        then l0 <- lines_at lines 0 ;;
             x0 <- getitem_item premises l0 ;;
             f <- attr first x0 ;;
             l1 <- lines_at lines 1 ;;
             x1 <- getitem_item premises l1 ;;
             Ok (obj_eq f x1)
        else Ok false) ;;
     conditional <- (l <- lines_at lines (if use_first then 0 else 1) ;;
                     getitem_item premises l) ;;
     srt <- py_sorted lines ;;
     s <- attr second conditional ;;
     Ok (Some (mkRule (py ">Elim") (ArgsList (map AItem srt)), NewS s, indent_,
               access premises))
   else if rule_is rule ">I" then
     (* [str[min(lines[-1])]] subscripts the type [str]: once its index has
        been computed the expression raises [TypeError] *)
     lo <- py_min lines ;;
     l <- lines_at lines (-1) ;;
     match l with
     | IInt _ => Raise TypeError
     | IList [] => Raise ValueError
     | IList (_ :: _) => Raise TypeError
     end
   else if rule_is rule "-E" then
     l0 <- lines_at lines 0 ;;
     x0 <- getitem_item premises l0 ;;
     m <- attr mc x0 ;;
     conditional <- (l <- lines_at lines (if (m =? ch ">")%N then 0 else 1) ;;
                     getitem_item premises l) ;;
     f <- attr first conditional ;;
     l0 <- lines_at lines 0 ;;
     x0 <- getitem_item premises l0 ;;
     theorem <- (if obj_eq f x0 then attr second conditional
                 else attr first conditional) ;;
     srt <- py_sorted lines ;;
     Ok (Some (mkRule (py "-Elim") (ArgsList (map AItem srt)), NewS theorem,
               indent_, access premises))
   else if rule_is rule "-I" then
     l0 <- lines_at lines 0 ;;
     a <- item_at l0 0 ;;
     x <- getitem premises a ;;
     theorem <- join_obj x (l0 <- lines_at lines 0 ;;
                            b <- item_at l0 (-1) ;;
                            getitem premises b) (ch "-") ;;
     sections <- _section_order lines 0 1 ;;
     Ok (Some (mkRule (py "-Intro") (ArgsList (map AStr sections)), NewS theorem,
               indent_ - 1, access premises / 10))%Z
   else Ok None).

(** [Proof.append].  Like [Rule_apply] it hands back the caller's [lines]
    object next to its own outcome, the ledger after the call. *)
Definition append (fuel : nat) (p : Proof) (rule : str) (lines : lines_t)
  (other : text_or_obj) (fl : bool) : lines_t * result Proof :=
  match (match other with
         | OStr text => s <- Sentence_of_text fuel text ;; Ok (Some s)
         | OObj o => Ok o
         end) with
  | Raise e => (lines, Raise e)
  | OutOfFuel => (lines, OutOfFuel)
  | Ok other =>
      let '(lines, r) := Rule_apply rule p lines other fl in
      (lines,
       r <- r ;;
       match r with
       | None => Raise TypeError
       | Some (rule, new, indent_, access_) =>
           let new := match new with
                      | NewT a b => if negb fl then b else a
                      | NewS s => s
                      end in
           append_sentence fuel p indent_ (OObj new) rule (Some access_)
       end)
  end.

(** ** The list objects that callers pass as [lines] *)



















(** ** prove.py *)

(** An entry [['pbc', theorem]] of the [flags] list. *)
Definition flag := (str * Sentence)%type.

(** [flag == other] on two such entries. *)
Definition flag_eq (a b : flag) : bool :=
  str_eqb (fst a) (fst b) && Sentence_eq (snd a) (Some (snd b)).

(** [flags.pop()]. *)
Definition flags_pop (flags : list flag) : result (list flag) :=
  match flags with
  | [] => Raise IndexError
  | _ => Ok (removelast flags)
  end.

(** [str(t)] for a pair that [Proof.accessible] yields. *)
Definition str_of_prior (t : option Sentence * Z) : str :=
  py "(" ++ str_of_obj (fst t) ++ py ", " ++ str_of_int (snd t) ++ py ")".

(** [x in proof.priors]: the generator yields pairs, so [x] is compared with
    pairs.  A tuple does not know how to compare itself with [x]; Python
    then asks [x], whose [__eq__] compares the two texts.  The search stops
    at the first hit. *)
Fixpoint in_priors (x : option Sentence) (p : Proof) (accessee : Z) (idx : list Z)
  : result bool :=
  match idx with
  | [] => Ok false
  | i :: rest =>
      y <- accessible_step p accessee i ;;
      match y, x with
      | Some t, Some s =>
          if str_eqb (Sentence_str s) (str_of_prior t) then Ok true
          else in_priors x p accessee rest
      | _, _ => in_priors x p accessee rest
      end
  end.

(** [while proof.indent == indent: proof.pop()]; a ledger of [n] lines can be
    popped at most [n] times before [pop] raises. *)
Fixpoint pop_while (n : nat) (p : Proof) (indent_ : Z) : result Proof :=
  i <- indent p ;;
  if (i =? indent_)%Z
  then match n with
       | O => p' <- pop p ;; OutOfFuel
       | S n' => p' <- pop p ;; pop_while n' p' indent_
       end
  else Ok p.

(** The lines [1 .. len(proof)] a fresh [proof.priors] will visit, and the
    line it looks from. *)
Definition start_priors (p : Proof) : Z * list Z := (line p, Proof_index p).

(** [proof.append(...)] where the list passed as [lines], if any, is built at
    the call and not used again. *)
Definition append_ (fuel : nat) (p : Proof) (rule : string) (lines : lines_t)
  (other : option Sentence) (fl : bool) : result Proof :=
  snd (append fuel p (py rule) lines (OObj other) fl).

(** [prove].  A [for] loop over [proof.priors] runs a generator that was
    given the line number and the index range when the loop started and that
    reads the ledger again, as it then is, at every round. *)
Fixpoint prove (fuel : nat) (conclusion : Sentence) (proof : Proof) (indent_ : Z)
  (flags : list flag) : result (bool * Proof * list flag) :=
  match fuel with
  | O => OutOfFuel
  | S fuel' =>
      ps <- priors proof ;;
      here <- (if existsb (fun pr => obj_eq (fst pr) (Some conclusion)) ps
               then i <- indent proof ;; Ok (i =? indent_)%Z
               else Ok false) ;;
      if here then Ok (true, proof, flags)
      else if (mc conclusion =? ch ">")%N then
        (* [prove(conclusion.second, proof)] leaves out two required
           arguments: the call raises [TypeError] *)
        proof <- append_ fuel' proof "assume" LNone (first conclusion) true ;;
        Raise TypeError
      else
        let '(accessee, idx) := start_priors proof in
        (fix premises_loop (idx : list Z) (proof : Proof) (flags : list flag)
           : result (bool * Proof * list flag) :=
           match idx with
           | [] => Ok (false, proof, flags)
           | line_ :: rest =>
               y <- accessible_step proof accessee line_ ;;
               match y with
               | None => premises_loop rest proof flags
               | Some (theorem_, _) =>
                   theorem <- attr (fun s => s) theorem_ ;;
                   if (mc theorem =? ch "v")%N then
                     if existsb (fun f => flag_eq f (py "pbc", theorem)) flags
                     then premises_loop rest proof flags
                     else
                       let flags := flags ++ [(py "pbc", theorem)] in
                       proof <- append_ fuel' proof "assume" LNone (first theorem) true ;;
                       let disjunct1_start := line proof in
                       '(r, proof, flags) <- prove fuel' conclusion proof (indent_ + 1) flags ;;
                       if negb r then
                         flags <- flags_pop flags ;;
                         proof <- pop proof ;;
                         premises_loop rest proof flags
                       else
                         let disjunct1_end := line proof in
                         proof <- append_ fuel' proof "assume" LNone (second theorem) false ;;
                         let disjunct2_start := line proof in
                         '(r, proof, flags) <- prove fuel' conclusion proof (indent_ + 1) flags ;;
                         if negb r then
                           flags <- flags_pop flags ;;
                           proof <- pop proof ;;
                           proof <- pop_while (length (theorems proof)) proof indent_ ;;
                           premises_loop rest proof flags
                         else
                           let disjunct2_end := line proof in
                           proof <- append_ fuel' proof "vE"
                                      (LList [IInt line_;
                                              IList [disjunct1_start; disjunct1_end];
                                              IList [disjunct2_start; disjunct2_end]])
                                      None true ;;
                           flags <- flags_pop flags ;;
                           '(r, proof, flags) <- prove fuel' conclusion proof indent_ flags ;;
                           if r then Ok (true, proof, flags)
                           else premises_loop rest proof flags
                   else if (mc theorem =? ch ">")%N then
                     let '(accessee2, idx2) := start_priors proof in
                     '(r, proof, flags) <-
                       (fix antecedents_loop (idx2 : list Z) (proof : Proof)
                            (flags : list flag) : result (bool * Proof * list flag) :=
                          match idx2 with
                          | [] => Ok (false, proof, flags)
                          | ant_line :: rest2 =>
                              y <- accessible_step proof accessee2 ant_line ;;
                              match y with
                              | None => antecedents_loop rest2 proof flags
                              | Some (antecedent, _) =>
                                  go <- (if obj_eq antecedent (first theorem)
                                         then
                                           let '(a3, idx3) := start_priors proof in
                                           found <- in_priors (second theorem) proof a3 idx3 ;;
                                           Ok (negb found)
                                         else Ok false) ;;
                                  if go then
                                    proof <- append_ fuel' proof ">E"
                                               (LList [IInt ant_line; IInt line_]) None true ;;
                                    '(r, proof, flags) <- prove fuel' conclusion proof indent_ flags ;;
                                    if r then Ok (true, proof, flags)
                                    else antecedents_loop rest2 proof flags
                                  else antecedents_loop rest2 proof flags
                              end
                          end) idx2 proof flags ;;
                     if r then Ok (true, proof, flags)
                     else premises_loop rest proof flags
                   else premises_loop rest proof flags
               end
           end) idx proof flags
  end.

(** [Proof.prove]: the status text and the ledger as the call leaves it. *)
Definition Proof_prove (fuel : nat) (self : Proof) (conclusion : text_or_obj)
  : result (str * Proof) :=
  conclusion <- match conclusion with
                | OStr text => s <- Sentence_of_text fuel text ;; Ok (Some s)
                | OObj o => Ok o
                end ;;
  not_taut <- (if length (premises self) =? 0
               then t <- attr tf conclusion ;; b <- taut t true ;; Ok (negb b)
               else Ok false) ;;
  if not_taut then Ok (py "Not provable.", self)
  else
    c <- connect (premises self) (ch "&") ;;
    ptf <- attr tf c ;;
    ctf <- attr tf conclusion ;;
    weaker <- TruthFunction_lt ptf ctf ;;
    if weaker then Ok (py "Not provable from given premises.", self)
    else
      goal <- attr (fun s => s) conclusion ;;
      '(r, proof, _) <- prove fuel goal self 0 [] ;;
      if r then Ok (py "Proved.", proof)
      else Ok (py "Failed to prove.", proof).

(** ** Scenarios and auxiliary definitions used by the theorems *)

(** Premises [PvQ], [P>R], [Q>R], as the demo in [prove.py] writes them. *)
Definition scenario1_premises : list (str + Sentence) :=
  [inl (py "PvQ"); inl (py "P>R"); inl (py "Q>R")].

(** [step_append r rule lines other fl]: one more [proof.append(...)] on the
    ledger that the calls so far have produced. *)
Definition step_append (fuel : nat) (r : result Proof) (rule : string)
  (lines : lines_t) (other : text_or_obj) (fl : bool) : result Proof :=
  p <- r ;; snd (append fuel p (py rule) lines other fl).

(** A manual proof: premise [P]; assume [Q]; inside it assume [R]; close the
    inner box and then the outer one with [~I]; assume [S]; inside it assume
    [T]. *)
Definition nested_boxes (fuel : nat) : result Proof :=
  let p := Proof_init fuel [inl (py "P")] in
  let p := step_append fuel p "assume" LNone (OStr (py "Q")) true in
  let p := step_append fuel p "assume" LNone (OStr (py "R")) true in
  let p := step_append fuel p "~I" (LList [IInt 3; IInt 3]) (OObj None) true in
  let p := step_append fuel p "~I" (LList [IInt 2; IInt 4]) (OObj None) true in
  let p := step_append fuel p "assume" LNone (OStr (py "S")) true in
  step_append fuel p "assume" LNone (OStr (py "T")) true.


(** The assignment number [i] over [atomics]: the atomic at position [j]
    (the first is the most significant) is true when the corresponding binary
    digit of [i] is 0. *)
Definition assignment (atomics : list char) (i : nat) : dict :=
  map (fun ja => (snd ja, negb (Nat.testbit i (length atomics - 1 - fst ja))))
      (combine (seq 0 (length atomics)) atomics).

(** The formula of [root] evaluates to true (to false) under [vals]. *)
Definition satisfies (root : Symbol) (vals : dict) : bool :=
  match Symbol_call root vals with
  | Ok true => true
  | _ => false
  end.

Definition falsifies (root : Symbol) (vals : dict) : bool :=
  match Symbol_call root vals with
  | Ok false => true
  | _ => false
  end.

(** *** Flat chains of operands *)

(** The text of a chain: a first operand and then connective-operand pairs,
    with no parentheses of its own. *)
Fixpoint chain_text (op0 : str) (rest : list (char * str)) : str :=
  match rest with
  | [] => op0
  | (c, op) :: rest' => op0 ++ c :: chain_text op rest'
  end.

(** A character that is neither a parenthesis nor a binary connective. *)
Definition quiet (c : char) : bool :=
  negb (c =? ch "(")%N && negb (c =? ch ")")%N && negb (mem c BINARIES).

(** An operand written without parentheses: negation signs in front of one
    quiet character. *)
Fixpoint is_operand (s : str) : bool :=
  match s with
  | [] => false
  | [a] => quiet a
  | c :: s' => (c =? ch "~")%N && is_operand s'
  end.

(** A chain is well formed when its operands are operands and its
    connectives are binary connectives. *)
Definition chain_ok (op0 : str) (rest : list (char * str)) : Prop :=
  is_operand op0 = true
  /\ Forall (fun co => mem (fst co) BINARIES = true /\ is_operand (snd co) = true)
       rest.

(** The positions of the connectives of a chain that starts at [off]. *)
Fixpoint positions (off : nat) (op0 : str) (rest : list (char * str))
  : connectives_t :=
  match rest with
  | [] => []
  | (c, op) :: rest' =>
      (off + length op0, c) :: positions (off + length op0 + 1) op rest'
  end.

(** The left group of a chain: its first [(k + 1) / 2] operands, [k] being
    the number of connectives; the connective that follows it; the right
    group, the operands that remain. *)
Definition left_count (rest : list (char * str)) : nat := (length rest + 1) / 2.

Definition left_group (op0 : str) (rest : list (char * str)) : str :=
  chain_text op0 (firstn (left_count rest - 1) rest).

Definition main_connective (rest : list (char * str)) : char :=
  fst (nth (left_count rest - 1) rest (0%N, [])).

Definition right_group (rest : list (char * str)) : str :=
  chain_text (snd (nth (left_count rest - 1) rest (0%N, [])))
    (skipn (left_count rest) rest).

(** The two texts that [_same_scope] prepares for the recursive calls: a
    group of more than one operand is wrapped in parentheses. *)
Definition left_arg (op0 : str) (rest : list (char * str)) : str :=
  if 1 <? left_count rest then parens (left_group op0 rest)
  else left_group op0 rest.

Definition right_arg (rest : list (char * str)) : str :=
  if 1 <? length rest then parens (right_group rest) else right_group rest.

(** Trees, for stating what a text parses to. *)
Definition leaf (c : ascii) : Symbol := Sym (ch c) None None [ch c].

Definition node (c : ascii) (l r : Symbol) (f : string) : Symbol :=
  Sym (ch c) (Some l) (Some r) (py f).

(** ** More of sentence.py *)

(** [Sentence._equal] called with [None] as [curr]: [None == other] ends in
    [Symbol.__eq__(other, None)], which raises [TypeError]. *)
Definition _equal_none (other : option Symbol) : result bool :=
  match other with
  | None => Ok false
  | Some _ => Raise TypeError
  end.

(** [Sentence._equal]. *)
Fixpoint _equal (curr : Symbol) (other : option Symbol) : result bool :=
  match other with
  | None => Ok false
  | Some o =>
      let this_eq := (symb curr =? symb o)%N in
      match curr with
      | Sym _ (Some cl) cr _ =>
          left_eq <- (a <- _equal cl (sym_left o) ;;
                      if a then Ok true else _equal cl (sym_right o)) ;;
          right_eq <- match cr with
                      | Some cr' =>
                          a <- _equal cr' (sym_right o) ;;
                          if a then Ok true else _equal cr' (sym_left o)
                      | None =>
                          a <- _equal_none (sym_right o) ;;
                          if a then Ok true else _equal_none (sym_left o)
                      end ;;
          Ok (this_eq && left_eq && right_eq)
      | Sym _ None _ _ =>
          match sym_left o with
          | Some _ => Ok false
          | None => Ok this_eq
          end
      end
  end.

(** [Sentence.deep_equal]. *)
Definition deep_equal (self : Sentence) (other : option Sentence) : result bool :=
  match other with
  | None => Ok false
  | Some o => _equal (root self) (Some (root o))
  end.

(** [Sentence.is_negation]. *)
Definition is_negation (self : Sentence) (other : option Sentence) : result bool :=
  if (symb (root self) =? ch "~")%N then Ok (obj_eq (first self) other)
  else
    r <- attr root other ;;
    if (symb r =? ch "~")%N
    then f <- attr first other ;; Ok (Sentence_eq self f)
    else Ok false.

(** [TruthFunction.__len__]. *)
Definition TruthFunction_len (t : TruthFunction) : Z :=
  (2 ^ len (atomics t))%Z.

(** *** Predicates on trees and ledgers, for stating properties *)

(** The names [Symbol.__call__] looks up in its dictionary, in the order in
    which it reaches them. *)
Fixpoint atoms (s : Symbol) : list char :=
  match s with
  | Sym c l r _ =>
      if (c =? ch "#")%N then []
      else if (c =? ch "~")%N then
        match l with Some l' => atoms l' | None => [] end
      else
        match sym_type s with
        | atomic => [c]
        | _ =>
            match TFS c, l, r with
            | Some _, Some l', Some r' => atoms l' ++ atoms r'
            | Some _, Some l', None => atoms l'
            | _, _, _ => []
            end
        end
  end.

(** A tree [Symbol.__call__] can evaluate: every connective node has the
    children it calls. *)
Fixpoint evaluable (s : Symbol) : bool :=
  match s with
  | Sym c l r _ =>
      if (c =? ch "#")%N then true
      else if (c =? ch "~")%N then
        match l with Some l' => evaluable l' | None => false end
      else
        match sym_type s with
        | atomic => true
        | _ =>
            match TFS c, l, r with
            | Some _, Some l', Some r' => evaluable l' && evaluable r'
            | _, _, _ => false
            end
        end
  end.

(** A tree in which a node with a left child has a right child too. *)
Fixpoint full (s : Symbol) : bool :=
  match s with
  | Sym _ None _ _ => true
  | Sym _ (Some l) (Some r) _ => full l && full r
  | Sym _ (Some _) None _ => false
  end.

(** What the parser builds: a leaf holding one character, a negation whose
    two children are the same tree, or a binary connective over two trees. *)
Fixpoint well_shaped (s : Symbol) : Prop :=
  match s with
  | Sym c None None f => f = [c]
  | Sym c (Some l) (Some r) f =>
      ((c = ch "~" /\ l = r) \/ mem c BINARIES = true)
      /\ well_shaped l /\ well_shaped r /\ f <> []
  | _ => False
  end.

(** The characters of a text that are not parentheses, counted, and the
    budget that is enough for the parser on that text. *)
Definition non_parens (s : str) : nat :=
  length (filter (fun c => negb (c =? ch "(")%N && negb (c =? ch ")")%N) s).

Definition parse_budget (s : str) : nat := 3 * non_parens s + length s.

(** A ledger whose four lists have one entry per line. *)
Definition ledger_ok (p : Proof) : Prop :=
  length (rules p) = length (theorems p)
  /\ length (indents p) = length (theorems p)
  /\ length (accesses p) = length (theorems p).

(** The scope code and the theorem of line [i] (1-based). *)
Definition code_at (p : Proof) (i : Z) : Z := nth (Z.to_nat (i - 1)) (accesses p) 0%Z.

Definition theorem_at (p : Proof) (i : Z) : option Sentence :=
  nth (Z.to_nat (i - 1)) (theorems p) None.

(** Line [b] is visible from line [a]: the decimal text of its scope code is
    a prefix of that of [a]. *)
Definition visible_from (p : Proof) (a b : Z) : bool :=
  starts_with (str_of_int (code_at p a)) (str_of_int (code_at p b)).

(** The names of the rules [Rule.apply] knows. *)
Definition rule_names : list string :=
  ["assume"; "reit"; "#E"; "#I"; "~E"; "~I"; "&E"; "&I"; "vE"; "vI"; ">E";
   ">I"; "-E"; "-I"]%string.

(** A sentence that is what its own constructor makes of its root. *)
Definition constructed (s : Sentence) : Prop := Sentence_of_root (root s) = Ok s.

(** The goal [c] stands on a line visible from the last line of [p], and the
    last line is at depth [i]: the test with which [prove] begins. *)
Definition goal_reached (c : Sentence) (p : Proof) (i : Z) : Prop :=
  exists ps,
    priors p = Ok ps
    /\ existsb (fun pr => obj_eq (fst pr) (Some c)) ps = true
    /\ indent p = Ok i.

(** The position of a character among the one-character connectives
    [#], [~], [v], [&], [^], [>], [-] of [CONNECTIVES]. *)
Definition conn_index (c : char) : option nat :=
  if (c =? ch "#")%N then Some 0
  else if (c =? ch "~")%N then Some 1
  else if (c =? ch "v")%N then Some 2
  else if (c =? ch "&")%N then Some 3
  else if (c =? ch "^")%N then Some 4
  else if (c =? ch ">")%N then Some 5
  else if (c =? ch "-")%N then Some 6
  else None.

(** What stands for the character [c] of a formula in its display text once
    the first [k] display symbols have been turned back into connectives. *)
Definition shown (k : nat) (c : char) : str :=
  match conn_index c with
  | Some i => if i <? k then [c] else nth i SPEC_CONNECTIVES []
  | None => [c]
  end.

(** What stands for [c] once the first [k] connectives have been turned
    into display symbols. *)
Definition showing (k : nat) (c : char) : str :=
  match conn_index c with
  | Some i => if i <? k then nth i SPEC_CONNECTIVES [] else [c]
  | None => [c]
  end.

(** A character that is no space, no square bracket and no display symbol. *)
Definition plain (c : char) : bool :=
  negb (mem c [sp; ch "["; ch "]"; u_falsum; u_not; u_or; u_and; u_xor;
               u_cond; u_bicond]).

(** A sentence that [Sentence.join] takes as it is: made by the constructor,
    with a formula, and with a text that does not read "None". *)
Definition joinable (a : Sentence) : Prop :=
  constructed a /\ formula a <> [] /\ Sentence_str a <> py "None".

(** * Theorems *)

Unset Implicit Arguments.

(** ** End-to-end runs of the prover *)

(** C1. With premises [PvQ], [P>R], [Q>R] and goal [R], [Proof.prove] returns
    the text "Proved." for every recursion budget from 8 on, and the last
    line of the ledger it leaves holds a sentence equal ([==]) to [R]. *)
Theorem C1_prove_scenario1 : forall k,
  exists p0 p1 r goal,
    Proof_init (8 + k) scenario1_premises = Ok p0 /\
    Sentence_of_text (8 + k) (py "R") = Ok goal /\
    Proof_prove (8 + k) p0 (OStr (py "R")) = Ok (py "Proved.", p1) /\
    last_item (theorems p1) = Ok (Some r) /\
    Sentence_eq r (Some goal) = true.
Proof.
  intros k. cbn [Nat.add].
  do 4 eexists.
  split; [vm_compute; reflexivity|].
  split; [vm_compute; reflexivity|].
  split; [vm_compute; reflexivity|].
  split; vm_compute; reflexivity.
Qed.

(** C3. With no premises and the goal [Pv~P] the tautology test passes, and
    the call goes on to [Sentence.connect([], '&').tf]: [connect] returns
    [None] for the empty list and the attribute access raises
    [AttributeError]. *)
Theorem C3_empty_premises_raise : forall k,
  exists p0 goal,
    Proof_init (8 + k) [] = Ok p0 /\
    Sentence_of_text (8 + k) (py "Pv~P") = Ok goal /\
    taut (tf goal) true = Ok true /\
    connect (premises p0) (ch "&") = Ok None /\
    Proof_prove (8 + k) p0 (OStr (py "Pv~P")) = Raise AttributeError.
Proof.
  intros k. cbn [Nat.add].
  do 2 eexists.
  split; [vm_compute; reflexivity|].
  split; [vm_compute; reflexivity|].
  repeat split; vm_compute; reflexivity.
Qed.

(** C4. With the single premise [P] and the goal [Q], the pre-check
    [premises.tf < conclusion.tf] is false ([Q] is not strictly stronger than
    [P]), the search runs and finds nothing: the call returns
    "Failed to prove." and leaves the ledger as it was. *)
Theorem C4_unentailed_goal_is_searched : forall k,
  exists p0 sp sq,
    Proof_init (8 + k) [inl (py "P")] = Ok p0 /\
    Sentence_of_text (8 + k) (py "P") = Ok sp /\
    Sentence_of_text (8 + k) (py "Q") = Ok sq /\
    TruthFunction_ge (tf sp) (tf sq) = Ok false /\
    TruthFunction_lt (tf sp) (tf sq) = Ok false /\
    Proof_prove (8 + k) p0 (OStr (py "Q")) = Ok (py "Failed to prove.", p0).
Proof.
  intros k. cbn [Nat.add].
  do 3 eexists.
  split; [vm_compute; reflexivity|].
  split; [vm_compute; reflexivity|].
  split; [vm_compute; reflexivity|].
  repeat split; vm_compute; reflexivity.
Qed.

(** ** Rendering and parsing *)

(** C7. The text [Pv(Qv(RvS))] parses to the tree P v (Q v (R v S)), whose
    formula is rendered without parentheses as [PvQvRvS]; that text parses to
    the other tree (P v Q) v (R v S), rendered [(PvQ)vRvS].  Rendering after
    parsing is not idempotent here, and the root's formula does not parse
    back to the root. *)
Theorem C7_render_parse_not_idempotent : forall k,
  exists s1 s2,
    Sentence_of_text (8 + k) (py "Pv(Qv(RvS))") = Ok s1 /\
    Sentence_of_text (8 + k) (Sentence_str s1) = Ok s2 /\
    formula s1 = py "PvQvRvS" /\
    formula s2 = py "(PvQ)vRvS" /\
    Sentence_str s1 <> Sentence_str s2 /\
    _parse (8 + k) (formula s1) = Ok (root s2) /\
    root s2 <> root s1.
Proof.
  intros k. cbn [Nat.add].
  do 2 eexists.
  split; [vm_compute; reflexivity|].
  split; [vm_compute; reflexivity|].
  split; [vm_compute; reflexivity|].
  split; [vm_compute; reflexivity|].
  split; [vm_compute; discriminate|].
  split; [vm_compute; reflexivity|].
  vm_compute; discriminate.
Qed.

(** ** The ledger *)

(** C8. In the ledger built by [nested_boxes], line 2 opens an assumption box
    (depth 1, scope code 11) that line 5 closes (depth 0, scope code 1);
    line 7, appended later inside a new box, gets the scope code 112, and
    [accessible(7)] yields lines 2 and 4 of the closed box, and not line 6,
    the assumption that encloses line 7. *)
Theorem C8_closed_box_visible : forall k,
  exists p visible,
    nested_boxes (8 + k) = Ok p /\
    indents p = [0; 1; 2; 1; 0; 1; 2]%Z /\
    accesses p = [1; 11; 111; 11; 1; 12; 112]%Z /\
    accessible p 7 = Ok visible /\
    map snd visible = [1; 2; 4; 5; 7]%Z.
Proof.
  intros k. cbn [Nat.add].
  do 2 eexists.
  split; [vm_compute; reflexivity|].
  split; [vm_compute; reflexivity|].
  split; [vm_compute; reflexivity|].
  split; vm_compute; reflexivity.
Qed.

Lemma bind_Ok_inv {A B} (m : result A) (k : A -> result B) (b : B) :
  bind m k = Ok b -> exists a, m = Ok a /\ k a = Ok b.
Proof.
  destruct m as [a| |]; simpl; intros H; try discriminate.
  exists a. split; [reflexivity | exact H].
Qed.

Lemma pop_snoc ts pr rs ids acs t r i a :
  pop (mkProof (ts ++ [t]) pr (rs ++ [r]) (ids ++ [i]) (acs ++ [a]))
  = Ok (mkProof ts pr rs ids acs).
Proof.
  unfold pop. cbn [indents theorems rules accesses premises].
  rewrite !removelast_last.
  destruct ids, ts, rs, acs; reflexivity.
Qed.

Lemma append_sentence_pop fuel p indent_ theorem rule access_ p' :
  append_sentence fuel p indent_ theorem rule access_ = Ok p' -> pop p' = Ok p.
Proof.
  unfold append_sentence. intros H.
  apply bind_Ok_inv in H. destruct H as [t [_ H]].
  apply bind_Ok_inv in H. destruct H as [a [_ H]].
  injection H as <-. rewrite pop_snoc. destruct p; reflexivity.
Qed.

Lemma append_pop fuel p rule lines other fl p' :
  snd (append fuel p rule lines other fl) = Ok p' -> pop p' = Ok p.
Proof.
  unfold append.
  destruct (match other with
            | OStr text => s <- Sentence_of_text fuel text;; Ok (Some s)
            | OObj o => Ok o
            end) as [o| |]; cbn [snd]; try discriminate.
  destruct (Rule_apply rule p lines o fl) as [lines' r]. cbn [snd].
  intros H. apply bind_Ok_inv in H. destruct H as [x [_ H]].
  destruct x as [[[[rl new] ind] acc]|]; [|discriminate].
  eapply append_sentence_pop; eassumption.
Qed.










(** C10. A call of [Rule.apply] with [fl = False] and a list as [lines]
    leaves the caller's list reversed, whatever the rule does next (also when
    it raises).  [Proof.append] passes its own [lines] on, so its caller's
    list is reversed as well, once [other] has been turned into a Sentence;
    when that conversion fails, [Rule.apply] is not reached and the list is
    untouched. *)
Theorem C10_lines_reversed_in_place : forall fuel rule p l,
  (forall other, fst (Rule_apply rule p (LList l) other false) = LList (rev l))
  /\ (forall other,
        fst (append fuel p rule (LList l) (OObj other) false) = LList (rev l))
  /\ (forall text,
        fst (append fuel p rule (LList l) (OStr text) false)
        = match Sentence_of_text fuel text with
          | Ok _ => LList (rev l)
          | _ => LList l
          end).
Proof.
  intros fuel rule p l. split; [|split].
  - intros other. reflexivity.
  - intros other. reflexivity.
  - intros text. unfold append.
    destruct (Sentence_of_text fuel text); reflexivity.
Qed.

(** ** Truth functions *)

Lemma insert_char_In x l c :
  In c (insert_char x l) <-> c = x \/ In c l.
Proof.
  induction l as [|y l IH]; simpl.
  - intuition.
  - destruct (x <? y)%N eqn:Hlt; [simpl; intuition|].
    destruct (x =? y)%N eqn:Heq.
    + apply N.eqb_eq in Heq. subst. simpl. intuition.
    + simpl. rewrite IH. intuition.
Qed.

Lemma insert_char_sorted x l :
  StronglySorted N.lt l -> StronglySorted N.lt (insert_char x l).
Proof.
  induction l as [|y l IH]; simpl; intros H.
  - constructor; constructor.
  - inversion H as [|? ? Hs Hf]; subst.
    destruct (x <? y)%N eqn:Hlt.
    + apply N.ltb_lt in Hlt. constructor; [exact H|].
      constructor; [exact Hlt|].
      rewrite Forall_forall in *. intros z Hz. specialize (Hf z Hz). lia.
    + destruct (x =? y)%N eqn:Heq; [exact H|].
      apply N.ltb_ge in Hlt. apply N.eqb_neq in Heq.
      constructor; [apply IH; exact Hs|].
      rewrite Forall_forall in *. intros z Hz.
      apply insert_char_In in Hz. destruct Hz as [->|Hz]; [lia|auto].
Qed.

Lemma sorted_set_In l c : In c (sorted_set l) <-> In c l.
Proof.
  induction l as [|x l IH]; simpl; [tauto|].
  rewrite insert_char_In, IH. intuition.
Qed.

Lemma sorted_set_sorted l : StronglySorted N.lt (sorted_set l).
Proof.
  induction l as [|x l IH]; simpl; [constructor|].
  apply insert_char_sorted, IH.
Qed.

Lemma strictly_sorted_NoDup l : StronglySorted N.lt l -> NoDup l.
Proof.
  induction 1 as [|x l Hs IH Hf]; constructor; [|exact IH].
  intros Hin. rewrite Forall_forall in Hf. specialize (Hf x Hin). lia.
Qed.

Lemma dict_set_fresh d k v :
  ~ In k (map fst d) -> dict_set d k v = d ++ [(k, v)].
Proof.
  induction d as [|[k' v'] d IH]; simpl; intros H; [reflexivity|].
  destruct (k =? k')%N eqn:E.
  - apply N.eqb_eq in E. subst. tauto.
  - rewrite IH; [reflexivity|tauto].
Qed.

Lemma fold_dict_set_fresh (g : nat * char -> bool) l : forall acc,
  NoDup (map snd l) ->
  (forall ja, In ja l -> ~ In (snd ja) (map fst acc)) ->
  fold_left (fun vals ja => if g ja then dict_set vals (snd ja) true
                            else dict_set vals (snd ja) false) l acc
  = acc ++ map (fun ja => (snd ja, g ja)) l.
Proof.
  induction l as [|ja l IH]; simpl; intros acc Hnd Hfresh.
  - now rewrite app_nil_r.
  - inversion Hnd as [|? ? Hnotin Hnd']; subst.
    assert (Hset : (if g ja then dict_set acc (snd ja) true
                    else dict_set acc (snd ja) false)
                   = acc ++ [(snd ja, g ja)]).
    { destruct (g ja); apply dict_set_fresh; apply Hfresh; now left. }
    rewrite Hset, IH.
    + now rewrite <- app_assoc.
    + exact Hnd'.
    + intros jb Hjb. rewrite map_app, in_app_iff. simpl.
      intros [Hin|[Heq|[]]].
      * apply (Hfresh jb); [now right|exact Hin].
      * apply Hnotin. rewrite Heq. apply in_map. exact Hjb.
Qed.

Lemma map_snd_combine {A B} (l : list A) (l' : list B) :
  length l = length l' -> map snd (combine l l') = l'.
Proof.
  revert l'. induction l as [|a l IH]; destruct l' as [|b l']; simpl;
    intros H; try discriminate; [reflexivity|].
  f_equal. apply IH. now injection H.
Qed.

Lemma digit_is_testbit i k :
  ((i / 2 ^ k) mod 2 =? 0) = negb (Nat.testbit i k).
Proof.
  rewrite <- Nat.testbit_spec'. now destruct (Nat.testbit i k).
Qed.

Lemma _canonical_assignments atomics :
  NoDup atomics ->
  _canonical atomics = map (assignment atomics) (seq 0 (2 ^ length atomics)).
Proof.
  intros Hnd. unfold _canonical. apply map_ext. intros i.
  rewrite (fold_dict_set_fresh
             (fun ja => (i / 2 ^ (length atomics - fst ja - 1)) mod 2 =? 0)).
  - cbn [app]. unfold assignment. apply map_ext. intros [j a]. cbn [fst snd].
    rewrite digit_is_testbit. do 3 f_equal. lia.
  - rewrite map_snd_combine; [exact Hnd|now rewrite length_seq].
  - intros ja _ [].
Qed.

Lemma assignment_keys atomics i : map fst (assignment atomics i) = atomics.
Proof.
  unfold assignment. rewrite map_map. simpl.
  apply map_snd_combine. now rewrite length_seq.
Qed.

Lemma testbit_above i n k : i < 2 ^ n -> n <= k -> Nat.testbit i k = false.
Proof.
  intros Hi Hk.
  assert (H : Nat.b2n (Nat.testbit i k) = 0).
  { rewrite Nat.testbit_spec'. rewrite Nat.div_small; [reflexivity|].
    apply Nat.lt_le_trans with (2 ^ n); [exact Hi|].
    apply Nat.pow_le_mono_r; lia. }
  now destruct (Nat.testbit i k).
Qed.

Lemma assignment_inj atomics i i' :
  i < 2 ^ length atomics -> i' < 2 ^ length atomics ->
  assignment atomics i = assignment atomics i' -> i = i'.
Proof.
  intros Hi Hi' Heq. apply Nat.bits_inj. intros k.
  destruct (Nat.lt_ge_cases k (length atomics)) as [Hk|Hk].
  - unfold assignment in Heq.
    destruct (nth_error atomics (length atomics - 1 - k)) as [a|] eqn:Ha.
    2:{ apply nth_error_None in Ha. lia. }
    assert (Hin : In (length atomics - 1 - k, a)
                     (combine (seq 0 (length atomics)) atomics)).
    { apply nth_error_In with (n := length atomics - 1 - k).
      clear - Ha Hk. remember (length atomics - 1 - k) as j eqn:Ej.
      assert (Hj : j < length atomics) by lia. clear Ej Hk.
      assert (G : forall s (l : list char) j a, nth_error l j = Some a ->
                   nth_error (combine (seq s (length l)) l) j = Some (s + j, a)).
      { intros s l. revert s. induction l as [|b l IH]; intros s [|j'] a' H;
          simpl in *; try discriminate.
        - injection H as ->. now rewrite Nat.add_0_r.
        - rewrite (IH (S s) j' a' H). f_equal. f_equal. lia. }
      now rewrite (G 0 atomics j a Ha). }
    pose proof (ext_in_map Heq _ Hin) as E. simpl in E.
    injection E as E.
    replace (length atomics - 1 - (length atomics - 1 - k)) with k in E by lia.
    destruct (Nat.testbit i k), (Nat.testbit i' k); simpl in E;
      congruence.
  - rewrite (testbit_above _ _ _ Hi Hk), (testbit_above _ _ _ Hi' Hk). reflexivity.
Qed.

Lemma fill_spec root canon : forall t f t' f',
  fill root canon t f = Ok (t', f') ->
  t' = t ++ filter (satisfies root) canon
  /\ f' = f ++ filter (falsifies root) canon
  /\ forall vals, In vals canon -> exists b, Symbol_call root vals = Ok b.
Proof.
  induction canon as [|vals rest IH]; simpl; intros t f t' f' H.
  - injection H as <- <-. rewrite !app_nil_r. repeat split. intros ? [].
  - unfold satisfies, falsifies.
    destruct (Symbol_call root vals) as [b| |] eqn:E; simpl in H;
      try discriminate.
    destruct b; apply IH in H; destruct H as (-> & -> & Hall);
      rewrite <- ?app_assoc; simpl; repeat split;
      intros v [<-|Hv]; eauto.
Qed.

Lemma filter_partition_perm root canon :
  (forall vals, In vals canon -> exists b, Symbol_call root vals = Ok b) ->
  Permutation (filter (satisfies root) canon ++ filter (falsifies root) canon)
    canon.
Proof.
  induction canon as [|vals rest IH]; simpl; intros Hall; [constructor|].
  assert (IH' := IH (fun v Hv => Hall v (or_intror Hv))).
  destruct (Hall vals (or_introl eq_refl)) as [b Hb].
  unfold satisfies, falsifies at 1. rewrite Hb.
  destruct b; simpl.
  - constructor. exact IH'.
  - apply Permutation_sym, Permutation_cons_app, Permutation_sym, IH'.
Qed.

(** C6. When the truth function of a sentence has been built: its atomics
    are the characters of the formula outside [VALID], in strictly
    increasing order; there are [2 ^ n] assignments for [n] atomics; the
    assignment at position [i] gives the atomics, in their sorted order,
    the binary digits of [i], most significant first (digit 0 is true); the
    assignments are pairwise distinct; and the satisfying and the falsifying
    lists are the assignments the formula evaluates to true and to false,
    which together are a rearrangement of the whole enumeration and share no
    assignment. *)
Theorem C6_truth_function_enumeration : forall root t,
  TruthFunction_init root = Ok t ->
  let n := length (atomics t) in
  StronglySorted N.lt (atomics t)
  /\ (forall c, In c (atomics t) <->
                In c (sym_formula root) /\ mem c VALID = false)
  /\ length (canonical t) = 2 ^ n
  /\ (forall i, i < 2 ^ n ->
                nth_error (canonical t) i = Some (assignment (atomics t) i))
  /\ (forall vals, In vals (canonical t) -> map fst vals = atomics t)
  /\ NoDup (canonical t)
  /\ tf_true t = filter (satisfies root) (canonical t)
  /\ tf_false t = filter (falsifies root) (canonical t)
  /\ Permutation (tf_true t ++ tf_false t) (canonical t)
  /\ (forall vals, In vals (tf_true t) -> ~ In vals (tf_false t)).
Proof.
  intros root t H n. unfold TruthFunction_init in H.
  set (ats := sorted_set (filter (fun c => negb (mem c VALID)) (sym_formula root))) in H.
  apply bind_Ok_inv in H. destruct H as [[tr fl] [Hfill H]].
  injection H as <-. subst n.
  cbv beta iota delta [atomics canonical tf_true tf_false].
  assert (Hsorted : StronglySorted N.lt ats) by apply sorted_set_sorted.
  assert (Hnd : NoDup ats) by (apply strictly_sorted_NoDup, Hsorted).
  rewrite (_canonical_assignments _ Hnd) in *.
  apply fill_spec in Hfill. simpl in Hfill. destruct Hfill as (-> & -> & Hall).
  split; [exact Hsorted|].
  split.
  { intros c. unfold ats. rewrite sorted_set_In, filter_In.
    rewrite negb_true_iff. reflexivity. }
  split; [now rewrite length_map, length_seq|].
  split.
  { intros i Hi. rewrite nth_error_map, nth_error_seq.
    apply Nat.ltb_lt in Hi. now rewrite Hi. }
  split.
  { intros vals Hin. apply in_map_iff in Hin. destruct Hin as (i & <- & _).
    apply assignment_keys. }
  split.
  { apply NoDup_map_NoDup_ForallPairs; [|apply seq_NoDup].
    intros i i' Hi Hi' Heq. apply in_seq in Hi, Hi'.
    apply (assignment_inj ats); [lia|lia|exact Heq]. }
  split; [reflexivity|]. split; [reflexivity|].
  split; [apply filter_partition_perm, Hall|].
  intros vals Ht Hf. apply filter_In in Ht, Hf.
  destruct Ht as [_ Ht], Hf as [_ Hf]. unfold satisfies, falsifies in *.
  destruct (Symbol_call root vals) as [[]| |]; discriminate.
Qed.

Lemma C6_truth_function_enumeration_witness :
  exists root t,
    _parse 4 (py "Q>(PvQ)") = Ok root /\
    TruthFunction_init root = Ok t /\
    atomics t = py "PQ" /\
    length (canonical t) = 4 /\
    nth_error (canonical t) 1 = Some (assignment (atomics t) 1) /\
    Permutation (tf_true t ++ tf_false t) (canonical t).
Proof.
  do 2 eexists.
  split; [vm_compute; reflexivity|].
  match goal with
  | |- ?init = Ok ?x /\ _ =>
      assert (Hi : init = Ok x) by (vm_compute; reflexivity)
  end.
  split; [exact Hi|].
  split; [reflexivity|].
  pose proof (C6_truth_function_enumeration _ _ Hi) as H.
  cbv zeta in H.
  destruct H as (_ & _ & Hlen & Hnth & _ & _ & _ & _ & Hperm & _).
  split; [exact Hlen|].
  split; [apply Hnth; simpl; lia|].
  exact Hperm.
Defined.

(** ** Equivalence and entailment *)

Lemma TruthFunction_init_spec root t :
  TruthFunction_init root = Ok t ->
  tf_sentence t = root
  /\ canonical t = _canonical (atomics t)
  /\ tf_true t = filter (satisfies root) (canonical t)
  /\ tf_false t = filter (falsifies root) (canonical t)
  /\ forall vals, In vals (canonical t) -> exists b, Symbol_call root vals = Ok b.
Proof.
  unfold TruthFunction_init. intros H.
  apply bind_Ok_inv in H. destruct H as [[tr fl] [Hfill H]].
  injection H as <-. cbv beta iota delta [atomics canonical tf_true tf_false tf_sentence].
  apply fill_spec in Hfill. destruct Hfill as (-> & -> & Hall).
  repeat split; try reflexivity. exact Hall.
Qed.

Lemma Sentence_of_root_spec r s :
  Sentence_of_root r = Ok s -> root s = r /\ TruthFunction_init r = Ok (tf s).
Proof.
  destruct r as [c l rt f]. cbn [Sentence_of_root]. intros H.
  apply bind_Ok_inv in H. destruct H as [t [Ht H]].
  destruct l as [l'|].
  - apply bind_Ok_inv in H. destruct H as [sl [_ H]].
    destruct (c =? ch "~")%N.
    + injection H as <-. split; [reflexivity|exact Ht].
    + destruct rt as [r'|]; [|discriminate].
      apply bind_Ok_inv in H. destruct H as [sr [_ H]].
      injection H as <-. split; [reflexivity|exact Ht].
  - injection H as <-. split; [reflexivity|exact Ht].
Qed.

Lemma str_eqb_sym a b : str_eqb a b = str_eqb b a.
Proof.
  unfold str_eqb.
  destruct (list_eq_dec N.eq_dec a b), (list_eq_dec N.eq_dec b a);
    congruence.
Qed.

Lemma str_eqb_eq a b : a = b -> str_eqb a b = true.
Proof.
  intros ->. unfold str_eqb. destruct (list_eq_dec N.eq_dec b b); congruence.
Qed.

Lemma TruthFunction_eq_sym a b e :
  TruthFunction_eq a b = Ok e -> TruthFunction_eq b a = Ok e.
Proof.
  unfold TruthFunction_eq.
  destruct (TruthFunction_str a), (TruthFunction_str b); simpl;
    try discriminate.
  now rewrite str_eqb_sym.
Qed.

(** Removing the spaces of a text. *)
Lemma strip_filter s :
  replace [sp] [] s = filter (fun c => negb (sp =? c)%N) s.
Proof.
  unfold replace.
  induction s as [|c s IH]; [reflexivity|].
  cbn [replace_from starts_with length Nat.sub filter app].
  replace (starts_with s []) with true by (now destruct s).
  rewrite andb_true_r. destruct (sp =? c)%N; simpl; now rewrite IH.
Qed.

Lemma strip_app a b : replace [sp] [] (a ++ b) = replace [sp] [] a ++ replace [sp] [] b.
Proof. rewrite !strip_filter. apply filter_app. Qed.

Lemma strip_spaces k : replace [sp] [] (spaces k) = [].
Proof.
  rewrite strip_filter. unfold spaces.
  induction (Z.to_nat k) as [|n IH]; [reflexivity|]. simpl. exact IH.
Qed.

Lemma strip_adjust m c : replace [sp] [] (__adjust m c) = replace [sp] [] m.
Proof.
  unfold __adjust. now rewrite strip_app, strip_spaces, app_nil_r.
Qed.

(** Two truth functions over the same assignments that take the same value
    on each of them are rendered alike, spaces apart. *)
Lemma TruthFunction_str_agree ta tb :
  atomics ta = atomics tb ->
  canonical ta = canonical tb ->
  (forall vals, In vals (canonical ta) ->
     exists x, Symbol_call (tf_sentence ta) vals = Ok x
               /\ Symbol_call (tf_sentence tb) vals = Ok x) ->
  exists sa sb,
    TruthFunction_str ta = Ok sa /\ TruthFunction_str tb = Ok sb
    /\ replace [sp] [] sa = replace [sp] [] sb.
Proof.
  intros Hat Hcan Hag. unfold TruthFunction_str, __calcString.
  rewrite <- Hat, <- Hcan.
  set (rowa := fun vals : dict => _ : result str).
  set (rowb := fun vals : dict => _ : result str).
  match goal with
  | |- exists sa sb, bind ?ma _ = _ /\ bind ?mb _ = _ /\ _ =>
      assert (Hrows : exists la lb,
                 ma = Ok la /\ mb = Ok lb
                 /\ replace [sp] [] (concat la) = replace [sp] [] (concat lb))
  end.
  { revert Hag. generalize (canonical ta) as C.
    induction C as [|vals C IH]; intros Hag.
    - exists [], []. repeat split.
    - destruct (Hag vals (or_introl eq_refl)) as (x & Ha & Hb).
      destruct (IH (fun v Hv => Hag v (or_intror Hv))) as (la & lb & Hla & Hlb & Heq).
      eexists. eexists.
      cbn [mapM]. rewrite Hla, Hlb.
      unfold rowa, rowb. cbn [mapM]. rewrite Ha, Hb.
      cbn [bind join].
      split; [reflexivity|]. split; [reflexivity|].
      cbn [concat]. rewrite !strip_app, !strip_adjust, Heq. reflexivity. }
  destruct Hrows as (la & lb & Hla & Hlb & Heq).
  eexists. eexists. rewrite Hla, Hlb. cbn [bind].
  split; [reflexivity|]. split; [reflexivity|].
  rewrite !strip_app, Heq. reflexivity.
Qed.

Lemma mem_In c l : mem c l = true <-> In c l.
Proof.
  unfold mem. rewrite existsb_exists. split.
  - intros (x & Hx & E). apply N.eqb_eq in E. now subst.
  - intros H. exists c. split; [exact H|apply N.eqb_refl].
Qed.

Lemma no_exclusive_atomics l : filter (fun c => negb (mem c l)) l = [].
Proof.
  assert (G : forall m, (forall c, In c m -> In c l) ->
                        filter (fun c => negb (mem c l)) m = []).
  { induction m as [|c m IH]; intros H; [reflexivity|].
    simpl. assert (Hc : mem c l = true) by (apply mem_In, H; now left).
    rewrite Hc. simpl. apply IH. intros d Hd. apply H. now right. }
  apply G. auto.
Qed.

Lemma gt_outer_all other trues :
  gt_outer other trues [[]] true = Ok true ->
  forall vals, In vals trues -> TruthFunction_call other vals = Ok true.
Proof.
  induction trues as [|v rest IH]; intros H vals Hin; [destruct Hin|].
  cbn [gt_outer gt_inner dict_update fold_left] in H.
  destruct (TruthFunction_call other v) as [b| |] eqn:E; cbn [bind] in H;
    try discriminate.
  destruct b; cbn [negb] in H; [|discriminate].
  destruct Hin as [<-|Hin]; [exact E|apply IH; assumption].
Qed.

(** With the same atomics, [self > other] means that every assignment that
    satisfies [self] satisfies [other]. *)
Lemma gt_same_atomics ta tb :
  atomics ta = atomics tb ->
  TruthFunction_gt ta tb = Ok true ->
  forall vals, In vals (tf_true ta) -> TruthFunction_call tb vals = Ok true.
Proof.
  intros Hat H. unfold TruthFunction_gt in H.
  apply bind_Ok_inv in H. destruct H as [e [_ H]].
  destruct e; [discriminate|].
  rewrite Hat, no_exclusive_atomics in H.
  exact (gt_outer_all _ _ H).
Qed.

(** C5, as the code has it.  Equivalent sentences entail each other; two
    sentences over the same atomics that entail each other are equivalent.
    (Without the condition on the atomics the second part fails: equality of
    truth functions compares the atomics by name.) *)
Theorem C5_antisymmetry_same_atomics : forall ra rb a b,
  Sentence_of_root ra = Ok a ->
  Sentence_of_root rb = Ok b ->
  (equivalent a b = Ok true ->
   TruthFunction_ge (tf a) (tf b) = Ok true
   /\ TruthFunction_ge (tf b) (tf a) = Ok true)
  /\ (atomics (tf a) = atomics (tf b) ->
      TruthFunction_ge (tf a) (tf b) = Ok true ->
      TruthFunction_ge (tf b) (tf a) = Ok true ->
      equivalent a b = Ok true).
Proof.
  intros ra rb a b Ha Hb. split.
  - unfold equivalent, TruthFunction_ge. intros H.
    rewrite (TruthFunction_eq_sym _ _ _ H), H. split; reflexivity.
  - intros Hat Hab Hba. unfold equivalent.
    apply Sentence_of_root_spec in Ha, Hb.
    destruct Ha as [_ Ha], Hb as [_ Hb].
    apply TruthFunction_init_spec in Ha, Hb.
    destruct Ha as (Hsa & Hca & Hta & _ & Halla).
    destruct Hb as (Hsb & Hcb & Htb & _ & Hallb).
    assert (Hcan : canonical (tf a) = canonical (tf b))
      by (rewrite Hca, Hcb, Hat; reflexivity).
    unfold TruthFunction_ge in Hab, Hba.
    destruct (TruthFunction_eq (tf a) (tf b)) as [e| |] eqn:Eab;
      cbn [bind] in Hab; try discriminate.
    destruct e; [reflexivity|].
    rewrite (TruthFunction_eq_sym _ _ _ Eab) in Hba. cbn [bind] in Hba.
    pose proof (gt_same_atomics _ _ Hat Hab) as Gab.
    pose proof (gt_same_atomics _ _ (eq_sym Hat) Hba) as Gba.
    unfold TruthFunction_call in Gab, Gba. rewrite Hta in Gab. rewrite Htb in Gba.
    rewrite Hsa in Gba. rewrite Hsb in Gab.
    destruct (TruthFunction_str_agree (tf a) (tf b) Hat Hcan) as (sa & sb & Esa & Esb & Heq).
    { intros vals Hin. rewrite Hsa, Hsb.
      destruct (Halla vals Hin) as [x Hx].
      assert (Hin' : In vals (canonical (tf b))) by (rewrite <- Hcan; exact Hin).
      destruct (Hallb vals Hin') as [y Hy].
      exists x. split; [exact Hx|].
      destruct x.
      - apply Gab. apply filter_In. split; [exact Hin|].
        unfold satisfies. now rewrite Hx.
      - destruct y; [|exact Hy].
        assert (Symbol_call ra vals = Ok true).
        { apply Gba. apply filter_In. split; [exact Hin'|].
          unfold satisfies. now rewrite Hy. }
        congruence. }
    unfold TruthFunction_eq in Eab. rewrite Esa, Esb in Eab. cbn [bind] in Eab.
    rewrite (str_eqb_eq _ _ Heq) in Eab. discriminate Eab.
Qed.

Lemma C5_antisymmetry_same_atomics_witness :
  exists ra rb a b,
    _parse 4 (py "P>Q") = Ok ra /\ _parse 4 (py "~PvQ") = Ok rb /\
    Sentence_of_root ra = Ok a /\ Sentence_of_root rb = Ok b /\
    atomics (tf a) = atomics (tf b) /\
    TruthFunction_ge (tf a) (tf b) = Ok true /\
    TruthFunction_ge (tf b) (tf a) = Ok true /\
    equivalent a b = Ok true.
Proof.
  do 4 eexists.
  split; [vm_compute; reflexivity|].
  split; [vm_compute; reflexivity|].
  match goal with
  | |- ?ia = Ok ?x /\ ?ib = Ok ?y /\ _ =>
      assert (Ha : ia = Ok x) by (vm_compute; reflexivity);
      assert (Hb : ib = Ok y) by (vm_compute; reflexivity)
  end.
  split; [exact Ha|]. split; [exact Hb|].
  split; [vm_compute; reflexivity|].
  split; [vm_compute; reflexivity|].
  split; [vm_compute; reflexivity|].
  apply (proj2 (C5_antisymmetry_same_atomics _ _ _ _ Ha Hb));
    vm_compute; reflexivity.
Defined.

(** C5 as stated fails: [Pv~P] and [Qv~Q] entail each other and are not
    equivalent. *)
Lemma C5_antisymmetry_counterexample :
  exists a b,
    Sentence_of_text 4 (py "Pv~P") = Ok a /\
    Sentence_of_text 4 (py "Qv~Q") = Ok b /\
    TruthFunction_ge (tf a) (tf b) = Ok true /\
    TruthFunction_ge (tf b) (tf a) = Ok true /\
    equivalent a b = Ok false.
Proof.
  do 2 eexists.
  split; [vm_compute; reflexivity|].
  split; [vm_compute; reflexivity|].
  repeat split; vm_compute; reflexivity.
Qed.

(** ** Visibility *)

(** What [Proof.accessible] does with line [B] when looking from a line [A]
    of the ledger: it yields the line exactly when the decimal text of [B]'s
    scope code is a prefix of the decimal text of [A]'s. *)
Lemma accessible_step_prefix p A B a b s :
  A <> (Proof_len p + 1)%Z ->
  index (accesses p) (A - 1) = Ok a ->
  index (accesses p) (B - 1) = Ok b ->
  getitem p B = Ok s ->
  accessible_step p A B
  = Ok (if starts_with (str_of_int a) (str_of_int b) then Some (s, B) else None).
Proof.
  intros HA Ha Hb Hs. unfold accessible_step, _can_access.
  apply Z.eqb_neq in HA. rewrite HA, Ha, Hb. cbn [bind].
  destruct (starts_with (str_of_int a) (str_of_int b)); [|reflexivity].
  rewrite Hs. reflexivity.
Qed.

(** ** The parser on flat chains *)

(** The characters of a text with their positions, from [s] on. *)
Lemma indexed_cons s c (t : str) :
  combine (seq s (length (c :: t))) (c :: t)
  = (s, c) :: combine (seq (S s) (length t)) t.
Proof. reflexivity. Qed.

Lemma indexed_app s (a b : str) :
  combine (seq s (length (a ++ b))) (a ++ b)
  = combine (seq s (length a)) a ++ combine (seq (s + length a) (length b)) b.
Proof.
  revert s. induction a as [|c a IH]; intros s.
  - simpl. now rewrite Nat.add_0_r.
  - cbn [app]. rewrite !indexed_cons, IH. cbn [app length].
    now rewrite Nat.add_succ_r.
Qed.

Lemma binary_quiet_excl c : mem c BINARIES = true -> quiet c = false.
Proof.
  intros H. unfold quiet. rewrite H. now rewrite andb_false_r.
Qed.

Lemma binary_not_paren c :
  mem c BINARIES = true -> (c =? ch "(")%N = false /\ (c =? ch ")")%N = false.
Proof.
  intros H. split.
  - destruct (c =? ch "(")%N eqn:E; [|reflexivity].
    apply N.eqb_eq in E. subst. discriminate H.
  - destruct (c =? ch ")")%N eqn:E; [|reflexivity].
    apply N.eqb_eq in E. subst. discriminate H.
Qed.

Lemma quiet_parts c :
  quiet c = true ->
  (c =? ch "(")%N = false /\ (c =? ch ")")%N = false /\ mem c BINARIES = false.
Proof.
  unfold quiet. rewrite !andb_true_iff, !negb_true_iff. tauto.
Qed.

Lemma scan_step_quiet n st i c : quiet c = true -> scan_step n st (i, c) = st.
Proof.
  intros H. apply quiet_parts in H. destruct H as (H1 & H2 & H3).
  destruct st as [[d acc] e]. unfold scan_step. rewrite H1, H2, H3.
  now rewrite andb_false_r.
Qed.

Lemma scan_step_deep n d acc e i c :
  (c =? ch "(")%N = false -> (c =? ch ")")%N = false -> d <> 0%Z ->
  scan_step n (d, acc, e) (i, c) = (d, acc, e).
Proof.
  intros H1 H2 Hd. unfold scan_step. rewrite H1, H2.
  apply Z.eqb_neq in Hd. now rewrite Hd.
Qed.

Lemma scan_step_connective n acc e i c :
  mem c BINARIES = true -> S i < n ->
  scan_step n (0%Z, acc, e) (i, c) = (0%Z, acc ++ [(i, c)], false).
Proof.
  intros Hc Hi. destruct (binary_not_paren _ Hc) as [H1 H2].
  unfold scan_step. rewrite H1, H2, Hc.
  replace (Z.of_nat i =? Z.of_nat n - 1)%Z with false; [reflexivity|].
  symmetry. apply Z.eqb_neq. lia.
Qed.

Lemma operand_quiet s : is_operand s = true -> Forall (fun c => quiet c = true) s.
Proof.
  induction s as [|c s IH]; [discriminate|].
  destruct s as [|d s'].
  - simpl. intros H. constructor; [exact H|constructor].
  - intros H. change (((c =? ch "~")%N && is_operand (d :: s')) = true) in H.
    apply andb_true_iff in H. destruct H as [Hc Hs].
    constructor; [|apply IH, Hs].
    apply N.eqb_eq in Hc. subst. reflexivity.
Qed.

Lemma operand_nonempty s : is_operand s = true -> 1 <= length s.
Proof. destruct s; [discriminate|simpl; lia]. Qed.

Lemma fold_scan_quiet n t : forall s st,
  Forall (fun c => quiet c = true) t ->
  fold_left (scan_step n) (combine (seq s (length t)) t) st = st.
Proof.
  induction t as [|c t IH]; intros s st H; [reflexivity|].
  inversion H; subst. rewrite indexed_cons. cbn [fold_left].
  rewrite scan_step_quiet by assumption. now apply IH.
Qed.

Lemma chain_text_length_ge op0 rest :
  chain_ok op0 rest -> 1 + 2 * length rest <= length (chain_text op0 rest).
Proof.
  revert op0. induction rest as [|[c op] rest IH]; intros op0 [H0 Hr].
  - simpl. apply operand_nonempty in H0. lia.
  - apply Forall_cons_iff in Hr. destruct Hr as [[_ Hop] Hr'].
    cbn [chain_text snd] in *.
    rewrite length_app. cbn [length].
    specialize (IH op (conj Hop Hr')). apply operand_nonempty in H0. lia.
Qed.

(** Scanning a chain at depth 0 records the positions of its connectives. *)
Lemma fold_scan_chain n rest : forall op0 s acc e,
  chain_ok op0 rest ->
  s + length (chain_text op0 rest) = n ->
  fold_left (scan_step n)
    (combine (seq s (length (chain_text op0 rest))) (chain_text op0 rest))
    (0%Z, acc, e)
  = (0%Z, acc ++ positions s op0 rest,
     match rest with [] => e | _ => false end).
Proof.
  induction rest as [|[c op] rest IH]; intros op0 s acc e [H0 Hr] Hn.
  - cbn [chain_text positions]. rewrite app_nil_r.
    apply fold_scan_quiet, operand_quiet, H0.
  - apply Forall_cons_iff in Hr. destruct Hr as [[Hc Hop] Hr'].
    cbn [fst snd] in *. cbn [chain_text positions] in *.
    rewrite indexed_app, fold_left_app.
    rewrite (fold_scan_quiet n op0) by (apply operand_quiet, H0).
    rewrite indexed_cons. cbn [fold_left].
    pose proof (chain_text_length_ge op rest (conj Hop Hr')) as Hlen.
    rewrite length_app in Hn. cbn [length] in Hn.
    rewrite scan_step_connective by (assumption || lia).
    rewrite (IH op (S (s + length op0)) _ false (conj Hop Hr')) by lia.
    rewrite <- app_assoc. cbn [app].
    replace (s + length op0 + 1) with (S (s + length op0)) by lia.
    now destruct rest.
Qed.

Lemma chain_head_operand op0 rest :
  chain_ok op0 rest ->
  exists c t, chain_text op0 rest = c :: t /\ quiet c = true.
Proof.
  intros [H0 _]. destruct op0 as [|c t]; [discriminate|].
  exists c. pose proof (operand_quiet _ H0) as Hq. inversion Hq; subst.
  destruct rest as [|[c' op] rest]; cbn [chain_text app]; eauto.
Qed.

(** The scan of [_enclosed] over a chain, from position 0 or, when the chain
    starts with a negation sign, from position 1. *)
Lemma scan_chain op0 rest start :
  chain_ok op0 rest ->
  start = 0 \/ (start = 1 /\ exists t, chain_text op0 rest = ch "~" :: t) ->
  scan (chain_text op0 rest) start
  = (0%Z, positions 0 op0 rest, match rest with [] => true | _ => false end).
Proof.
  intros Hok Hstart.
  assert (H0 : scan (chain_text op0 rest) 0
               = (0%Z, positions 0 op0 rest,
                  match rest with [] => true | _ => false end)).
  { unfold scan. rewrite Nat.sub_0_r. cbn [skipn].
    now rewrite (fold_scan_chain _ rest op0 0 [] true Hok). }
  destruct Hstart as [->|[-> [t Ht]]]; [exact H0|].
  rewrite <- H0. unfold scan. rewrite Nat.sub_0_r. cbn [skipn].
  rewrite Ht. cbn [skipn]. rewrite indexed_cons. cbn [fold_left].
  rewrite scan_step_quiet by reflexivity.
  cbn [length]. now rewrite Nat.sub_succ, Nat.sub_0_r.
Qed.

Lemma positions_lb rest : forall off op0 p,
  In p (map fst (positions off op0 rest)) -> off + length op0 <= p.
Proof.
  induction rest as [|[c op] rest IH]; intros off op0 p H; [destruct H|].
  cbn [positions map fst] in H. destruct H as [<-|H]; [lia|].
  apply IH in H. lia.
Qed.

Lemma positions_length rest : forall off op0,
  length (positions off op0 rest) = length rest.
Proof.
  induction rest as [|[c op] rest IH]; intros off op0; [reflexivity|].
  cbn [positions length]. now rewrite IH.
Qed.

Lemma insert_sorted_least x l :
  (forall y, In y l -> x <= y) -> insert_sorted x l = x :: l.
Proof.
  destruct l as [|y l]; intros H; [reflexivity|].
  cbn [insert_sorted].
  assert (Hxy : x <= y) by (apply H; now left).
  apply Nat.leb_le in Hxy. now rewrite Hxy.
Qed.

(** The positions come out of the scan in increasing order: sorting them
    changes nothing. *)
Lemma sorted_positions rest : forall off op0,
  sorted (map fst (positions off op0 rest)) = map fst (positions off op0 rest).
Proof.
  induction rest as [|[c op] rest IH]; intros off op0; [reflexivity|].
  cbn [positions map fst]. unfold sorted in *. cbn [fold_right].
  rewrite IH. apply insert_sorted_least.
  intros y Hy. apply positions_lb in Hy. lia.
Qed.

(** A chain cut at its connective number [j]. *)
Lemma chain_text_split rest : forall op0 j,
  j < length rest ->
  chain_text op0 rest
  = chain_text op0 (firstn j rest)
    ++ fst (nth j rest (0%N, []))
    :: chain_text (snd (nth j rest (0%N, []))) (skipn (S j) rest).
Proof.
  induction rest as [|[c op] rest IH]; intros op0 j Hj; [simpl in Hj; lia|].
  destruct j as [|j].
  - reflexivity.
  - cbn [firstn chain_text nth skipn]. cbn [length] in Hj.
    rewrite (IH op j) by lia. now rewrite <- app_assoc.
Qed.

Lemma positions_nth rest : forall off op0 j,
  j < length rest ->
  nth_error (map fst (positions off op0 rest)) j
  = Some (off + length (chain_text op0 (firstn j rest))).
Proof.
  induction rest as [|[c op] rest IH]; intros off op0 j Hj; [simpl in Hj; lia|].
  destruct j as [|j].
  - reflexivity.
  - cbn [positions map fst nth_error firstn chain_text]. cbn [length] in Hj.
    rewrite IH by lia. rewrite length_app. cbn [length]. f_equal. lia.
Qed.

Lemma conn_get_positions rest : forall off op0 j,
  j < length rest ->
  conn_get (positions off op0 rest)
    (off + length (chain_text op0 (firstn j rest)))
  = Ok (fst (nth j rest (0%N, []))).
Proof.
  induction rest as [|[c op] rest IH]; intros off op0 j Hj; [simpl in Hj; lia|].
  destruct j as [|j].
  - cbn [firstn chain_text positions conn_get nth fst].
    now rewrite Nat.eqb_refl.
  - cbn [firstn chain_text positions conn_get nth]. cbn [length] in Hj.
    rewrite length_app. cbn [length].
    replace (off + (length op0 + S (length (chain_text op (firstn j rest)))) =? off + length op0)
      with false by (symmetry; apply Nat.eqb_neq; lia).
    replace (off + (length op0 + S (length (chain_text op (firstn j rest)))))
      with (off + length op0 + 1 + length (chain_text op (firstn j rest))) by lia.
    apply IH. lia.
Qed.

Lemma index_of_nat {A} (l : list A) j a :
  nth_error l j = Some a -> index l (Z.of_nat j) = Ok a.
Proof.
  intros H. unfold index.
  assert (Hj : j < length l) by (apply nth_error_Some; congruence).
  replace (Z.of_nat j <? 0)%Z with false by (symmetry; apply Z.ltb_ge; lia).
  replace ((Z.of_nat j <? 0)%Z || (Z.of_nat (length l) <=? Z.of_nat j)%Z)
    with false.
  2:{ symmetry. apply orb_false_iff. split; [apply Z.ltb_ge|apply Z.leb_gt]; lia. }
  now rewrite Nat2Z.id, H.
Qed.

Lemma left_count_bounds rest :
  rest <> [] ->
  1 <= left_count rest <= length rest
  /\ left_count rest <= length rest + 1 - left_count rest.
Proof.
  intros H. unfold left_count.
  assert (Hk : 1 <= length rest) by (destruct rest; [congruence|simpl; lia]).
  pose proof (Nat.div_mod_eq (length rest + 1) 2) as E.
  pose proof (Nat.mod_upper_bound (length rest + 1) 2) as U.
  lia.
Qed.

Lemma chain_text_groups op0 rest :
  rest <> [] ->
  chain_text op0 rest
  = left_group op0 rest ++ main_connective rest :: right_group rest.
Proof.
  intros H. pose proof (left_count_bounds rest H) as [B _].
  unfold left_group, main_connective, right_group.
  rewrite (chain_text_split rest op0 (left_count rest - 1)) at 1 by lia.
  replace (S (left_count rest - 1)) with (left_count rest) by lia.
  reflexivity.
Qed.

Lemma chain_first_group op0 rest :
  rest <> [] ->
  firstn (length (left_group op0 rest)) (chain_text op0 rest)
  = left_group op0 rest.
Proof.
  intros H. rewrite (chain_text_groups op0 rest H) at 1.
  rewrite firstn_app, Nat.sub_diag, firstn_all. cbn [firstn].
  apply app_nil_r.
Qed.

Lemma chain_rest_group op0 rest :
  rest <> [] ->
  skipn (length (left_group op0 rest) + 1) (chain_text op0 rest)
  = right_group rest.
Proof.
  intros H. rewrite (chain_text_groups op0 rest H) at 1.
  rewrite skipn_app, skipn_all2 by lia.
  replace (length (left_group op0 rest) + 1 - length (left_group op0 rest))
    with 1 by lia.
  reflexivity.
Qed.

(** [_same_scope] on the text of a chain and the connectives found in it. *)
Lemma _same_scope_chain op0 rest :
  rest <> [] ->
  _same_scope (chain_text op0 rest) (positions 0 op0 rest)
  = Ok (left_arg op0 rest ++ main_connective rest :: right_arg rest,
        length (left_arg op0 rest)).
Proof.
  intros H. pose proof (left_count_bounds rest H) as [B _].
  unfold _same_scope. rewrite sorted_positions, positions_length.
  unfold at_nat. rewrite (positions_nth rest 0 op0 0) by lia.
  cbn [bind firstn chain_text Nat.add].
  destruct (1 <? length rest) eqn:Hk.
  - apply Nat.ltb_lt in Hk. fold (left_count rest).
    replace (Z.of_nat (left_count rest) - 1)%Z
      with (Z.of_nat (left_count rest - 1)) by lia.
    rewrite (index_of_nat _ _ _ (positions_nth rest 0 op0 (left_count rest - 1) ltac:(lia))).
    cbn [bind Nat.add].
    pose proof (conn_get_positions rest 0 op0 (left_count rest - 1) ltac:(lia)) as Hcg.
    cbn [Nat.add] in Hcg. rewrite Hcg. clear Hcg.
    cbn [bind]. fold (left_group op0 rest). fold (main_connective rest).
    rewrite (chain_first_group op0 rest H), (chain_rest_group op0 rest H).
    unfold left_arg, right_arg.
    replace (1 <? length rest) with true by (symmetry; apply Nat.ltb_lt; lia).
    destruct (1 <? left_count rest); reflexivity.
  - apply Nat.ltb_ge in Hk.
    assert (Hlen : length rest = 1) by lia.
    assert (Hlc : left_count rest = 1) by (unfold left_count; rewrite Hlen; reflexivity).
    unfold left_arg, right_arg. rewrite Hlc, Hlen. cbn [Nat.ltb Nat.leb].
    rewrite (chain_text_groups op0 rest H) at 1.
    unfold left_group. rewrite Hlc. reflexivity.
Qed.

Ltac inv_bind H :=
  let x := fresh "x" in
  let E := fresh "E" in
  apply bind_Ok_inv in H; destruct H as [x [E H]].

Lemma chain_ok_firstn op0 rest j :
  chain_ok op0 rest -> chain_ok op0 (firstn j rest).
Proof.
  intros [H0 Hr]. split; [exact H0|].
  rewrite Forall_forall in *. intros x Hx. apply Hr.
  rewrite <- (firstn_skipn j rest). apply in_or_app. now left.
Qed.

Lemma chain_ok_skipn op0 rest j :
  chain_ok op0 rest -> j < length rest ->
  mem (fst (nth j rest (0%N, []))) BINARIES = true
  /\ chain_ok (snd (nth j rest (0%N, []))) (skipn (S j) rest).
Proof.
  intros [H0 Hr] Hj.
  assert (Hn : In (nth j rest (0%N, [])) rest) by (apply nth_In; exact Hj).
  rewrite Forall_forall in Hr. destruct (Hr _ Hn) as [Hc Hop].
  split; [exact Hc|]. split; [exact Hop|].
  apply Forall_forall. intros x Hx. apply Hr.
  rewrite <- (firstn_skipn (S j) rest). apply in_or_app. now right.
Qed.

Lemma left_group_ok op0 rest :
  chain_ok op0 rest -> chain_ok op0 (firstn (left_count rest - 1) rest).
Proof. intros H. now apply chain_ok_firstn. Qed.

Lemma right_group_ok op0 rest :
  chain_ok op0 rest -> rest <> [] ->
  mem (main_connective rest) BINARIES = true
  /\ chain_ok (snd (nth (left_count rest - 1) rest (0%N, [])))
       (skipn (left_count rest) rest).
Proof.
  intros Hok H. pose proof (left_count_bounds rest H) as [B _].
  replace (left_count rest) with (S (left_count rest - 1)) at 2 by lia.
  apply (chain_ok_skipn op0); [exact Hok|lia].
Qed.

Lemma index_head {A} (c : A) t : index (c :: t) 0 = Ok c.
Proof. now apply (index_of_nat (c :: t) 0 c). Qed.

Lemma _trim_long s : 5 <= length s -> _trim s = Ok s.
Proof.
  intros H. unfold _trim.
  replace (length s =? 3) with false by (symmetry; apply Nat.eqb_neq; lia).
  replace (length s =? 4) with false by (symmetry; apply Nat.eqb_neq; lia).
  reflexivity.
Qed.

Lemma _trim_no_paren c t : (c =? ch "(")%N = false -> _trim (c :: t) = Ok (c :: t).
Proof.
  intros H. unfold _trim. rewrite index_head. cbn [bind]. rewrite H.
  now destruct (_ || _).
Qed.

Lemma _trim_operand s : is_operand s = true -> _trim s = Ok s.
Proof.
  intros H. pose proof (operand_quiet _ H) as Hq.
  destruct s as [|c t]; [discriminate|]. inversion Hq; subst.
  apply _trim_no_paren. now apply quiet_parts.
Qed.

Lemma parens_length s : length (parens s) = length s + 2.
Proof. unfold parens. cbn [length]. rewrite length_app. simpl. lia. Qed.

Lemma _trim_left_arg op0 rest :
  chain_ok op0 rest -> rest <> [] -> _trim (left_arg op0 rest) = Ok (left_arg op0 rest).
Proof.
  intros Hok H. unfold left_arg, left_group.
  destruct (1 <? left_count rest) eqn:E.
  - apply Nat.ltb_lt in E. apply _trim_long. rewrite parens_length.
    pose proof (left_count_bounds rest H) as [B _].
    pose proof (chain_text_length_ge op0 _ (left_group_ok op0 rest Hok)) as L.
    rewrite length_firstn in L. lia.
  - apply Nat.ltb_ge in E. pose proof (left_count_bounds rest H) as [B _].
    replace (left_count rest - 1) with 0 by lia. cbn [firstn chain_text].
    apply _trim_operand, Hok.
Qed.

Lemma _trim_right_arg op0 rest :
  chain_ok op0 rest -> rest <> [] -> _trim (right_arg rest) = Ok (right_arg rest).
Proof.
  intros Hok H. unfold right_arg, right_group.
  destruct (right_group_ok op0 rest Hok H) as [_ Hrg].
  pose proof (left_count_bounds rest H) as [B B'].
  destruct (1 <? length rest) eqn:E.
  - apply Nat.ltb_lt in E. apply _trim_long. rewrite parens_length.
    pose proof (chain_text_length_ge _ _ Hrg) as L.
    rewrite length_skipn in L. lia.
  - apply Nat.ltb_ge in E.
    rewrite skipn_all2 by lia. cbn [chain_text].
    apply _trim_operand, Hrg.
Qed.

(** [_untrim] looks at its argument from position 0 and so never reaches
    the parser. *)
Lemma _untrim_total parse arg :
  arg <> [] -> exists u, _untrim parse arg = Ok u.
Proof.
  destruct arg as [|c t]; [congruence|]. intros _.
  unfold _untrim. rewrite index_head. cbn [bind].
  destruct (negb (c =? ch "~")%N && (2 <? length (c :: t))); [eauto|].
  unfold _enclosed. destruct (scan (c :: t) 0) as [[d cs] e].
  cbn [Nat.eqb andb bind]. destruct e; eauto.
Qed.

Lemma _untrim_parser p1 p2 arg : _untrim p1 arg = _untrim p2 arg.
Proof.
  unfold _untrim, _enclosed. destruct (scan arg 0) as [[d cs] e].
  reflexivity.
Qed.

Lemma _setup_inl s sym : _setup s = Ok (inl sym) -> sym_formula sym <> [].
Proof.
  unfold _setup. destruct (length s =? 1).
  - destruct s; [discriminate|]. intros H. injection H as <-. discriminate.
  - destruct (index s 0); discriminate.
Qed.

Lemma _enclosed_inl parse s start sym :
  _enclosed parse s start = Ok (inl sym) -> sym_formula sym <> [].
Proof.
  unfold _enclosed. destruct (scan s start) as [[d cs] e].
  destruct ((start =? 1) && e); [|discriminate].
  intros H. inv_bind H. injection H as <-. discriminate.
Qed.

Lemma _parse_formula_nonempty fuel : forall s r,
  _parse fuel s = Ok r -> sym_formula r <> [].
Proof.
  induction fuel as [|fuel IH]; intros s r H; [discriminate|].
  cbn [_parse] in H. inv_bind H.
  destruct x as [sym|start].
  - injection H as <-. eapply _setup_inl; eassumption.
  - inv_bind H. destruct x as [sym|[enclosed cs]].
    + injection H as <-. eapply _enclosed_inl; eassumption.
    + destruct ((start =? 0) && enclosed); [eapply IH; eassumption|].
      inv_bind H. destruct x as [f mc_pos].
      repeat inv_bind H. injection H as <-. cbn [sym_formula].
      intros Hnil. apply app_eq_nil in Hnil. destruct Hnil as [_ Hnil].
      discriminate.
Qed.

Lemma _setup_long s :
  2 <= length s ->
  exists c t, s = c :: t
              /\ _setup s = Ok (inr (if (c =? ch "~")%N then 1 else 0)).
Proof.
  intros H. destruct s as [|c t]; [simpl in H; lia|].
  exists c, t. split; [reflexivity|]. unfold _setup.
  replace (length (c :: t) =? 1) with false
    by (symmetry; apply Nat.eqb_neq; simpl in *; lia).
  now rewrite index_head.
Qed.

(** One call of the parser on a chain splits it at the connective that
    follows the left group and recurses on the two groups. *)
Lemma _parse_chain_step fuel op0 rest a1 a2 :
  chain_ok op0 rest -> rest <> [] ->
  _parse fuel (left_arg op0 rest) = Ok a1 ->
  _parse fuel (right_arg rest) = Ok a2 ->
  exists f,
    _parse (S fuel) (chain_text op0 rest)
    = Ok (Sym (main_connective rest) (Some a1) (Some a2) f).
Proof.
  intros Hok H H1 H2.
  pose proof (chain_text_length_ge op0 rest Hok) as Hlen.
  assert (Hk : 1 <= length rest) by (destruct rest; [congruence|simpl; lia]).
  destruct (_setup_long (chain_text op0 rest) ltac:(lia)) as (c & t & Hct & Hs).
  cbn [_parse]. rewrite Hs. cbn [bind].
  set (start := if (c =? ch "~")%N then 1 else 0).
  assert (Hscan : scan (chain_text op0 rest) start
                  = (0%Z, positions 0 op0 rest, false)).
  { rewrite (scan_chain op0 rest start Hok); [now destruct rest|].
    subst start. destruct (c =? ch "~")%N eqn:E; [right|now left].
    apply N.eqb_eq in E. subst c. split; [reflexivity|eauto]. }
  unfold _enclosed at 1. rewrite Hscan. rewrite !andb_false_r. cbn [bind].
  rewrite (_same_scope_chain op0 rest H). cbn [bind].
  unfold at_nat. rewrite nth_error_app2, Nat.sub_diag by lia.
  cbn [nth_error bind].
  rewrite firstn_app, Nat.sub_diag, firstn_all. cbn [firstn]. rewrite app_nil_r.
  rewrite skipn_app, skipn_all2 by lia.
  replace (length (left_arg op0 rest) + 1 - length (left_arg op0 rest)) with 1 by lia.
  cbn [skipn app].
  rewrite (_trim_left_arg op0 rest Hok H). cbn [bind]. rewrite H1. cbn [bind].
  rewrite (_trim_right_arg op0 rest Hok H). cbn [bind]. rewrite H2. cbn [bind].
  destruct (_untrim_total (_parse fuel) (sym_formula a1)
              (_parse_formula_nonempty _ _ _ H1)) as [u1 Hu1].
  rewrite Hu1. cbn [bind].
  destruct (negb (symb a2 =? main_connective rest)%N).
  - destruct (_untrim_total (_parse fuel) (sym_formula a2)
                (_parse_formula_nonempty _ _ _ H2)) as [u2 Hu2].
    rewrite Hu2. cbn [bind]. rewrite andb_false_r. eexists. reflexivity.
  - cbn [bind]. rewrite andb_false_r. eexists. reflexivity.
Qed.

Lemma fold_scan_deep n t : forall s d acc e,
  Forall (fun c => (c =? ch "(")%N = false /\ (c =? ch ")")%N = false) t ->
  d <> 0%Z ->
  fold_left (scan_step n) (combine (seq s (length t)) t) (d, acc, e)
  = (d, acc, e).
Proof.
  induction t as [|c t IH]; intros s d acc e H Hd; [reflexivity|].
  apply Forall_cons_iff in H. destruct H as [[H1 H2] H].
  rewrite indexed_cons. cbn [fold_left].
  rewrite scan_step_deep by assumption. now apply IH.
Qed.

Lemma chain_no_paren rest : forall op0,
  chain_ok op0 rest ->
  Forall (fun c => (c =? ch "(")%N = false /\ (c =? ch ")")%N = false)
    (chain_text op0 rest).
Proof.
  assert (Hop : forall op, is_operand op = true ->
            Forall (fun c => (c =? ch "(")%N = false /\ (c =? ch ")")%N = false) op).
  { intros op H. apply operand_quiet in H. rewrite Forall_forall in *.
    intros c Hc. specialize (H c Hc). apply quiet_parts in H. tauto. }
  induction rest as [|[c op] rest IH]; intros op0 [H0 Hr].
  - now apply Hop.
  - apply Forall_cons_iff in Hr. destruct Hr as [[Hc Hop'] Hr].
    cbn [chain_text fst snd] in *. apply Forall_app. split; [now apply Hop|].
    constructor; [now apply binary_not_paren|].
    apply IH. now split.
Qed.

Lemma inner_parens (s : str) : inner (parens s) = s.
Proof.
  unfold inner. rewrite parens_length. unfold parens. cbn [skipn].
  replace (length s + 2 - 2) with (length s) by lia.
  rewrite firstn_app, Nat.sub_diag, firstn_all. cbn [firstn]. apply app_nil_r.
Qed.

Lemma scan_parens s :
  Forall (fun c => (c =? ch "(")%N = false /\ (c =? ch ")")%N = false) s ->
  scan (parens s) 0 = (0%Z, [], true).
Proof.
  intros H. unfold scan. rewrite Nat.sub_0_r. cbn [skipn].
  unfold parens at 2 3. rewrite indexed_cons. cbn [fold_left].
  change (scan_step (length (parens s)) (0%Z, [], true) (0, ch "("))
    with (1%Z, @nil (nat * char), true).
  rewrite indexed_app, fold_left_app.
  rewrite (fold_scan_deep _ s) by (assumption || discriminate).
  cbn [length combine seq fold_left]. unfold scan_step.
  cbn [N.eqb ch N_of_ascii]. 
  change ((N_of_ascii ")" =? N_of_ascii "(")%N) with false.
  change ((N_of_ascii ")" =? N_of_ascii ")")%N) with true.
  change (mem (N_of_ascii ")") BINARIES) with false.
  cbn [Z.sub Z.add Z.opp Z.pos_sub Z.eqb].
  now rewrite andb_false_r.
Qed.

(** A chain in parentheses: the parser strips them and starts again. *)
Lemma _parse_parens fuel s :
  Forall (fun c => (c =? ch "(")%N = false /\ (c =? ch ")")%N = false) s ->
  _parse (S fuel) (parens s) = _parse fuel s.
Proof.
  intros H. cbn [_parse].
  destruct (_setup_long (parens s) ltac:(rewrite parens_length; lia))
    as (c & t & Hct & Hs).
  rewrite Hs. unfold parens in Hct. injection Hct as <- _.
  change ((40 =? ch "~")%N) with false. cbn [bind].
  unfold _enclosed. rewrite (scan_parens s H). cbn [Nat.eqb andb bind].
  now rewrite inner_parens.
Qed.

Lemma _enclosed_mono (p1 p2 : str -> result Symbol) s start x :
  (forall t r, p1 t = Ok r -> p2 t = Ok r) ->
  _enclosed p1 s start = Ok x -> _enclosed p2 s start = Ok x.
Proof.
  intros Hp. unfold _enclosed. destruct (scan s start) as [[d cs] e].
  destruct ((start =? 1) && e); [|auto].
  intros H. inv_bind H. rewrite (Hp _ _ E). exact H.
Qed.

(** More fuel does not change an answer. *)
Lemma _parse_mono_step fuel : forall s r,
  _parse fuel s = Ok r -> _parse (S fuel) s = Ok r.
Proof.
  induction fuel as [|fuel IH]; intros s r H; [discriminate|].
  remember (S fuel) as f1 eqn:Ef. rewrite Ef in H. cbn [_parse] in H |- *.
  inv_bind H. rewrite E. cbn [bind]. destruct x as [sym|start]; [exact H|].
  inv_bind H. rewrite (_enclosed_mono _ (_parse f1) _ _ _ IH E0). cbn [bind].
  destruct x as [sym|[enclosed cs]]; [exact H|].
  destruct ((start =? 0) && enclosed); [now apply IH|].
  inv_bind H. rewrite E1. cbn [bind]. destruct x as [f mc_pos].
  inv_bind H. rewrite E2. cbn [bind].
  inv_bind H. rewrite E3. cbn [bind].
  inv_bind H. rewrite (IH _ _ E4). cbn [bind].
  inv_bind H. rewrite E5. cbn [bind].
  inv_bind H. rewrite (IH _ _ E6). cbn [bind].
  inv_bind H. rewrite (_untrim_parser (_parse f1) (_parse fuel)), E7. cbn [bind].
  inv_bind H. rewrite (_untrim_parser (_parse f1) (_parse fuel)), E8. cbn [bind].
  exact H.
Qed.

Lemma _parse_mono fuel fuel' s r :
  fuel <= fuel' -> _parse fuel s = Ok r -> _parse fuel' s = Ok r.
Proof.
  induction 1 as [|m Hle IH]; intros H; [exact H|].
  apply _parse_mono_step, IH, H.
Qed.

(** An operand parses, with as much fuel as it has characters. *)
Lemma _parse_operand s :
  is_operand s = true -> exists r, _parse (length s) s = Ok r.
Proof.
  induction s as [|c s IH]; [discriminate|].
  destruct s as [|d s'].
  - intros _. eexists. reflexivity.
  - intros H. pose proof H as Hop.
    change (((c =? ch "~")%N && is_operand (d :: s')) = true) in H.
    apply andb_true_iff in H. destruct H as [Hc Hs].
    apply N.eqb_eq in Hc. subst c.
    destruct (IH Hs) as [neg Hneg].
    change (length (ch "~" :: d :: s')) with (S (length (d :: s'))).
    cbn [_parse].
    destruct (_setup_long (ch "~" :: d :: s') ltac:(simpl; lia))
      as (c & t & Hct & Hsetup).
    rewrite Hsetup. injection Hct as <- _. rewrite N.eqb_refl. cbn [bind].
    unfold _enclosed.
    pose proof (scan_chain (ch "~" :: d :: s') [] 1 (conj Hop (Forall_nil _))) as Hscan.
    cbn [chain_text positions] in Hscan.
    rewrite Hscan by (right; split; [reflexivity|eauto]).
    cbn [Nat.eqb andb skipn]. rewrite Hneg. cbn [bind]. eexists. reflexivity.
Qed.

(** The step from the two groups to the chain, for every large enough fuel. *)
Lemma _parse_chain_from_groups op0 rest fL fR :
  chain_ok op0 rest -> rest <> [] ->
  (forall fuel, fL <= fuel -> exists a1, _parse fuel (left_group op0 rest) = Ok a1) ->
  (forall fuel, fR <= fuel -> exists a2, _parse fuel (right_group rest) = Ok a2) ->
  forall fuel, S (S (Nat.max fL fR)) <= fuel ->
  exists a1 a2 f,
    _parse fuel (chain_text op0 rest)
    = Ok (Sym (main_connective rest) (Some a1) (Some a2) f)
    /\ _parse fuel (left_group op0 rest) = Ok a1
    /\ _parse fuel (right_group rest) = Ok a2.
Proof.
  intros Hok H HL HR fuel Hfuel.
  destruct fuel as [|[|f]]; try lia.
  destruct (HL f ltac:(lia)) as [a1 H1].
  destruct (HR f ltac:(lia)) as [a2 H2].
  destruct (right_group_ok op0 rest Hok H) as [_ Hrg].
  assert (H1' : _parse (S f) (left_arg op0 rest) = Ok a1).
  { unfold left_arg. destruct (1 <? left_count rest).
    - rewrite _parse_parens; [exact H1|].
      apply chain_no_paren, left_group_ok, Hok.
    - now apply _parse_mono_step. }
  assert (H2' : _parse (S f) (right_arg rest) = Ok a2).
  { unfold right_arg. destruct (1 <? length rest).
    - rewrite _parse_parens; [exact H2|].
      apply chain_no_paren, Hrg.
    - now apply _parse_mono_step. }
  destruct (_parse_chain_step (S f) op0 rest a1 a2 Hok H H1' H2') as [fm Hfm].
  exists a1, a2, fm. split; [exact Hfm|].
  split; apply (_parse_mono f); (lia || assumption).
Qed.

(** The parser returns on every well-formed chain. *)
Lemma _parse_chain_total n : forall op0 rest,
  length rest < n -> chain_ok op0 rest ->
  exists fuel0, forall fuel, fuel0 <= fuel ->
    exists r, _parse fuel (chain_text op0 rest) = Ok r.
Proof.
  induction n as [|n IH]; intros op0 rest Hn Hok; [lia|].
  destruct rest as [|co rest'] eqn:Erest.
  - destruct (_parse_operand op0 (proj1 Hok)) as [r Hr].
    exists (length op0). intros fuel Hf. exists r.
    now apply (_parse_mono (length op0)).
  - rewrite <- Erest in *.
    assert (H : rest <> []) by (rewrite Erest; discriminate).
    pose proof (left_count_bounds rest H) as [B B'].
    destruct (right_group_ok op0 rest Hok H) as [_ Hrg].
    destruct (IH op0 (firstn (left_count rest - 1) rest)) as [fL HL].
    { rewrite length_firstn. lia. }
    { apply left_group_ok, Hok. }
    destruct (IH _ (skipn (left_count rest) rest)
                ltac:(rewrite length_skipn; lia) Hrg) as [fR HR].
    exists (S (S (Nat.max fL fR))). intros fuel Hf.
    destruct (_parse_chain_from_groups op0 rest fL fR Hok H HL HR fuel Hf)
      as (a1 & a2 & f & Hp & _).
    eauto.
Qed.

(** C2. On an unparenthesized chain of [k >= 1] binary connectives over
    [k + 1] operands the parser returns, for every large enough fuel, a node
    whose symbol is the connective that follows the first [(k + 1) / 2]
    operands, whose left child is what the parser makes of those operands
    (the left group) and whose right child is what it makes of the remaining
    operands (the right group); the right group is never the smaller one.
    In particular [PvQvR] parses as P v (Q v R) and [PvQvRvS] as
    (P v Q) v (R v S). *)
Theorem C2_balanced_grouping : forall op0 rest,
  chain_ok op0 rest -> rest <> [] ->
  let k := length rest in
  left_count rest = (k + 1) / 2
  /\ length (firstn (left_count rest - 1) rest) + 1 = left_count rest
  /\ length (skipn (left_count rest) rest) + 1 = k + 1 - left_count rest
  /\ left_count rest <= k + 1 - left_count rest
  /\ chain_text op0 rest
     = left_group op0 rest ++ main_connective rest :: right_group rest
  /\ (exists fuel0, forall fuel, fuel0 <= fuel ->
        exists a1 a2 f,
          _parse fuel (chain_text op0 rest)
          = Ok (Sym (main_connective rest) (Some a1) (Some a2) f)
          /\ _parse fuel (left_group op0 rest) = Ok a1
          /\ _parse fuel (right_group rest) = Ok a2)
  /\ (forall n,
        _parse (4 + n) (py "PvQvR")
        = Ok (node "v" (leaf "P") (node "v" (leaf "Q") (leaf "R") "QvR") "PvQvR"))
  /\ (forall n,
        _parse (4 + n) (py "PvQvRvS")
        = Ok (node "v" (node "v" (leaf "P") (leaf "Q") "PvQ")
                (node "v" (leaf "R") (leaf "S") "RvS") "(PvQ)vRvS")).
Proof.
  intros op0 rest Hok H k. subst k.
  pose proof (left_count_bounds rest H) as [B B'].
  destruct (right_group_ok op0 rest Hok H) as [_ Hrg].
  split; [reflexivity|].
  split; [rewrite length_firstn; lia|].
  split; [rewrite length_skipn; lia|].
  split; [exact B'|].
  split; [exact (chain_text_groups op0 rest H)|].
  split.
  - destruct (_parse_chain_total (length rest) op0
                (firstn (left_count rest - 1) rest)) as [fL HL].
    { rewrite length_firstn. lia. }
    { apply left_group_ok, Hok. }
    destruct (_parse_chain_total (length rest) _ (skipn (left_count rest) rest)
                ltac:(rewrite length_skipn; lia) Hrg) as [fR HR].
    exists (S (S (Nat.max fL fR))).
    exact (_parse_chain_from_groups op0 rest fL fR Hok H HL HR).
  - split; intros n; cbn [Nat.add]; vm_compute; reflexivity.
Qed.

Lemma C2_balanced_grouping_witness :
  chain_ok (py "P") [(ch "v", py "Q"); (ch "&", py "~R")]
  /\ exists fuel0, forall fuel, fuel0 <= fuel ->
       exists a1 a2 f,
         _parse fuel (py "PvQ&~R") = Ok (Sym (ch "v") (Some a1) (Some a2) f)
         /\ _parse fuel (py "P") = Ok a1
         /\ _parse fuel (py "Q&~R") = Ok a2.
Proof.
  assert (Hok : chain_ok (py "P") [(ch "v", py "Q"); (ch "&", py "~R")]).
  { split; [reflexivity|]. repeat constructor. }
  split; [exact Hok|].
  exact (proj1 (proj2 (proj2 (proj2 (proj2 (proj2
           (C2_balanced_grouping (py "P") [(ch "v", py "Q"); (ch "&", py "~R")]
              Hok ltac:(discriminate)))))))).
Defined.

(** * Further properties of the code *)

(** ** The ledger: shape, bounds, visibility *)



Lemma mapM_length {A B} (f : A -> result B) l l' :
  mapM f l = Ok l' -> length l' = length l.
Proof.
  revert l'. induction l as [|a l IH]; intros l' H.
  - injection H as <-. reflexivity.
  - cbn [mapM] in H. inv_bind H. inv_bind H. injection H as <-.
    cbn [length]. f_equal. now apply IH.
Qed.

Lemma Proof_init_shape : forall fuel prem p,
  Proof_init fuel prem = Ok p ->
  ledger_ok p
  /\ length (theorems p) = length prem
  /\ theorems p = map Some (premises p)
  /\ indents p = repeat 0%Z (length prem)
  /\ accesses p = repeat 1%Z (length prem)
  /\ Forall (fun r => name r = py "Premise" /\ arguments r = ArgsNone) (rules p).
Proof.
  intros fuel prem p H. unfold Proof_init in H. inv_bind H.
  injection H as <-. apply mapM_length in E.
  cbn [ledger_ok theorems premises rules indents accesses]. unfold ledger_ok.
  cbn [theorems premises rules indents accesses].
  rewrite !length_map. rewrite <- E.
  assert (R : forall (A : Type) (z : Z) (l : list A),
             map (fun _ => z) l = repeat z (length l)).
  { intros A z l. induction l; simpl; congruence. }
  repeat split; auto.
  apply Forall_forall. intros r Hr. apply in_map_iff in Hr.
  destruct Hr as (s & <- & _). split; reflexivity.
Qed.

(** A new ledger holds its premises and nothing else: one line per premise,
    at depth 0, with scope code 1, and the four lists are of one length. *)
Theorem Proof_init_ledger : forall fuel prem p,
  Proof_init fuel prem = Ok p ->
  ledger_ok p
  /\ length (theorems p) = length prem
  /\ theorems p = map Some (premises p)
  /\ indents p = repeat 0%Z (length prem)
  /\ accesses p = repeat 1%Z (length prem)
  /\ Forall (fun r => name r = py "Premise" /\ arguments r = ArgsNone) (rules p).
Proof. exact Proof_init_shape. Qed.

Lemma Proof_init_ledger_witness :
  exists p,
    Proof_init 3 [inl (py "P>Q"); inl (py "P")] = Ok p
    /\ ledger_ok p /\ indents p = [0; 0]%Z /\ accesses p = [1; 1]%Z.
Proof.
  eexists.
  match goal with
  | |- ?init = Ok ?x /\ _ =>
      assert (Hi : init = Ok x) by (vm_compute; reflexivity)
  end.
  split; [exact Hi|].
  pose proof (Proof_init_ledger _ _ _ Hi) as (H1 & _ & _ & H2 & H3 & _).
  repeat split; assumption.
Defined.



Lemma starts_with_refl s : starts_with s s = true.
Proof.
  induction s as [|c s IH]; [reflexivity|].
  cbn [starts_with]. now rewrite N.eqb_refl, IH.
Qed.

Lemma index_nth {A} (l : list A) (i : Z) (d : A) :
  (0 <= i < Z.of_nat (length l))%Z -> index l i = Ok (nth (Z.to_nat i) l d).
Proof.
  intros H. rewrite <- (Z2Nat.id i) at 1 by lia.
  apply index_of_nat. apply nth_error_nth'. lia.
Qed.

Lemma index_out_of_range {A} (l : list A) (i : Z) :
  (Z.of_nat (length l) <= i)%Z -> index l i = Raise IndexError.
Proof.
  intros H. unfold index.
  replace (i <? 0)%Z with false by (symmetry; apply Z.ltb_ge; lia).
  replace (Z.of_nat (length l) <=? i)%Z with true by (symmetry; apply Z.leb_le; lia).
  now rewrite orb_true_r.
Qed.

Lemma index_last {A} (l : list A) (d : A) :
  l <> [] -> index l (-1) = Ok (nth (length l - 1) l d).
Proof.
  intros H. assert (Hl : 1 <= length l) by (destruct l; [congruence|simpl; lia]).
  unfold index. cbn [Z.ltb Z.compare].
  replace ((-1 + Z.of_nat (length l) <? 0)%Z) with false
    by (symmetry; apply Z.ltb_ge; lia).
  replace ((Z.of_nat (length l) <=? -1 + Z.of_nat (length l))%Z) with false
    by (symmetry; apply Z.leb_gt; lia).
  cbn [orb].
  replace (Z.to_nat (-1 + Z.of_nat (length l))) with (length l - 1) by lia.
  rewrite (nth_error_nth' l d) by lia. reflexivity.
Qed.

Lemma Proof_index_range p B :
  In B (Proof_index p) <-> (1 <= B <= Proof_len p)%Z.
Proof.
  unfold Proof_index, Proof_len, len. rewrite in_map_iff. split.
  - intros (i & <- & Hi). apply in_seq in Hi. lia.
  - intros H. exists (Z.to_nat B). split; [lia|]. apply in_seq. lia.
Qed.

(** The generator run from a line whose scope code is [a]. *)
Lemma accessible_from_code p A a idx :
  ledger_ok p ->
  index (accesses p)
    ((if (A =? Proof_len p + 1)%Z then A - 1 else A) - 1)%Z = Ok a ->
  (forall B, In B idx -> (1 <= B <= Proof_len p)%Z) ->
  accessible_from p A idx
  = Ok (map (fun B => (theorem_at p B, B))
          (filter (fun B => starts_with (str_of_int a) (str_of_int (code_at p B)))
             idx)).
Proof.
  intros (Hr & Hi & Ha) HA. induction idx as [|B idx IH]; intros Hidx.
  - reflexivity.
  - cbn [accessible_from filter].
    assert (HB : (1 <= B <= Proof_len p)%Z) by (apply Hidx; now left).
    unfold Proof_len, len in HB.
    unfold accessible_step, _can_access. rewrite HA. cbn [bind].
    rewrite (index_nth (accesses p) (B - 1) 0%Z) by lia. cbn [bind].
    fold (code_at p B).
    rewrite IH by (intros B' HB'; apply Hidx; now right). cbn [bind].
    destruct (starts_with (str_of_int a) (str_of_int (code_at p B))).
    + unfold getitem. rewrite (index_nth (theorems p) (B - 1) None) by lia.
      reflexivity.
    + reflexivity.
Qed.

Lemma accessible_filter : forall p A,
  ledger_ok p -> (1 <= A <= Proof_len p + 1)%Z ->
  accessible p A
  = Ok (map (fun B => (theorem_at p B, B))
          (filter (visible_from p (Z.min A (Proof_len p))) (Proof_index p)))
  /\ ((A <= Proof_len p)%Z ->
      exists l, accessible p A = Ok l /\ In (theorem_at p A, A) l).
Proof.
  intros p A Hok HA.
  assert (Hmain : accessible p A
    = Ok (map (fun B => (theorem_at p B, B))
            (filter (visible_from p (Z.min A (Proof_len p))) (Proof_index p)))).
  { unfold accessible.
    destruct (Proof_index p) as [|B0 idx0] eqn:Eidx; [reflexivity|].
    rewrite <- Eidx.
    assert (Hlen : (1 <= Proof_len p)%Z).
    { assert (In B0 (Proof_index p)) by (rewrite Eidx; now left).
      apply Proof_index_range in H. lia. }
    apply accessible_from_code; [exact Hok| |intros B; apply Proof_index_range].
    destruct Hok as (_ & _ & Ha). unfold Proof_len, len in *.
    destruct (A =? Z.of_nat (length (theorems p)) + 1)%Z eqn:E.
    - apply Z.eqb_eq in E.
      rewrite (index_nth (accesses p) _ 0%Z) by lia.
      unfold code_at. do 3 f_equal. lia.
    - apply Z.eqb_neq in E.
      rewrite (index_nth (accesses p) _ 0%Z) by lia.
      unfold code_at. do 3 f_equal. lia. }
  split; [exact Hmain|].
  intros HA'. eexists. split; [exact Hmain|].
  apply in_map_iff. exists A. split; [reflexivity|].
  apply filter_In. split; [apply Proof_index_range; lia|].
  unfold visible_from. rewrite Z.min_l by lia. apply starts_with_refl.
Qed.

(** [Proof.accessible] on a ledger with one entry per line, looking from a
    line of the ledger or from the line after the last (which counts as the
    last): it raises nothing and yields, in ledger order, exactly the lines
    whose scope code, written in decimal, is a prefix of the scope code of
    the line looked from, each with its theorem.  A line always sees
    itself. *)
Theorem accessible_is_prefix_filter : forall p A,
  ledger_ok p -> (1 <= A <= Proof_len p + 1)%Z ->
  accessible p A
  = Ok (map (fun B => (theorem_at p B, B))
          (filter (visible_from p (Z.min A (Proof_len p))) (Proof_index p)))
  /\ ((A <= Proof_len p)%Z ->
      exists l, accessible p A = Ok l /\ In (theorem_at p A, A) l).
Proof. exact accessible_filter. Qed.

Lemma accessible_is_prefix_filter_witness :
  exists p l,
    nested_boxes 3 = Ok p /\ ledger_ok p
    /\ accessible p 6 = Ok l /\ map snd l = [1; 5; 6]%Z.
Proof.
  do 2 eexists.
  match goal with
  | |- ?nb = Ok ?x /\ _ =>
      assert (Hp : nb = Ok x) by (vm_compute; reflexivity)
  end.
  split; [exact Hp|].
  match goal with
  | |- ledger_ok ?x /\ _ =>
      assert (Hok : ledger_ok x) by (repeat split)
  end.
  split; [exact Hok|].
  destruct (accessible_is_prefix_filter _ 6 Hok ltac:(vm_compute; split; discriminate))
    as [H _].
  split; [exact H|]. vm_compute. reflexivity.
Defined.

(** Looking from outside the ledger.  Two past the last line and beyond,
    [accessible] raises [IndexError]; from line 0 it behaves as from the
    last line (the index [-1] wraps around), and so it does from the line
    after the last. *)
Theorem accessible_out_of_range : forall p A,
  ledger_ok p -> theorems p <> [] ->
  ((Proof_len p + 1 < A)%Z -> accessible p A = Raise IndexError)
  /\ accessible p 0 = accessible p (Proof_len p)
  /\ accessible p (Proof_len p + 1) = accessible p (Proof_len p).
Proof.
  intros p A Hok Hne.
  assert (Hlen : (1 <= Proof_len p)%Z).
  { unfold Proof_len, len. destruct (theorems p); [congruence|simpl; lia]. }
  pose proof Hok as (_ & _ & Ha).
  split; [|split].
  - intros HA. unfold accessible, Proof_index.
    destruct (theorems p) as [|t ts] eqn:Et; [congruence|].
    cbn [length seq map accessible_from].
    unfold accessible_step, _can_access.
    replace (A =? Proof_len p + 1)%Z with false
      by (symmetry; apply Z.eqb_neq; lia).
    rewrite index_out_of_range; [reflexivity|].
    unfold Proof_len, len in HA. rewrite Et in HA. rewrite Ha. lia.
  - destruct (accessible_filter p (Proof_len p) Hok ltac:(lia)) as [-> _].
    unfold accessible.
    rewrite (accessible_from_code p 0 (code_at p (Proof_len p)) _ Hok).
    + now rewrite Z.min_id.
    + replace (0 =? Proof_len p + 1)%Z with false
        by (symmetry; apply Z.eqb_neq; lia).
      change (0 - 1)%Z with (-1)%Z.
      rewrite (index_last (accesses p) 0%Z).
      2:{ intros E. rewrite E in Ha. unfold Proof_len, len in Hlen.
          simpl in Ha. lia. }
      unfold code_at, Proof_len, len. do 2 f_equal. lia.
    + intros B. apply Proof_index_range.
  - destruct (accessible_filter p (Proof_len p) Hok ltac:(lia)) as [-> _].
    destruct (accessible_filter p (Proof_len p + 1) Hok ltac:(lia)) as [-> _].
    now rewrite Z.min_id, Z.min_r by lia.
Qed.

Lemma accessible_out_of_range_witness :
  exists p,
    nested_boxes 3 = Ok p
    /\ accessible p 9 = Raise IndexError
    /\ accessible p 0 = accessible p 7
    /\ accessible p 8 = accessible p 7.
Proof.
  eexists.
  match goal with
  | |- ?nb = Ok ?x /\ _ =>
      assert (Hp : nb = Ok x) by (vm_compute; reflexivity)
  end.
  split; [exact Hp|].
  match type of Hp with
  | _ = Ok ?x =>
      assert (Hok : ledger_ok x) by (repeat split);
      destruct (accessible_out_of_range x 9 Hok ltac:(discriminate))
        as (H1 & H2 & H3)
  end.
  split; [apply H1; reflexivity|]. split; [exact H2|exact H3].
Defined.

(** ** Rules that cannot be applied *)

Ltac eval_rule_tests :=
  repeat match goal with
         | |- context [rule_is (py ?r) ?n] =>
             let b := eval vm_compute in (rule_is (py r) n) in
             change (rule_is (py r) n) with b
         end;
  cbv iota.

Lemma index_answers {A} (l : list A) i : index l i <> OutOfFuel.
Proof.
  unfold index.
  destruct ((_ <? 0)%Z || _); [discriminate|].
  destruct (nth_error l _); discriminate.
Qed.

Lemma indent_answers p : indent p <> OutOfFuel.
Proof.
  unfold indent. destruct (Proof_len p =? 0)%Z; [discriminate|].
  apply index_answers.
Qed.

Lemma item_lt_answers a b : item_lt a b <> OutOfFuel.
Proof. destruct a, b; discriminate. Qed.

Lemma min_from_answers l : forall m, min_from m l <> OutOfFuel.
Proof.
  induction l as [|x l IH]; intros m; [discriminate|].
  cbn [min_from]. destruct (item_lt x m) as [c|e|] eqn:E; cbn [bind].
  - apply IH.
  - discriminate.
  - now apply item_lt_answers in E.
Qed.

Lemma py_min_answers lines : py_min lines <> OutOfFuel.
Proof.
  destruct lines as [| |[|x l]]; try discriminate. apply min_from_answers.
Qed.

Lemma lines_at_answers lines i : lines_at lines i <> OutOfFuel.
Proof. destruct lines; try discriminate. apply index_answers. Qed.

(** Conditional introduction never produces a line.  The rule's argument
    text subscripts the type [str], so [Rule.apply('>I', ...)] raises on
    every ledger and every [lines], and [Proof.append('>I', ...)] never
    returns. *)
Theorem cond_intro_never_returns : forall fuel p lines fl,
  (forall other, exists e,
      snd (Rule_apply (py ">I") p lines other fl) = Raise e)
  /\ (forall other p', snd (append fuel p (py ">I") lines other fl) <> Ok p').
Proof.
  intros fuel p lines fl.
  assert (H : forall other, exists e,
             snd (Rule_apply (py ">I") p lines other fl) = Raise e).
  { intros other. unfold Rule_apply. cbn [snd]. eval_rule_tests.
    destruct (indent p) as [i|e|] eqn:Hind; cbn [bind];
      [|eauto|now apply indent_answers in Hind].
    match goal with
    | |- context [py_min ?l] => destruct (py_min l) as [lo|e|] eqn:Hmin
    end; cbn [bind]; [|eauto|now apply py_min_answers in Hmin].
    match goal with
    | |- context [lines_at ?l ?i] => destruct (lines_at l i) as [it|e|] eqn:Hat
    end; cbn [bind]; [|eauto|now apply lines_at_answers in Hat].
    destruct it as [z|[|z l]]; eauto. }
  split; [exact H|].
  intros other p'. unfold append.
  destruct (match other with
            | OStr text => s <- Sentence_of_text fuel text;; Ok (Some s)
            | OObj o => Ok o
            end) as [o| |]; cbn [snd]; try discriminate.
  destruct (H o) as [e He].
  destruct (Rule_apply (py ">I") p lines o fl) as [lines' r].
  cbn [snd] in *. rewrite He. discriminate.
Qed.

(** A rule name that [Rule.apply] does not know makes it return [None];
    [Proof.append] then fails to unpack the result and raises [TypeError],
    leaving no line behind. *)
Theorem unknown_rule_raises : forall fuel p rule lines other fl,
  ledger_ok p ->
  forallb (fun n => negb (rule_is rule n)) rule_names = true ->
  snd (Rule_apply rule p lines other fl) = Ok None
  /\ snd (append fuel p rule lines (OObj other) fl) = Raise TypeError.
Proof.
  intros fuel p rule lines other fl Hok Hun.
  assert (Hind : exists i, indent p = Ok i).
  { unfold indent. destruct (Proof_len p =? 0)%Z eqn:E; [eauto|].
    apply Z.eqb_neq in E. destruct Hok as (_ & Hi & _).
    unfold last_item. rewrite (index_last (indents p) 0%Z); [eauto|].
    intros En. rewrite En in Hi. unfold Proof_len, len in E.
    simpl in Hi. lia. }
  destruct Hind as [i Hi].
  unfold rule_names in Hun. cbn [forallb] in Hun.
  repeat match type of Hun with
         | (_ && _) = true =>
             let H1 := fresh "Hn" in
             apply andb_true_iff in Hun; destruct Hun as [H1 Hun];
             apply negb_true_iff in H1
         end.
  clear Hun.
  assert (H : snd (Rule_apply rule p lines other fl) = Ok None).
  { unfold Rule_apply. cbn [snd]. rewrite Hi. cbn [bind].
    rewrite ?Hn, ?Hn0, ?Hn1, ?Hn2, ?Hn3, ?Hn4, ?Hn5, ?Hn6, ?Hn7, ?Hn8, ?Hn9,
      ?Hn10, ?Hn11, ?Hn12.
    reflexivity. }
  split; [exact H|].
  unfold append. destruct (Rule_apply rule p lines other fl) as [lines' r].
  cbn [snd] in *. rewrite H. reflexivity.
Qed.

Lemma unknown_rule_raises_witness :
  exists p,
    Proof_init 3 [inl (py "P")] = Ok p
    /\ snd (append 3 p (py "DeM") (LInt 1) (OObj None) true) = Raise TypeError.
Proof.
  eexists.
  match goal with
  | |- ?init = Ok ?x /\ _ =>
      assert (Hi : init = Ok x) by (vm_compute; reflexivity)
  end.
  split; [exact Hi|].
  pose proof (Proof_init_shape _ _ _ Hi) as (Hok & _).
  exact (proj2 (unknown_rule_raises 3 _ (py "DeM") (LInt 1) None true Hok eq_refl)).
Defined.

(** ** Truth functions: equality, strength, tautology *)

Lemma TruthFunction_str_total root t :
  TruthFunction_init root = Ok t -> exists s, TruthFunction_str t = Ok s.
Proof.
  intros H. apply TruthFunction_init_spec in H.
  destruct H as (Hs & _ & _ & _ & Hall).
  destruct (TruthFunction_str_agree t t eq_refl eq_refl) as (sa & _ & Hsa & _).
  - intros vals Hin. rewrite Hs. destruct (Hall vals Hin) as [b Hb]. eauto.
  - eauto.
Qed.

Lemma equivalent_laws : forall a b,
  constructed a -> constructed b ->
  equivalent a a = Ok true
  /\ equivalent a b = equivalent b a
  /\ exists e, equivalent a b = Ok e.
Proof.
  intros a b Ha Hb. apply Sentence_of_root_spec in Ha, Hb.
  destruct Ha as [_ Ha], Hb as [_ Hb].
  destruct (TruthFunction_str_total _ _ Ha) as [sa Hsa].
  destruct (TruthFunction_str_total _ _ Hb) as [sb Hsb].
  unfold equivalent, TruthFunction_eq. rewrite Hsa, Hsb. cbn [bind].
  split; [now rewrite str_eqb_eq|].
  split; [now rewrite str_eqb_sym|eauto].
Qed.

(** [equivalent] answers on any two sentences, is reflexive, and gives the
    same answer whichever sentence it is asked of. *)
Theorem equivalent_reflexive_symmetric : forall a b,
  constructed a -> constructed b ->
  equivalent a a = Ok true
  /\ equivalent a b = equivalent b a
  /\ exists e, equivalent a b = Ok e.
Proof. exact equivalent_laws. Qed.

Lemma equivalent_reflexive_symmetric_witness :
  exists a b,
    Sentence_of_text 4 (py "P>Q") = Ok a /\ Sentence_of_text 4 (py "~PvQ") = Ok b
    /\ equivalent a a = Ok true /\ equivalent a b = equivalent b a.
Proof.
  do 2 eexists.
  split; [vm_compute; reflexivity|]. split; [vm_compute; reflexivity|].
  match goal with
  | |- equivalent ?a _ = _ /\ equivalent _ ?b = _ =>
      destruct (equivalent_reflexive_symmetric a b
                  ltac:(vm_compute; reflexivity) ltac:(vm_compute; reflexivity))
        as (H1 & H2 & _)
  end.
  split; assumption.
Defined.

Lemma gt_inner_false other vals oc : gt_inner other vals oc false = Ok false.
Proof. induction oc as [|ov oc IH]; [reflexivity|exact IH]. Qed.

Lemma gt_inner_true other vals oc :
  gt_inner other vals oc true = Ok true
  <-> forall ov, In ov oc ->
        TruthFunction_call other (dict_update vals ov) = Ok true.
Proof.
  induction oc as [|ov oc IH].
  - split; [intros _ ? []|reflexivity].
  - cbn [gt_inner]. split.
    + intros H.
      destruct (TruthFunction_call other (dict_update vals ov)) as [b| |] eqn:E;
        cbn [bind] in H; try discriminate.
      destruct b; [|rewrite gt_inner_false in H; discriminate].
      intros ov' [<-|Hin]; [exact E|]. now apply IH.
    + intros H. rewrite (H ov (or_introl eq_refl)). cbn [bind].
      apply IH. intros ov' Hin. apply H. now right.
Qed.

Lemma gt_outer_true other trues oc :
  gt_outer other trues oc true = Ok true
  <-> forall vals, In vals trues -> forall ov, In ov oc ->
        TruthFunction_call other (dict_update vals ov) = Ok true.
Proof.
  induction trues as [|vals trues IH].
  - split; [intros _ ? []|reflexivity].
  - cbn [gt_outer]. split.
    + intros H.
      destruct (gt_inner other vals oc true) as [c| |] eqn:E;
        cbn [bind] in H; try discriminate.
      destruct c; cbn [negb] in H; [|discriminate].
      intros vals' [<-|Hin]; [now apply gt_inner_true|]. now apply IH.
    + intros H.
      assert (E : gt_inner other vals oc true = Ok true)
        by (apply gt_inner_true; intros ov Hov; apply H; [now left|exact Hov]).
      rewrite E. cbn [bind negb]. apply IH.
      intros vals' Hin. apply H. now right.
Qed.

(** What [self > other] computes.  It is true exactly when the two truth
    functions are not equal and every assignment that satisfies [self],
    extended in every way over the atomics that only [other] has, satisfies
    [other]. *)
Theorem gt_is_strict_entailment : forall self other,
  TruthFunction_gt self other = Ok true
  <-> TruthFunction_eq self other = Ok false
      /\ forall vals, In vals (tf_true self) ->
         forall ext,
           In ext (_canonical (filter (fun c => negb (mem c (atomics self)))
                                 (atomics other))) ->
           TruthFunction_call other (dict_update vals ext) = Ok true.
Proof.
  intros self other. unfold TruthFunction_gt. split.
  - intros H. inv_bind H. destruct x; [discriminate|].
    split; [exact E|]. now apply gt_outer_true.
  - intros [E H]. rewrite E. cbn [bind]. now apply gt_outer_true.
Qed.

(** [>=] is reflexive, [>] is irreflexive, and [>] is the part of [>=] that
    lies outside [==]. *)
Theorem ge_gt_eq_laws : forall a b,
  constructed a -> constructed b ->
  TruthFunction_ge (tf a) (tf a) = Ok true
  /\ TruthFunction_gt (tf a) (tf a) = Ok false
  /\ (TruthFunction_gt (tf a) (tf b) = Ok true ->
      TruthFunction_ge (tf a) (tf b) = Ok true
      /\ equivalent a b = Ok false)
  /\ (TruthFunction_ge (tf a) (tf b) = Ok true ->
      equivalent a b = Ok true \/ TruthFunction_gt (tf a) (tf b) = Ok true).
Proof.
  intros a b Ha Hb.
  destruct (equivalent_laws a b Ha Hb) as (Hrefl & _ & [e He]).
  unfold equivalent in *. unfold TruthFunction_ge, TruthFunction_gt.
  rewrite Hrefl. cbn [bind].
  split; [reflexivity|]. split; [reflexivity|].
  rewrite He. cbn [bind]. destruct e.
  - split; [discriminate|]. intros _. now left.
  - split; [intros H; split; [exact H|reflexivity]|]. intros H. now right.
Qed.

Lemma ge_gt_eq_laws_witness :
  exists a b,
    Sentence_of_text 4 (py "P&Q") = Ok a /\ Sentence_of_text 4 (py "PvQ") = Ok b
    /\ TruthFunction_gt (tf a) (tf b) = Ok true
    /\ TruthFunction_ge (tf a) (tf b) = Ok true
    /\ TruthFunction_gt (tf a) (tf a) = Ok false.
Proof.
  do 2 eexists.
  split; [vm_compute; reflexivity|]. split; [vm_compute; reflexivity|].
  match goal with
  | |- TruthFunction_gt (tf ?a) (tf ?b) = _ /\ _ =>
      destruct (ge_gt_eq_laws a b
                  ltac:(vm_compute; reflexivity) ltac:(vm_compute; reflexivity))
        as (_ & H2 & H3 & _);
      assert (Hgt : TruthFunction_gt (tf a) (tf b) = Ok true)
        by (vm_compute; reflexivity)
  end.
  split; [exact Hgt|]. split; [exact (proj1 (H3 Hgt))|exact H2].
Defined.

Lemma taut_all_spec t root C :
  tf_sentence t = root ->
  (forall vals, In vals C -> exists b, Symbol_call root vals = Ok b) ->
  taut_all t C true = Ok (forallb (satisfies root) C).
Proof.
  intros Hs. induction C as [|vals C IH]; intros Hall; [reflexivity|].
  cbn [taut_all forallb]. unfold TruthFunction_call. rewrite Hs.
  destruct (Hall vals (or_introl eq_refl)) as [b Hb].
  unfold satisfies at 1. rewrite Hb. cbn [bind]. destruct b.
  - cbn [andb]. apply IH. intros v Hv. apply Hall. now right.
  - cbn [andb]. clear. induction C as [|v C IH]; [reflexivity|exact IH].
Qed.

Lemma taut_any_spec t root C :
  tf_sentence t = root ->
  (forall vals, In vals C -> exists b, Symbol_call root vals = Ok b) ->
  taut_any t C false = Ok (existsb (satisfies root) C).
Proof.
  intros Hs. induction C as [|vals C IH]; intros Hall; [reflexivity|].
  cbn [taut_any existsb]. unfold TruthFunction_call. rewrite Hs.
  destruct (Hall vals (or_introl eq_refl)) as [b Hb].
  unfold satisfies at 1. rewrite Hb. cbn [bind]. destruct b.
  - cbn [orb]. clear. induction C as [|v C IH]; [reflexivity|exact IH].
  - cbn [orb]. apply IH. intros v Hv. apply Hall. now right.
Qed.

Lemma filter_nil_forallb {A} (f g : A -> bool) l :
  (forall x, In x l -> g x = negb (f x)) ->
  (filter g l = [] <-> forallb f l = true).
Proof.
  intros H. induction l as [|x l IH]; [simpl; tauto|].
  cbn [filter forallb]. rewrite (H x (or_introl eq_refl)).
  destruct (f x); cbn [negb andb].
  - apply IH. intros y Hy. apply H. now right.
  - split; discriminate.
Qed.

Lemma filter_nil_existsb {A} (f : A -> bool) l :
  filter f l = [] <-> existsb f l = false.
Proof.
  induction l as [|x l IH]; [simpl; tauto|].
  cbn [filter existsb]. destruct (f x); cbn [orb]; [split; discriminate|exact IH].
Qed.

(** [taut] never raises on a truth function that was built.  [taut(True)]
    holds exactly when no assignment falsifies the formula, [taut(False)]
    exactly when none satisfies it. *)
Theorem taut_matches_partition : forall root t,
  TruthFunction_init root = Ok t ->
  (exists b, taut t true = Ok b) /\ (exists b, taut t false = Ok b)
  /\ (taut t true = Ok true <-> tf_false t = [])
  /\ (taut t false = Ok true <-> tf_true t = []).
Proof.
  intros root t H. apply TruthFunction_init_spec in H.
  destruct H as (Hs & _ & Ht & Hf & Hall).
  unfold taut. rewrite (taut_all_spec t root _ Hs Hall).
  rewrite (taut_any_spec t root _ Hs Hall). cbn [bind].
  split; [eauto|]. split; [eauto|]. rewrite Ht, Hf. split.
  - rewrite (filter_nil_forallb (satisfies root) (falsifies root)).
    + split; [now intros [= ->]|now intros ->].
    + intros v Hv. destruct (Hall v Hv) as [b Hb].
      unfold satisfies, falsifies. rewrite Hb. now destruct b.
  - rewrite filter_nil_existsb.
    split; [intros [= E]; now apply negb_true_iff in E|now intros ->].
Qed.

Lemma taut_matches_partition_witness :
  exists root t,
    _parse 4 (py "Pv~P") = Ok root /\ TruthFunction_init root = Ok t
    /\ tf_false t = [] /\ taut t true = Ok true.
Proof.
  do 2 eexists.
  split; [vm_compute; reflexivity|].
  match goal with
  | |- ?init = Ok ?x /\ _ =>
      assert (Hi : init = Ok x) by (vm_compute; reflexivity)
  end.
  split; [exact Hi|].
  split; [reflexivity|].
  apply (proj1 (proj2 (proj2 (taut_matches_partition _ _ Hi)))). reflexivity.
Defined.

(** ** Evaluation *)

(** Induction on trees, through the optional children. *)
Lemma Symbol_induction (P : Symbol -> Prop) :
  (forall c l r f,
      (forall x, l = Some x -> P x) -> (forall x, r = Some x -> P x) ->
      P (Sym c l r f)) ->
  forall s, P s.
Proof.
  intros H. fix IH 1. intros [c l r f]. apply H.
  - destruct l as [l'|]; intros x E; [|discriminate].
    injection E as <-. apply IH.
  - destruct r as [r'|]; intros x E; [|discriminate].
    injection E as <-. apply IH.
Qed.

Lemma dict_get_answers d k :
  dict_get d k = (if mem k (map fst d) then dict_get d k else Raise KeyError)
  /\ (mem k (map fst d) = true -> exists b, dict_get d k = Ok b).
Proof.
  induction d as [|[k' v] d [IH1 IH2]]; [split; [reflexivity|discriminate]|].
  cbn [dict_get map fst mem existsb]. unfold mem in *.
  destruct (k =? k')%N; cbn [orb]; [eauto|]. split; assumption.
Qed.

(** The value of a tree depends on the dictionary only through the names it
    looks up. *)
Theorem evaluation_coincidence : forall s v1 v2,
  (forall a, In a (atoms s) -> dict_get v1 a = dict_get v2 a) ->
  Symbol_call s v1 = Symbol_call s v2.
Proof.
  intros s v1 v2. induction s as [c l r f IHl IHr] using Symbol_induction.
  intros H. cbn [Symbol_call atoms] in *.
  destruct (c =? ch "#")%N; [reflexivity|].
  destruct (c =? ch "~")%N.
  - destruct l as [l'|]; [|reflexivity]. now rewrite (IHl l' eq_refl).
  - destruct (sym_type (Sym c l r f)).
    + destruct (TFS c) as [g|]; [|reflexivity].
      destruct l as [l'|]; [|reflexivity].
      destruct r as [r'|].
      * rewrite (IHl l' eq_refl), (IHr r' eq_refl); [reflexivity| |];
          intros a Ha; apply H; apply in_or_app; auto.
      * now rewrite (IHl l' eq_refl).
    + destruct (TFS c) as [g|]; [|reflexivity].
      destruct l as [l'|]; [|reflexivity].
      destruct r as [r'|].
      * rewrite (IHl l' eq_refl), (IHr r' eq_refl); [reflexivity| |];
          intros a Ha; apply H; apply in_or_app; auto.
      * now rewrite (IHl l' eq_refl).
    + apply H. now left.
Qed.

Lemma evaluation_coincidence_witness :
  exists s,
    _parse 4 (py "P>Q") = Ok s
    /\ Symbol_call s [(ch "P", true); (ch "Q", false); (ch "R", true)]
       = Symbol_call s [(ch "Q", false); (ch "P", true)].
Proof.
  eexists. split; [vm_compute; reflexivity|].
  apply evaluation_coincidence.
  intros a Ha. vm_compute in Ha.
  destruct Ha as [<-|[<-|[]]]; reflexivity.
Defined.

Lemma Symbol_call_cases : forall s vals,
  evaluable s = true ->
  if forallb (fun a => mem a (map fst vals)) (atoms s)
  then exists b, Symbol_call s vals = Ok b
  else Symbol_call s vals = Raise KeyError.
Proof.
  intros s vals. induction s as [c l r f IHl IHr] using Symbol_induction.
  intros H. cbn [Symbol_call atoms evaluable] in *.
  destruct (c =? ch "#")%N; [cbn [forallb]; eauto|].
  destruct (c =? ch "~")%N.
  - destruct l as [l'|]; [|discriminate].
    specialize (IHl l' eq_refl H).
    destruct (forallb _ (atoms l')).
    + destruct IHl as [b ->]. cbn [bind]. eauto.
    + now rewrite IHl.
  - assert (Hbin : forall g,
               TFS c = Some g ->
               match l, r with
               | Some l', Some r' => evaluable l' && evaluable r'
               | _, _ => false
               end = true ->
               if forallb (fun a => mem a (map fst vals))
                    match l, r with
                    | Some l', Some r' => atoms l' ++ atoms r'
                    | Some l', None => atoms l'
                    | _, _ => []
                    end
               then exists b,
                   match l with
                   | None => Raise TypeError
                   | Some l' =>
                       p <- Symbol_call l' vals ;;
                       match r with
                       | None => Raise TypeError
                       | Some r' => q <- Symbol_call r' vals ;; Ok (g p q)
                       end
                   end = Ok b
               else match l with
                    | None => Raise TypeError
                    | Some l' =>
                        p <- Symbol_call l' vals ;;
                        match r with
                        | None => Raise TypeError
                        | Some r' => q <- Symbol_call r' vals ;; Ok (g p q)
                        end
                    end = Raise KeyError).
    { intros g _ Hev. destruct l as [l'|]; [|discriminate].
      destruct r as [r'|]; [|discriminate].
      apply andb_true_iff in Hev. destruct Hev as [Hl Hr].
      specialize (IHl l' eq_refl Hl). specialize (IHr r' eq_refl Hr).
      rewrite forallb_app.
      destruct (forallb _ (atoms l')).
      - destruct IHl as [p ->]. cbn [bind andb].
        destruct (forallb _ (atoms r')).
        + destruct IHr as [q ->]. cbn [bind]. eauto.
        + now rewrite IHr.
      - now rewrite IHl. }
    destruct (sym_type (Sym c l r f)).
    + destruct (TFS c) as [g|] eqn:Eg.
      * apply (Hbin g eq_refl).
        destruct l, r; try discriminate; exact H.
      * destruct l, r; discriminate.
    + destruct (TFS c) as [g|] eqn:Eg.
      * apply (Hbin g eq_refl).
        destruct l, r; try discriminate; exact H.
      * destruct l, r; discriminate.
    + cbn [forallb]. rewrite andb_true_r.
      destruct (dict_get_answers vals c) as [E1 E2].
      destruct (mem c (map fst vals)); [now apply E2|exact E1].
Qed.

(** Evaluating a tree that has all the children its connectives call: the
    call returns a boolean when the dictionary has every name the tree looks
    up, and raises [KeyError] when one is missing; it raises nothing else. *)
Theorem evaluation_needs_every_atomic : forall s vals,
  evaluable s = true ->
  if forallb (fun a => mem a (map fst vals)) (atoms s)
  then exists b, Symbol_call s vals = Ok b
  else Symbol_call s vals = Raise KeyError.
Proof. exact Symbol_call_cases. Qed.

Lemma evaluation_needs_every_atomic_witness :
  exists s,
    _parse 4 (py "P>Q") = Ok s
    /\ Symbol_call s [(ch "P", true)] = Raise KeyError
    /\ exists b, Symbol_call s [(ch "Q", true); (ch "P", true)] = Ok b.
Proof.
  eexists. split; [vm_compute; reflexivity|].
  match goal with
  | |- Symbol_call ?s _ = _ /\ _ =>
      pose proof (evaluation_needs_every_atomic s [(ch "P", true)] eq_refl) as H1;
      pose proof (evaluation_needs_every_atomic s
                    [(ch "Q", true); (ch "P", true)] eq_refl) as H2
  end.
  split; [exact H1|exact H2].
Defined.

(** ** One-character formulas *)

Ltac split_mem H :=
  unfold mem in H; cbn [existsb BINARIES VALID UNARIES NULLARIES py app map
                        list_ascii_of_string] in H;
  repeat match type of H with
         | (_ || _) = true => apply orb_true_iff in H; destruct H as [H|H]
         | false = true => discriminate H
         end;
  try (apply N.eqb_eq in H; subst).

(** A formula of one character is never refused by the parser: it becomes a
    leaf.  Building the Sentence then succeeds for the constant [#] (always
    false, no atomics) and for a character outside [VALID] (an atomic, with
    the two assignments true and false); it raises [TypeError] for a
    connective standing alone and [KeyError] for any other character of
    [VALID], such as a parenthesis. *)
Theorem one_character_sentence : forall c,
  let r := Sym c None None [c] in
  (forall fuel, _parse (S fuel) [c] = Ok r)
  /\ Sentence_of_root r
     = if (c =? ch "#")%N
       then Ok (mkSentence r [c] (mkTF r [] [] [[]] [[]]) None None)
       else if (c =? ch "~")%N || mem c BINARIES then Raise TypeError
       else if mem c VALID then Raise KeyError
       else Ok (mkSentence r [c]
                  (mkTF r [c] [[(c, true)]] [[(c, false)]]
                     [[(c, true)]; [(c, false)]])
                  None None).
Proof.
  intros c r. split; [reflexivity|]. subst r.
  destruct (c =? ch "#")%N eqn:E1.
  { apply N.eqb_eq in E1. subst. reflexivity. }
  destruct (c =? ch "~")%N eqn:E2.
  { apply N.eqb_eq in E2. subst. reflexivity. }
  destruct (mem c BINARIES) eqn:E3.
  { cbn [orb]. split_mem E3; reflexivity. }
  destruct (mem c VALID) eqn:E4.
  { cbn [orb]. split_mem E4; try reflexivity; discriminate. }
  cbn [orb].
  assert (Hcall : forall b, Symbol_call (Sym c None None [c]) [(c, b)] = Ok b).
  { intros b. cbn [Symbol_call]. rewrite E1, E2.
    unfold sym_type. cbn [symb]. rewrite E3.
    unfold mem, UNARIES, NULLARIES. cbn [existsb]. rewrite E1, E2.
    cbn [orb dict_get]. now rewrite N.eqb_refl. }
  cbn [Sentence_of_root]. unfold TruthFunction_init.
  cbn [sym_formula filter]. rewrite E4. cbn [negb sorted_set fold_right insert_char].
  change (_canonical [c]) with [[(c, true)]; [(c, false)]].
  cbn [fill]. rewrite !Hcall. reflexivity.
Qed.

(** ** Building sentences from sentences *)

Lemma Symbol_call_evaluable s : forall vals b,
  Symbol_call s vals = Ok b -> evaluable s = true.
Proof.
  induction s as [c l r f IHl IHr] using Symbol_induction.
  intros vals b H. cbn [Symbol_call evaluable] in *.
  destruct (c =? ch "#")%N; [reflexivity|].
  destruct (c =? ch "~")%N.
  - destruct l as [l'|]; [|discriminate]. inv_bind H. eapply IHl; eauto.
  - destruct (sym_type (Sym c l r f)); [| |reflexivity];
      (destruct (TFS c); [|discriminate];
       destruct l as [l'|]; [|discriminate]; inv_bind H;
       destruct r as [r'|]; [|discriminate]; inv_bind H;
       rewrite (IHl l' eq_refl _ _ E), (IHr r' eq_refl _ _ E0); reflexivity).
Qed.

Lemma Symbol_call_covered s vals b :
  Symbol_call s vals = Ok b ->
  forall a, In a (atoms s) -> In a (map fst vals).
Proof.
  intros H. pose proof (Symbol_call_cases s vals (Symbol_call_evaluable _ _ _ H)) as C.
  destruct (forallb (fun a => mem a (map fst vals)) (atoms s)) eqn:E.
  - rewrite forallb_forall in E. intros a Ha. now apply mem_In, E.
  - congruence.
Qed.

Lemma Symbol_call_total s vals :
  evaluable s = true ->
  (forall a, In a (atoms s) -> In a (map fst vals)) ->
  exists b, Symbol_call s vals = Ok b.
Proof.
  intros He Hc. pose proof (Symbol_call_cases s vals He) as C.
  replace (forallb (fun a => mem a (map fst vals)) (atoms s)) with true in C;
    [exact C|].
  symmetry. apply forallb_forall. intros a Ha. now apply mem_In, Hc.
Qed.

Lemma fill_total root canon : forall t f,
  (forall vals, In vals canon -> exists b, Symbol_call root vals = Ok b) ->
  exists t' f', fill root canon t f = Ok (t', f').
Proof.
  induction canon as [|vals rest IH]; intros t f H; [cbn; eauto|].
  cbn [fill]. destruct (H vals (or_introl eq_refl)) as [b ->]. cbn [bind].
  destruct b; apply IH; intros v Hv; apply H; now right.
Qed.

(** The truth function of [root] can be built as soon as the tree is
    evaluable and its names occur in its formula outside [VALID]. *)
Lemma TruthFunction_init_total root :
  evaluable root = true ->
  (forall a, In a (atoms root) ->
             In a (sym_formula root) /\ mem a VALID = false) ->
  exists t, TruthFunction_init root = Ok t.
Proof.
  intros He Ha. unfold TruthFunction_init.
  set (ats := sorted_set (filter (fun c => negb (mem c VALID)) (sym_formula root))).
  assert (Hnd : NoDup ats) by apply strictly_sorted_NoDup, sorted_set_sorted.
  destruct (fill_total root (_canonical ats) [] []) as (t & f & ->).
  - rewrite (_canonical_assignments _ Hnd). intros vals Hin.
    apply in_map_iff in Hin. destruct Hin as (i & <- & _).
    apply Symbol_call_total; [exact He|].
    intros a Hin. rewrite assignment_keys. unfold ats.
    apply sorted_set_In, filter_In. destruct (Ha a Hin) as [H1 H2].
    split; [exact H1|now rewrite H2].
  - cbn [bind]. eauto.
Qed.

(** Conversely a truth function that was built shows both. *)
Lemma TruthFunction_init_inv root t :
  TruthFunction_init root = Ok t ->
  evaluable root = true
  /\ forall a, In a (atoms root) ->
               In a (sym_formula root) /\ mem a VALID = false.
Proof.
  intros H.
  pose proof (TruthFunction_init_spec _ _ H) as (_ & Hc & _ & _ & Hall).
  unfold TruthFunction_init in H.
  set (ats := sorted_set (filter (fun c => negb (mem c VALID)) (sym_formula root))) in *.
  inv_bind H. destruct x as [tr fl]. injection H as <-.
  cbv beta iota delta [atomics canonical] in *.
  assert (Hnd : NoDup ats) by apply strictly_sorted_NoDup, sorted_set_sorted.
  rewrite (_canonical_assignments _ Hnd) in Hall.
  assert (H0 : In (assignment ats 0) (map (assignment ats) (seq 0 (2 ^ length ats)))).
  { apply in_map, in_seq. pose proof (Nat.pow_nonzero 2 (length ats)). lia. }
  destruct (Hall _ H0) as [b Hb].
  split; [eapply Symbol_call_evaluable; eassumption|].
  intros a Ha. pose proof (Symbol_call_covered _ _ _ Hb a Ha) as Hin.
  rewrite assignment_keys in Hin. unfold ats in Hin.
  apply sorted_set_In, filter_In in Hin. destruct Hin as [H1 H2].
  split; [exact H1|]. now apply negb_true_iff.
Qed.

Lemma _untrim_result p arg u :
  _untrim p arg = Ok u -> u = arg \/ u = parens arg.
Proof.
  unfold _untrim. intros H. inv_bind H.
  destruct (negb (x =? ch "~")%N && (2 <? length arg)).
  - injection H as <-. now right.
  - inv_bind H. destruct x0 as [sym|[[] cs]]; cbv beta iota in H;
      injection H as <-; auto.
Qed.

Lemma in_untrim p arg u a :
  _untrim p arg = Ok u -> In a arg -> In a u.
Proof.
  intros H Ha. apply _untrim_result in H. destruct H as [->| ->]; [exact Ha|].
  unfold parens. right. apply in_or_app. now left.
Qed.

Lemma binary_facts c :
  mem c BINARIES = true ->
  (c =? ch "#")%N = false /\ (c =? ch "~")%N = false
  /\ (exists g, TFS c = Some g)
  /\ forall l r f, sym_type (Sym c l r f) = connective.
Proof.
  intros H. split_mem H;
    (split; [reflexivity|split; [reflexivity|split;
       [eexists; reflexivity|intros; reflexivity]]]).
Qed.

Lemma join_laws a b c :
  constructed a -> constructed b ->
  formula a <> [] -> formula b <> [] ->
  mem c BINARIES = true ->
  Sentence_str b <> py "None" ->
  exists j,
    Sentence_join a (Some b) c = Ok j
    /\ constructed j
    /\ first j = Some a /\ second j = Some b /\ mc j = c
    /\ root j = Sym c (Some (root a)) (Some (root b)) (formula j)
    /\ Sentence_join a None c = Ok a
    /\ In c (formula j).
Proof.
  intros Ha Hb Hfa Hfb Hc Hnone.
  pose proof (Sentence_of_root_spec _ _ Ha) as [_ Hta].
  pose proof (Sentence_of_root_spec _ _ Hb) as [_ Htb].
  apply TruthFunction_init_inv in Hta, Htb.
  destruct Hta as [Hea Haa], Htb as [Heb Hab].
  assert (Hforma : formula a = sym_formula (root a)).
  { unfold constructed in Ha. destruct (root a) as [ca la ra fa] eqn:Er.
    cbn [Sentence_of_root] in Ha. inv_bind Ha.
    destruct la; [inv_bind Ha; destruct (ca =? ch "~")%N;
                  [|destruct ra; [inv_bind Ha|discriminate]]|];
      injection Ha as <-; reflexivity. }
  assert (Hformb : formula b = sym_formula (root b)).
  { unfold constructed in Hb. destruct (root b) as [cb lb rb fb] eqn:Er.
    cbn [Sentence_of_root] in Hb. inv_bind Hb.
    destruct lb; [inv_bind Hb; destruct (cb =? ch "~")%N;
                  [|destruct rb; [inv_bind Hb|discriminate]]|];
      injection Hb as <-; reflexivity. }
  destruct (_untrim_total (_parse 0) (formula a) Hfa) as [ua Hua].
  destruct (_untrim_total (_parse 0) (formula b) Hfb) as [ub Hub].
  destruct (binary_facts c Hc) as (C1 & C2 & [g C3] & C4).
  set (J := Sym c (Some (root a)) (Some (root b)) (ua ++ [c] ++ ub)).
  assert (HevJ : evaluable J = true).
  { unfold J. cbn [evaluable]. rewrite C1, C2, C4, C3, Hea, Heb. reflexivity. }
  assert (HatJ : forall x, In x (atoms J) ->
                           In x (sym_formula J) /\ mem x VALID = false).
  { unfold J. cbn [atoms sym_formula]. rewrite C1, C2, C4, C3.
    intros x Hx. apply in_app_or in Hx. destruct Hx as [Hx|Hx].
    - destruct (Haa x Hx) as [H1 H2]. split; [|exact H2].
      apply in_or_app. left. eapply in_untrim; [exact Hua|].
      now rewrite Hforma.
    - destruct (Hab x Hx) as [H1 H2]. split; [|exact H2].
      apply in_or_app. right. apply in_or_app. right.
      eapply in_untrim; [exact Hub|]. now rewrite Hformb. }
  destruct (TruthFunction_init_total J HevJ HatJ) as [tJ HtJ].
  assert (HJ : Sentence_of_root J
               = Ok (mkSentence J (ua ++ [c] ++ ub) tJ (Some a) (Some b))).
  { unfold J in *. cbn [Sentence_of_root]. rewrite HtJ. cbn [bind].
    unfold constructed in Ha, Hb. rewrite Ha. cbn [bind]. rewrite C2.
    rewrite Hb. reflexivity. }
  exists (mkSentence J (ua ++ [c] ++ ub) tJ (Some a) (Some b)).
  split.
  - unfold Sentence_join, obj_eq, Sentence_eq. cbn [str_of_obj].
    unfold str_eqb. destruct (list_eq_dec N.eq_dec (Sentence_str b) (py "None"));
      [contradiction|].
    rewrite Hua, Hub. cbn [bind]. exact HJ.
  - split; [exact HJ|]. repeat split.
    cbn [formula]. apply in_or_app. right. now left.
Qed.

(** Joining two sentences by a binary connective always succeeds, and the
    result takes apart into the two sentences it was made of: its first part
    is the first sentence, its second part the second, its main connective
    the connective given.  (The exceptions the code makes: a second sentence
    whose text reads "None" is taken for [None], and the first is returned as
    it is.) *)
Theorem join_builds_and_decomposes : forall a b c,
  constructed a -> constructed b ->
  formula a <> [] -> formula b <> [] ->
  mem c BINARIES = true ->
  Sentence_str b <> py "None" ->
  exists j,
    Sentence_join a (Some b) c = Ok j
    /\ constructed j
    /\ first j = Some a /\ second j = Some b /\ mc j = c
    /\ root j = Sym c (Some (root a)) (Some (root b)) (formula j)
    /\ Sentence_join a None c = Ok a.
Proof.
  intros a b c Ha Hb Hfa Hfb Hc Hn.
  destruct (join_laws a b c Ha Hb Hfa Hfb Hc Hn)
    as (j & H1 & H2 & H3 & H4 & H5 & H6 & H7 & _).
  exists j. repeat split; assumption.
Qed.

Lemma join_builds_and_decomposes_witness :
  exists a b j,
    Sentence_of_text 4 (py "PvQ") = Ok a /\ Sentence_of_text 4 (py "~R") = Ok b
    /\ Sentence_join a (Some b) (ch ">") = Ok j
    /\ first j = Some a /\ second j = Some b /\ formula j = py "(PvQ)>~R".
Proof.
  do 3 eexists.
  split; [vm_compute; reflexivity|]. split; [vm_compute; reflexivity|].
  match goal with
  | |- Sentence_join ?a (Some ?b) ?c = _ /\ _ =>
      destruct (join_builds_and_decomposes a b c
                  ltac:(vm_compute; reflexivity) ltac:(vm_compute; reflexivity)
                  ltac:(discriminate) ltac:(discriminate) eq_refl
                  ltac:(vm_compute; discriminate))
        as (j & Hj & _ & H1 & H2 & _)
  end.
  assert (Hj' := Hj). vm_compute in Hj'. injection Hj' as <-.
  split; [exact Hj|]. split; [exact H1|]. split; [exact H2|].
  vm_compute. reflexivity.
Defined.

Lemma constructed_formula a : constructed a -> formula a = sym_formula (root a).
Proof.
  unfold constructed. intros Ha. destruct (root a) as [ca la ra fa] eqn:Er.
  cbn [Sentence_of_root] in Ha. inv_bind Ha.
  destruct la; [inv_bind Ha; destruct (ca =? ch "~")%N;
                [|destruct ra; [inv_bind Ha|discriminate]]|];
    injection Ha as <-; reflexivity.
Qed.

Lemma Sentence_eq_refl a : Sentence_eq a (Some a) = true.
Proof. unfold Sentence_eq. now apply str_eqb_eq. Qed.

(** Negating a sentence that is not a negation always succeeds and wraps it
    in one negation, both of whose parts are the sentence itself; negating
    the result gives the sentence back, and each of the two recognises the
    other as its negation.  Negating a negation only takes the sign off. *)
Theorem negate_wraps_and_unwraps : forall a,
  constructed a -> formula a <> [] ->
  if (mc a =? ch "~")%N then negate a = Ok (first a)
  else exists n,
      negate a = Ok (Some n)
      /\ constructed n
      /\ mc n = ch "~" /\ first n = Some a /\ second n = Some a
      /\ negate n = Ok (Some a)
      /\ is_negation n (Some a) = Ok true
      /\ is_negation a (Some n) = Ok true.
Proof.
  intros a Ha Hfa. unfold mc.
  destruct (symb (root a) =? ch "~")%N eqn:Eneg.
  { unfold negate. now rewrite Eneg. }
  pose proof (Sentence_of_root_spec _ _ Ha) as [_ Hta].
  apply TruthFunction_init_inv in Hta. destruct Hta as [Hea Haa].
  pose proof (constructed_formula a Ha) as Hforma.
  destruct (_untrim_total (_parse 0) (formula a) Hfa) as [ua Hua].
  set (N := Sym (ch "~") (Some (root a)) (Some (root a)) (ch "~" :: ua)).
  assert (HevN : evaluable N = true) by exact Hea.
  assert (HatN : forall x, In x (atoms N) ->
                           In x (sym_formula N) /\ mem x VALID = false).
  { unfold N. cbn [atoms sym_formula N.eqb]. change (ch "~" =? ch "#")%N with false.
    change (ch "~" =? ch "~")%N with true. cbv iota.
    intros x Hx. destruct (Haa x Hx) as [H1 H2]. split; [|exact H2].
    right. eapply in_untrim; [exact Hua|]. now rewrite Hforma. }
  destruct (TruthFunction_init_total N HevN HatN) as [tN HtN].
  assert (HN : Sentence_of_root N
               = Ok (mkSentence N (ch "~" :: ua) tN (Some a) (Some a))).
  { unfold N in *. cbn [Sentence_of_root]. rewrite HtN. cbn [bind].
    unfold constructed in Ha. rewrite Ha. reflexivity. }
  exists (mkSentence N (ch "~" :: ua) tN (Some a) (Some a)).
  split.
  { unfold negate. rewrite Eneg, Hua. cbn [bind]. fold N. rewrite HN. reflexivity. }
  split; [exact HN|].
  repeat split.
  - unfold is_negation. cbn [root first N symb].
    change (ch "~" =? ch "~")%N with true. cbv iota.
    cbn [obj_eq]. now rewrite Sentence_eq_refl.
  - unfold is_negation. rewrite Eneg. cbn [attr bind root first N symb].
    change (ch "~" =? ch "~")%N with true. cbv iota.
    now rewrite Sentence_eq_refl.
Qed.

Lemma negate_wraps_and_unwraps_witness :
  exists a n,
    Sentence_of_text 4 (py "P&Q") = Ok a
    /\ negate a = Ok (Some n) /\ formula n = py "~(P&Q)"
    /\ negate n = Ok (Some a).
Proof.
  do 2 eexists.
  split; [vm_compute; reflexivity|].
  match goal with
  | |- negate ?a = _ /\ _ =>
      pose proof (negate_wraps_and_unwraps a
                    ltac:(vm_compute; reflexivity) ltac:(discriminate)) as H
  end.
  cbv beta iota delta [mc root symb N.eqb Pos.eqb ch N_of_ascii N_of_digits
                        N.add N.mul Pos.add Pos.mul Pos.succ] in H.
  destruct H as (n & Hn & _ & _ & _ & _ & Hnn & _).
  assert (Hn' := Hn). vm_compute in Hn'. injection Hn' as <-.
  split; [exact Hn|]. split; [vm_compute; reflexivity|exact Hnn].
Defined.

(** ** Deep equality *)

Lemma _equal_total s : full s = true -> forall o, exists b, _equal s o = Ok b.
Proof.
  induction s as [c l r f IHl IHr] using Symbol_induction.
  intros Hf o. destruct o as [o|]; [|cbn; destruct l as [l'|]; eauto].
  cbn [_equal full] in *. destruct l as [l'|].
  - destruct r as [r'|]; [|discriminate].
    apply andb_true_iff in Hf. destruct Hf as [Hl Hr].
    destruct (IHl l' eq_refl Hl (sym_left o)) as [b1 ->].
    destruct (IHl l' eq_refl Hl (sym_right o)) as [b2 ->].
    destruct (IHr r' eq_refl Hr (sym_right o)) as [b3 ->].
    destruct (IHr r' eq_refl Hr (sym_left o)) as [b4 ->].
    cbn [bind]. destruct b1, b3; cbn [bind]; eauto.
  - destruct (sym_left o); eauto.
Qed.

Lemma _equal_refl s : full s = true -> _equal s (Some s) = Ok true.
Proof.
  induction s as [c l r f IHl IHr] using Symbol_induction.
  intros Hf. cbn [_equal full symb sym_left sym_right] in *.
  rewrite N.eqb_refl. destruct l as [l'|]; [|reflexivity].
  destruct r as [r'|]; [|discriminate].
  apply andb_true_iff in Hf. destruct Hf as [Hl Hr].
  rewrite (IHl l' eq_refl Hl), (IHr r' eq_refl Hr). reflexivity.
Qed.

(** [deep_equal] on sentences whose trees are full (a node with a left
    child has a right child): it always answers, it holds between a sentence
    and itself and between two sentences that differ by the order of the two
    operands at the top.  It is not symmetric: [PvP] deep-equals [PvQ], each
    side of the first being found in the second, and not the other way
    round. *)
Theorem deep_equal_laws : forall a b,
  full (root a) = true ->
  (exists e, deep_equal a b = Ok e)
  /\ deep_equal a (Some a) = Ok true
  /\ (forall b' c l r f f',
        root a = Sym c (Some l) (Some r) f ->
        root b' = Sym c (Some r) (Some l) f' ->
        deep_equal a (Some b') = Ok true)
  /\ (forall n, exists pp pq,
        Sentence_of_text (4 + n) (py "PvP") = Ok pp
        /\ Sentence_of_text (4 + n) (py "PvQ") = Ok pq
        /\ deep_equal pp (Some pq) = Ok true
        /\ deep_equal pq (Some pp) = Ok false).
Proof.
  intros a b Hf. split; [|split; [|split]].
  - destruct b as [b|]; [|cbn; eauto]. apply _equal_total, Hf.
  - apply _equal_refl, Hf.
  - intros b' c l r f f' Hr Hr'. unfold deep_equal.
    rewrite Hr' in *. rewrite Hr in *. cbn [full] in Hf.
    apply andb_true_iff in Hf. destruct Hf as [Hl Hrr].
    cbn [_equal symb sym_left sym_right]. rewrite N.eqb_refl.
    destruct (_equal_total l Hl (Some r)) as [b1 ->].
    destruct (_equal_total r Hrr (Some l)) as [b2 ->].
    cbn [bind]. rewrite (_equal_refl l Hl), (_equal_refl r Hrr).
    destruct b1, b2; reflexivity.
  - intros n. cbn [Nat.add]. do 2 eexists.
    split; [vm_compute; reflexivity|]. split; [vm_compute; reflexivity|].
    split; vm_compute; reflexivity.
Qed.

Lemma deep_equal_laws_witness :
  exists a b,
    Sentence_of_text 4 (py "(P&Q)vR") = Ok a
    /\ Sentence_of_text 4 (py "Rv(P&Q)") = Ok b
    /\ deep_equal a (Some a) = Ok true
    /\ exists e, deep_equal a (Some b) = Ok e.
Proof.
  do 2 eexists.
  split; [vm_compute; reflexivity|]. split; [vm_compute; reflexivity|].
  match goal with
  | |- deep_equal ?a _ = _ /\ (exists e, deep_equal _ ?b = _) =>
      destruct (deep_equal_laws a b eq_refl) as (H1 & H2 & _)
  end.
  split; [exact H2|exact H1].
Defined.

(** ** The parser on arbitrary text *)

Lemma indexed_skipn_nth (s t : str) : forall off i c,
  (forall k d, nth_error t k = Some d -> nth_error s (off + k) = Some d) ->
  In (i, c) (combine (seq off (length t)) t) ->
  nth_error s i = Some c.
Proof.
  induction t as [|d t IH]; intros off i c Hs Hin; [destruct Hin|].
  rewrite indexed_cons in Hin. destruct Hin as [E|Hin].
  - injection E as <- <-. rewrite <- (Nat.add_0_r off). now apply Hs.
  - apply (IH (S off)); [|exact Hin].
    intros k e Hk. replace (S off + k) with (off + S k) by lia. now apply Hs.
Qed.

Lemma fold_scan_keys n (P : nat -> char -> Prop) items : forall d cs e,
  (forall i c, In (i, c) items -> mem c BINARIES = true -> P i c) ->
  (forall q c, In (q, c) cs -> P q c) ->
  forall q c,
    In (q, c) (snd (fst (fold_left (scan_step n) items (d, cs, e)))) -> P q c.
Proof.
  induction items as [|[i ch0] items IH]; intros d cs e Hitems Hcs q c Hin.
  - now apply Hcs.
  - cbn [fold_left] in Hin. unfold scan_step at 2 in Hin.
    match type of Hin with
    | context [if ?b then _ else _] => destruct b eqn:Eb
    end.
    2:{ eapply IH; [| |exact Hin]; [intros; apply Hitems; auto; now right|exact Hcs]. }
    eapply IH; [| |exact Hin].
    + intros; apply Hitems; auto; now right.
    + intros q' c' Hq. apply in_app_or in Hq. destruct Hq as [Hq|[E|[]]].
      * now apply Hcs.
      * injection E as <- <-. apply Hitems; [now left|].
        apply andb_true_iff in Eb. tauto.
Qed.

(** Every connective the scan records is a binary connective of the text,
    at the position recorded. *)
Lemma scan_keys s start d cs e :
  scan s start = (d, cs, e) ->
  forall q c, In (q, c) cs -> nth_error s q = Some c /\ mem c BINARIES = true.
Proof.
  intros H q c Hin. unfold scan in H.
  pose proof (fold_scan_keys (length s)
                (fun i c => nth_error s i = Some c /\ mem c BINARIES = true)
                (combine (seq start (length s - start)) (skipn start s))
                0%Z [] true) as G.
  rewrite H in G. cbn [fst snd] in G. apply G; [| |exact Hin].
  - intros i c' Hi Hc. split; [|exact Hc].
    rewrite <- length_skipn in Hi.
    apply (indexed_skipn_nth s (skipn start s) start); [|exact Hi].
    intros k d' Hk. now rewrite <- nth_error_skipn.
  - intros ? ? [].
Qed.

Lemma insert_sorted_In x l y : In y (insert_sorted x l) <-> y = x \/ In y l.
Proof.
  induction l as [|z l IH]; cbn [insert_sorted]; [simpl; intuition|].
  destruct (x <=? z); [simpl; intuition|]. simpl. rewrite IH. intuition.
Qed.

Lemma sorted_In l y : In y (sorted l) <-> In y l.
Proof.
  unfold sorted. induction l as [|x l IH]; [tauto|].
  cbn [fold_right]. rewrite insert_sorted_In, IH. simpl. intuition.
Qed.

Lemma index_In {A} (l : list A) i x : index l i = Ok x -> In x l.
Proof.
  unfold index. destruct (_ || _); [discriminate|].
  destruct (nth_error l _) eqn:E; [|discriminate].
  intros [= <-]. eapply nth_error_In; eassumption.
Qed.

Lemma at_nat_In {A} (l : list A) i x : at_nat l i = Ok x -> In x l.
Proof.
  unfold at_nat. destruct (nth_error l i) eqn:E; [|discriminate].
  intros [= <-]. eapply nth_error_In; eassumption.
Qed.

Lemma conn_get_In cs q c : conn_get cs q = Ok c -> In (q, c) cs.
Proof.
  induction cs as [|[k c'] cs IH]; [discriminate|].
  cbn [conn_get]. destruct (q =? k) eqn:E.
  - apply Nat.eqb_eq in E. intros [= <-]. subst. now left.
  - intros H. right. now apply IH.
Qed.

Lemma key_has_entry (cs : connectives_t) q :
  In q (map fst cs) -> exists c, In (q, c) cs.
Proof.
  intros H. apply in_map_iff in H. destruct H as ([q' c] & <- & H). eauto.
Qed.

Lemma split_at s q (c : char) :
  nth_error s q = Some c ->
  s = firstn q s ++ c :: skipn (q + 1) s /\ length (firstn q s) = q.
Proof.
  intros H. destruct (nth_error_split s q H) as (l1 & l2 & -> & <-).
  rewrite firstn_app, Nat.sub_diag, firstn_all. cbn [firstn]. rewrite app_nil_r.
  rewrite skipn_app, skipn_all2 by lia.
  replace (length l1 + 1 - length l1) with 1 by lia. now split.
Qed.

(** What [_same_scope] returns: a text cut in two around one of the
    recorded connectives, each side possibly wrapped in parentheses. *)
Lemma _same_scope_inv s cs f p :
  (forall q c, In (q, c) cs -> nth_error s q = Some c /\ mem c BINARIES = true) ->
  _same_scope s cs = Ok (f, p) ->
  exists q c a1 a2,
    nth_error s q = Some c /\ mem c BINARIES = true
    /\ f = a1 ++ c :: a2 /\ p = length a1
    /\ (a1 = firstn q s \/ a1 = parens (firstn q s))
    /\ (a2 = skipn (q + 1) s \/ a2 = parens (skipn (q + 1) s)).
Proof.
  intros Hcs H. unfold _same_scope in H. inv_bind H. rename x into mc_pos.
  destruct (1 <? length cs).
  - inv_bind H. rename x into q. inv_bind H. rename x into c.
    injection H as <- <-.
    apply conn_get_In in E1. destruct (Hcs q c E1) as [Hq Hc].
    exists q, c. eexists. eexists.
    split; [exact Hq|]. split; [exact Hc|].
    split; [reflexivity|]. split; [reflexivity|].
    split; [destruct (1 <? _); auto|now right].
  - injection H as <- <-.
    apply at_nat_In, sorted_In, key_has_entry in E. destruct E as [c Hin].
    destruct (Hcs mc_pos c Hin) as [Hq Hc].
    destruct (split_at s mc_pos c Hq) as [Hs Hl].
    exists mc_pos, c, (firstn mc_pos s), (skipn (mc_pos + 1) s).
    repeat split; auto.
Qed.

Lemma non_parens_app a b : non_parens (a ++ b) = non_parens a + non_parens b.
Proof. unfold non_parens. now rewrite filter_app, length_app. Qed.

Lemma non_parens_parens s : non_parens (parens s) = non_parens s.
Proof.
  unfold parens. change (ch "(" :: s ++ [ch ")"]) with ([ch "("] ++ s ++ [ch ")"]).
  rewrite !non_parens_app. change (non_parens [ch "("]) with 0.
  change (non_parens [ch ")"]) with 0. lia.
Qed.

Lemma non_parens_binary c s :
  mem c BINARIES = true -> non_parens (c :: s) = S (non_parens s).
Proof.
  intros H. destruct (binary_not_paren c H) as [H1 H2].
  unfold non_parens. cbn [filter]. now rewrite H1, H2.
Qed.

Lemma non_parens_firstn n s : non_parens (firstn n s) <= non_parens s.
Proof.
  rewrite <- (firstn_skipn n s) at 2. rewrite non_parens_app. lia.
Qed.

Lemma non_parens_skipn n s : non_parens (skipn n s) <= non_parens s.
Proof.
  rewrite <- (firstn_skipn n s) at 2. rewrite non_parens_app. lia.
Qed.

Lemma budget_inner s :
  non_parens (inner s) <= non_parens s /\ length (inner s) <= length s - 2.
Proof.
  unfold inner. split.
  - etransitivity; [apply non_parens_firstn|apply non_parens_skipn].
  - rewrite length_firstn, length_skipn. lia.
Qed.

Lemma _trim_result x t :
  _trim x = Ok t ->
  non_parens t <= non_parens x /\ length t <= length x.
Proof.
  unfold _trim. intros H.
  destruct (_ || _); [|injection H as <-; lia].
  inv_bind H. destruct (x0 =? ch "(")%N; [|injection H as <-; lia].
  inv_bind H. destruct (x1 =? ch ")")%N; injection H as <-; [|lia].
  pose proof (budget_inner x). lia.
Qed.

(** The two texts the parser recurses on after a cut cost less than the
    text that was cut. *)
Lemma budget_after_cut s q c a1 a2 t :
  nth_error s q = Some c -> mem c BINARIES = true ->
  (a1 = firstn q s \/ a1 = parens (firstn q s)) ->
  (a2 = skipn (q + 1) s \/ a2 = parens (skipn (q + 1) s)) ->
  (_trim a1 = Ok t \/ _trim a2 = Ok t) ->
  parse_budget t + 2 <= parse_budget s.
Proof.
  intros Hq Hc H1 H2 Ht.
  destruct (split_at s q c Hq) as [Hs Hl].
  assert (Hnp : non_parens s
                = non_parens (firstn q s) + S (non_parens (skipn (q + 1) s))).
  { rewrite Hs at 1. now rewrite non_parens_app, non_parens_binary. }
  assert (Hlen : length s = q + S (length (skipn (q + 1) s))).
  { rewrite Hs at 1. rewrite length_app. cbn [length]. lia. }
  unfold parse_budget.
  destruct Ht as [Ht|Ht]; apply _trim_result in Ht; destruct Ht as [T1 T2].
  - assert (non_parens a1 = non_parens (firstn q s))
      by (destruct H1 as [->| ->]; [|rewrite non_parens_parens]; reflexivity).
    assert (length a1 <= q + 2)
      by (destruct H1 as [->| ->]; [|rewrite parens_length]; lia).
    lia.
  - assert (non_parens a2 = non_parens (skipn (q + 1) s))
      by (destruct H2 as [->| ->]; [|rewrite non_parens_parens]; reflexivity).
    assert (length a2 <= length (skipn (q + 1) s) + 2)
      by (destruct H2 as [->| ->]; [|rewrite parens_length]; lia).
    lia.
Qed.

Lemma bind_answers {A B} (m : result A) (k : A -> result B) :
  m <> OutOfFuel -> (forall a, m = Ok a -> k a <> OutOfFuel) ->
  bind m k <> OutOfFuel.
Proof.
  destruct m; cbn [bind]; intros H1 H2; [now apply H2|discriminate|congruence].
Qed.

Lemma at_nat_answers {A} (l : list A) i : at_nat l i <> OutOfFuel.
Proof. unfold at_nat. destruct (nth_error l i); discriminate. Qed.

Lemma _setup_answers s : _setup s <> OutOfFuel.
Proof.
  unfold _setup. destruct (length s =? 1); [destruct s; discriminate|].
  apply bind_answers; [apply index_answers|discriminate].
Qed.

Lemma _trim_answers s : _trim s <> OutOfFuel.
Proof.
  unfold _trim. destruct (_ || _); [|discriminate].
  apply bind_answers; [apply index_answers|]. intros a _.
  destruct (a =? ch "(")%N; [|discriminate].
  apply bind_answers; [apply index_answers|]. intros z _.
  destruct (z =? ch ")")%N; discriminate.
Qed.

Lemma _untrim_answers p s : _untrim p s <> OutOfFuel.
Proof.
  unfold _untrim. apply bind_answers; [apply index_answers|]. intros a _.
  destruct (_ && _); [discriminate|].
  unfold _enclosed. destruct (scan s 0) as [[d cs] e]. cbn [Nat.eqb andb bind].
  destruct e; discriminate.
Qed.

Lemma _same_scope_answers s cs : _same_scope s cs <> OutOfFuel.
Proof.
  unfold _same_scope. apply bind_answers; [apply at_nat_answers|]. intros p _.
  destruct (1 <? length cs); [|discriminate].
  apply bind_answers; [apply index_answers|]. intros q _.
  apply bind_answers; [|discriminate].
  clear. induction cs as [|[k c] cs IH]; [discriminate|].
  cbn [conn_get]. destruct (q =? k); [discriminate|exact IH].
Qed.

Lemma _setup_inr s start :
  _setup s = Ok (inr start) ->
  exists c t, s = c :: t /\ 2 <= length s
              /\ start = (if (c =? ch "~")%N then 1 else 0).
Proof.
  unfold _setup. destruct (length s =? 1) eqn:E.
  - destruct s; discriminate.
  - apply Nat.eqb_neq in E. destruct s as [|c t]; [discriminate|].
    rewrite index_head. cbn [bind]. intros [= <-].
    exists c, t. repeat split. simpl in *. lia.
Qed.

Lemma _parse_within_budget fuel : forall s,
  parse_budget s < fuel -> _parse fuel s <> OutOfFuel.
Proof.
  induction fuel as [|fuel IH]; intros s Hb; [lia|].
  cbn [_parse]. apply bind_answers; [apply _setup_answers|].
  intros [sym|start] Hsetup; [discriminate|].
  apply _setup_inr in Hsetup. destruct Hsetup as (c0 & t0 & Hs & Hlen & Hstart).
  destruct (scan s start) as [[d cs] e] eqn:Hscan.
  pose proof (scan_keys s start d cs e Hscan) as Hkeys.
  apply bind_answers.
  { unfold _enclosed. rewrite Hscan.
    destruct ((start =? 1) && e) eqn:Eneg; [|discriminate].
    apply bind_answers; [|discriminate].
    apply IH. apply andb_true_iff in Eneg. destruct Eneg as [E1 _].
    apply Nat.eqb_eq in E1. rewrite E1 in Hstart.
    destruct (c0 =? ch "~")%N eqn:Ec; [|discriminate].
    apply N.eqb_eq in Ec. subst c0 s. cbn [skipn].
    unfold parse_budget in *. cbn [length] in *.
    change (ch "~" :: t0) with ([ch "~"] ++ t0) in Hb.
    rewrite non_parens_app in Hb. change (non_parens [ch "~"]) with 1 in Hb. lia. }
  intros [sym|[enclosed cs']] Henc; [discriminate|].
  assert (cs' = cs).
  { unfold _enclosed in Henc. rewrite Hscan in Henc.
    destruct ((start =? 1) && e).
    - destruct (_parse fuel (skipn 1 s)); discriminate.
    - now injection Henc as _ <-. }
  subst cs'.
  destruct ((start =? 0) && enclosed).
  { apply IH. pose proof (budget_inner s). unfold parse_budget in *. lia. }
  apply bind_answers; [apply _same_scope_answers|].
  intros [f p] Hss.
  destruct (_same_scope_inv s cs f p Hkeys Hss)
    as (q & c & a1 & a2 & Hq & Hc & -> & -> & Ha1 & Ha2).
  apply bind_answers; [apply at_nat_answers|]. intros mc _.
  rewrite firstn_app, Nat.sub_diag, firstn_all. cbn [firstn]. rewrite app_nil_r.
  rewrite skipn_app, skipn_all2 by lia.
  replace (length a1 + 1 - length a1) with 1 by lia. cbn [skipn app].
  apply bind_answers; [apply _trim_answers|]. intros t1 Ht1.
  apply bind_answers.
  { apply IH.
    pose proof (budget_after_cut s q c a1 a2 t1 Hq Hc Ha1 Ha2 (or_introl Ht1)). lia. }
  intros arg1 _.
  apply bind_answers; [apply _trim_answers|]. intros t2 Ht2.
  apply bind_answers.
  { apply IH.
    pose proof (budget_after_cut s q c a1 a2 t2 Hq Hc Ha1 Ha2 (or_intror Ht2)). lia. }
  intros arg2 _.
  apply bind_answers; [apply _untrim_answers|]. intros u1 _.
  apply bind_answers; [|discriminate].
  destruct (negb _); [apply _untrim_answers|discriminate].
Qed.

(** The parser terminates on every text: with a budget above three times
    the number of characters that are not parentheses plus the length of the
    text, it returns a tree or raises an exception, and whatever tree it
    returns it returns for every larger budget. *)
Theorem parser_terminates : forall s fuel,
  parse_budget s < fuel ->
  _parse fuel s <> OutOfFuel
  /\ forall r fuel', fuel <= fuel' -> _parse fuel s = Ok r -> _parse fuel' s = Ok r.
Proof.
  intros s fuel H. split; [now apply _parse_within_budget|].
  intros r fuel' Hle Hr. now apply (_parse_mono fuel).
Qed.

Lemma parser_terminates_witness :
  _parse 30 (py "~(PvQ)&R") <> OutOfFuel.
Proof.
  exact (proj1 (parser_terminates (py "~(PvQ)&R") 30 ltac:(vm_compute; lia))).
Defined.

Lemma well_shaped_full s : well_shaped s -> full s = true.
Proof.
  induction s as [c l r f IHl IHr] using Symbol_induction.
  cbn [well_shaped full]. destruct l as [l'|], r as [r'|]; try tauto.
  intros (_ & Hl & Hr & _).
  now rewrite (IHl l' eq_refl Hl), (IHr r' eq_refl Hr).
Qed.

Lemma _parse_well_shaped fuel : forall s r,
  _parse fuel s = Ok r -> well_shaped r.
Proof.
  induction fuel as [|fuel IH]; intros s r H; [discriminate|].
  cbn [_parse] in H. inv_bind H. destruct x as [sym|start].
  { injection H as <-. unfold _setup in E.
    destruct (length s =? 1) eqn:El.
    - apply Nat.eqb_eq in El. destruct s as [|c [|d t]]; try discriminate.
      injection E as <-. reflexivity.
    - destruct (index s 0); discriminate. }
  destruct (scan s start) as [[d cs] e] eqn:Hscan.
  pose proof (scan_keys s start d cs e Hscan) as Hkeys.
  inv_bind H. unfold _enclosed in E0. rewrite Hscan in E0.
  destruct x as [sym|[enclosed cs']].
  { injection H as <-. destruct ((start =? 1) && e); [|discriminate].
    inv_bind E0. injection E0 as <-. cbn [well_shaped].
    apply IH in E1. repeat split; auto. discriminate. }
  assert (cs' = cs).
  { destruct ((start =? 1) && e).
    - destruct (_parse fuel (skipn 1 s)); discriminate.
    - now injection E0 as _ <-. }
  subst cs'.
  destruct ((start =? 0) && enclosed); [eapply IH; eassumption|].
  inv_bind H. destruct x as [f p].
  destruct (_same_scope_inv s cs f p Hkeys E1)
    as (q & c & a1 & a2 & Hq & Hc & -> & -> & Ha1 & Ha2).
  inv_bind H. rename x into mc.
  assert (mc = c).
  { unfold at_nat in E2. rewrite nth_error_app2, Nat.sub_diag in E2 by lia.
    now injection E2 as <-. }
  subst mc.
  inv_bind H. inv_bind H. inv_bind H. inv_bind H. inv_bind H. inv_bind H.
  injection H as <-. cbn [well_shaped].
  split; [now right|]. split; [eapply IH; eassumption|].
  split; [eapply IH; eassumption|].
  intros Hnil. apply app_eq_nil in Hnil. destruct Hnil as [_ Hnil]. discriminate.
Qed.

(** Every tree the parser returns is made of leaves holding one character,
    negations whose two children are the same tree, and binary connectives
    over two trees; no node has a left child without a right one. *)
Theorem parser_builds_well_shaped_trees : forall fuel s r,
  _parse fuel s = Ok r -> well_shaped r /\ full r = true.
Proof.
  intros fuel s r H. pose proof (_parse_well_shaped fuel s r H) as W.
  split; [exact W|]. now apply well_shaped_full.
Qed.

Lemma parser_builds_well_shaped_trees_witness :
  exists r, _parse 6 (py "~(PvQ)>R") = Ok r /\ well_shaped r.
Proof.
  eexists.
  match goal with
  | |- ?pa = Ok ?x /\ _ => assert (H : pa = Ok x) by (vm_compute; reflexivity)
  end.
  split; [exact H|].
  exact (proj1 (parser_builds_well_shaped_trees _ _ _ H)).
Defined.

(** ** What a successful search leaves behind *)

Lemma prove_success fuel : forall c p i flags p' flags',
  prove fuel c p i flags = Ok (true, p', flags') -> goal_reached c p' i.
Proof.
  induction fuel as [|fuel IH]; intros c p i flags p' flags' H; [discriminate|].
  cbn [prove] in H. inv_bind H. rename x into ps. inv_bind H.
  destruct x.
  { injection H as <- <-. exists ps. split; [exact E|].
    destruct (existsb (fun pr => obj_eq (fst pr) (Some c)) ps); [|discriminate].
    split; [reflexivity|]. inv_bind E0. injection E0 as E0.
    apply Z.eqb_eq in E0. now subst. }
  destruct (mc c =? ch ">")%N; [inv_bind H; discriminate|].
  unfold start_priors in H. clear E E0 ps.
  revert H. generalize (line p) as accessee. generalize (Proof_index p) as idx.
  revert p flags.
  intros p flags idx. revert p flags.
  induction idx as [|line_ rest IHidx]; intros p flags accessee H;
    [discriminate|].
  inv_bind H. destruct x as [[theorem_ ln]|]; [|eapply IHidx; eassumption].
  inv_bind H. rename x into theorem.
  destruct (mc theorem =? ch "v")%N.
  - destruct (existsb (fun f => flag_eq f (py "pbc", theorem)) flags);
      [eapply IHidx; eassumption|].
    inv_bind H. inv_bind H. destruct x0 as [[r1 p1] f1].
    destruct r1; cbn [negb] in H.
    2:{ inv_bind H. inv_bind H. eapply IHidx; eassumption. }
    inv_bind H. inv_bind H. destruct x1 as [[r2 p2] f2].
    destruct r2; cbn [negb] in H.
    2:{ inv_bind H. inv_bind H. inv_bind H. eapply IHidx; eassumption. }
    inv_bind H. inv_bind H. inv_bind H. destruct x3 as [[r3 p3] f3].
    destruct r3.
    + injection H as <- <-. eapply IH; eassumption.
    + eapply IHidx; eassumption.
  - destruct (mc theorem =? ch ">")%N; [|eapply IHidx; eassumption].
    unfold start_priors in H. inv_bind H. destruct x as [[r q] fl].
    destruct r; [|eapply IHidx; eassumption].
    injection H as <- <-. clear IHidx E E0.
    revert E1. generalize (line p) as accessee2.
    generalize (Proof_index p) as idx2. intros idx2. revert p flags.
    induction idx2 as [|ant_line rest2 IHidx2]; intros p flags accessee2 H;
      [discriminate|].
    inv_bind H. destruct x as [[antecedent ln2]|]; [|eapply IHidx2; eassumption].
    inv_bind H. destruct x; [|eapply IHidx2; eassumption].
    inv_bind H. inv_bind H. destruct x0 as [[r p1] f1].
    destruct r.
    + injection H as <- <-. eapply IH; eassumption.
    + eapply IHidx2; eassumption.
Qed.

(** Whenever [prove] reports success, the goal stands on a line of the
    ledger it leaves that is visible from the last line, and the last line
    is at the depth asked for. *)
Theorem prove_success_reaches_goal : forall fuel c p i flags p' flags',
  prove fuel c p i flags = Ok (true, p', flags') -> goal_reached c p' i.
Proof. exact prove_success. Qed.

Lemma prove_success_reaches_goal_witness :
  exists p0 goal p1 f1,
    Proof_init 8 scenario1_premises = Ok p0
    /\ Sentence_of_text 8 (py "R") = Ok goal
    /\ prove 8 goal p0 0 [] = Ok (true, p1, f1)
    /\ goal_reached goal p1 0.
Proof.
  do 4 eexists.
  split; [vm_compute; reflexivity|]. split; [vm_compute; reflexivity|].
  match goal with
  | |- ?pr = Ok (true, ?x, ?y) /\ _ =>
      assert (H : pr = Ok (true, x, y)) by (vm_compute; reflexivity)
  end.
  split; [exact H|].
  exact (prove_success_reaches_goal _ _ _ _ _ _ _ H).
Defined.

(** When [Proof.prove] answers "Proved.", the goal (the sentence given, or
    the one built from the text given) is visible from the last line of the
    ledger it returns, and that line is at depth 0. *)
Theorem proved_answer_reaches_goal : forall fuel self conclusion p',
  Proof_prove fuel self conclusion = Ok (py "Proved.", p') ->
  exists goal,
    match conclusion with
    | OStr text => Sentence_of_text fuel text = Ok goal
    | OObj o => o = Some goal
    end
    /\ goal_reached goal p' 0.
Proof.
  intros fuel self conclusion p' H. unfold Proof_prove in H.
  inv_bind H. rename x into o.
  assert (Hc : forall goal, o = Some goal ->
            match conclusion with
            | OStr text => Sentence_of_text fuel text = Ok goal
            | OObj o => o = Some goal
            end).
  { intros goal ->. destruct conclusion as [text|o'].
    - inv_bind E. now injection E as <-.
    - now injection E as ->. }
  clear E. inv_bind H.
  match type of H with (if ?b then _ else _) = _ => destruct b end;
    [injection H as H _; vm_compute in H; discriminate|].
  do 4 inv_bind H.
  match type of H with (if ?b then _ else _) = _ => destruct b end;
    [injection H as H _; vm_compute in H; discriminate|].
  destruct o as [goal|]; [|discriminate]. cbn [attr bind] in H.
  destruct (prove fuel goal self 0 []) as [[[b q] fl]| |] eqn:Epr;
    cbn [bind] in H; try discriminate.
  destruct b; [|injection H as H _; vm_compute in H; discriminate].
  injection H as <-. exists goal. split; [now apply Hc|].
  eapply prove_success; eassumption.
Qed.

Lemma proved_answer_reaches_goal_witness :
  exists p0 p1 goal,
    Proof_init 8 scenario1_premises = Ok p0
    /\ Proof_prove 8 p0 (OStr (py "R")) = Ok (py "Proved.", p1)
    /\ Sentence_of_text 8 (py "R") = Ok goal
    /\ goal_reached goal p1 0.
Proof.
  do 3 eexists.
  split; [vm_compute; reflexivity|].
  match goal with
  | |- ?pr = Ok (?m, ?x) /\ _ =>
      assert (H : pr = Ok (m, x)) by (vm_compute; reflexivity)
  end.
  split; [exact H|].
  destruct (proved_answer_reaches_goal _ _ _ _ H) as [g [Hg Hr]].
  cbv beta iota in Hg.
  assert (Hg' : Sentence_of_text 8 (py "R") = Ok g) by exact Hg.
  vm_compute in Hg'. injection Hg' as <-.
  split; [vm_compute; reflexivity|]. exact Hr.
Defined.

(** ** Decimal texts of scope codes *)

Lemma py_append (s1 s2 : string) : py (s1 ++ s2)%string = py s1 ++ py s2.
Proof.
  unfold py. induction s1 as [|c s1 IH]; [reflexivity|].
  cbn [String.append list_ascii_of_string map]. rewrite IH. reflexivity.
Qed.

Lemma string_of_revapp (d acc : uint) :
  NilEmpty.string_of_uint (revapp d acc)
  = (NilEmpty.string_of_uint (Decimal.rev d) ++ NilEmpty.string_of_uint acc)%string.
Proof.
  unfold Decimal.rev. revert acc.
  assert (A : forall s c t, ((s ++ String c "") ++ t = s ++ String c t)%string).
  { intros s c t. induction s as [|x s IH]; [reflexivity|].
    cbn [String.append]. now rewrite IH. }
  induction d as [|d IH|d IH|d IH|d IH|d IH|d IH|d IH|d IH|d IH|d IH];
    intros acc; [reflexivity|..];
    cbn [revapp]; rewrite IH; symmetry; rewrite IH;
    cbn [NilEmpty.string_of_uint]; apply A.
Qed.

Lemma to_lu_digit (p : positive) (k : nat) :
  Unsigned.to_lu (10 * N.pos p + N.of_nat k) =
  Nat.iter k Little.succ (D0 (Pos.to_little_uint p)).
Proof.
  induction k as [|k IH].
  - rewrite N.add_0_r. apply (Unsigned.to_ldec_tenfold p).
  - rewrite Nat2N.inj_succ, N.add_succ_r, Unsigned.to_lu_succ, IH. reflexivity.
Qed.

Lemma str_of_int_pos (p : positive) :
  str_of_int (Z.pos p)
  = py (NilEmpty.string_of_uint (Decimal.rev (Pos.to_little_uint p))).
Proof.
  unfold str_of_int. cbn [Z.to_int NilZero.string_of_int]. unfold Pos.to_uint.
  pose proof (Unsigned.to_uint_nonnil p) as Hn. unfold Pos.to_uint in Hn.
  destruct (Decimal.rev (Pos.to_little_uint p)); [congruence|reflexivity..].
Qed.

(** [str(10 * a + k)] is [str(a)] followed by the digit [k]. *)
Lemma str_of_int_snoc (a k : Z) :
  (0 < a)%Z -> (0 <= k < 10)%Z ->
  str_of_int (10 * a + k) = str_of_int a ++ [(48 + Z.to_N k)%N].
Proof.
  intros Ha Hk. destruct a as [|p|p]; try lia.
  assert (E : exists q, (10 * Z.pos p + k)%Z = Z.pos q
                        /\ N.pos q = (10 * N.pos p + N.of_nat (Z.to_nat k))%N).
  { destruct (10 * Z.pos p + k)%Z as [|q|q] eqn:Eq; try lia.
    exists q. split; [reflexivity|]. lia. }
  destruct E as [q [-> Eq]].
  rewrite !str_of_int_pos.
  change (Pos.to_little_uint q) with (Unsigned.to_lu (N.pos q)).
  rewrite Eq, to_lu_digit.
  assert (Hk' : (Z.to_nat k < 10)%nat) by lia.
  replace k with (Z.of_nat (Z.to_nat k)) at 2 by lia.
  generalize dependent (Z.to_nat k). clear. intros n Hn.
  do 10 (destruct n as [|n];
         [cbv [Nat.iter nat_rect Little.succ]; unfold Decimal.rev at 1; cbn [revapp];
          rewrite string_of_revapp, py_append; reflexivity|]).
  lia.
Qed.


(** ** Where a new line sits and what it sees *)

Lemma starts_with_app (x y z : str) :
  starts_with x z = true -> starts_with (x ++ y) z = true.
Proof.
  revert x. induction z as [|c z IH]; intros x H; [now destruct (x ++ y)|].
  destruct x as [|d x]; [discriminate|].
  cbn [starts_with] in H. apply andb_true_iff in H. destruct H as [H1 H2].
  change ((d :: x) ++ y) with (d :: (x ++ y)). cbn [starts_with].
  rewrite H1. exact (IH _ H2).
Qed.


(** What [Rule.apply] hands back as depth and scope code: [assume] asks
    [_get_access]; every other rule either stays at the depth of the last
    line with its code, or goes one level up with the code divided by 10. *)
Lemma Rule_apply_depth_code rule p lines other fl r new i a :
  snd (Rule_apply rule p lines other fl) = Ok (Some (r, new, i, a)) ->
  exists d,
    indent p = Ok d
    /\ ((rule_is rule "assume" = true
         /\ i = (d + (if fl then 1 else 0))%Z /\ _get_access p i = Ok a)
        \/ (rule_is rule "assume" = false
            /\ ((i = d /\ a = access p)
                \/ (i = (d - 1)%Z /\ a = (access p / 10)%Z)))).
Proof.
  unfold Rule_apply. cbn [snd]. intros H. inv_bind H. rename x into d.
  exists d. split; [exact E|]. clear E.
  destruct (rule_is rule "assume").
  { left. inv_bind H. injection H as <- <- <- <-. auto. }
  right. split; [reflexivity|].
  repeat match type of H with
         | (if rule_is ?r ?n then _ else _) = _ => destruct (rule_is r n)
         end;
  repeat first
    [ discriminate
    | match type of H with
      | Ok _ = Ok _ => injection H as <- <- <- <-; auto
      | bind _ _ = Ok _ => inv_bind H
      | (if ?b then _ else _) = _ => destruct b
      | match ?x with _ => _ end = _ => destruct x
      end ].
Qed.

Lemma last_item_snoc {A} (l : list A) (x : A) : last_item (l ++ [x]) = Ok x.
Proof.
  unfold last_item. rewrite (index_last (l ++ [x]) x) by (now destruct l).
  rewrite length_app. cbn [length].
  replace (length l + 1 - 1) with (length l) by lia.
  now rewrite nth_middle.
Qed.

Lemma access_is_last_code p :
  ledger_ok p -> theorems p <> [] -> access p = code_at p (Proof_len p).
Proof.
  intros (_ & _ & Ha) Hne. unfold access, code_at, Proof_len, len.
  assert (Hl : 1 <= length (theorems p))
    by (destruct (theorems p); [congruence|simpl; lia]).
  replace (Z.of_nat (length (accesses p)) =? 0)%Z with false
    by (symmetry; apply Z.eqb_neq; lia).
  destruct (exists_last (l := accesses p)) as (l & x & E).
  { intros En. rewrite En in Ha. simpl in Ha. lia. }
  rewrite E in *. rewrite last_last. rewrite length_app in Ha. cbn [length] in Ha.
  replace (Z.to_nat (Z.of_nat (length (theorems p)) - 1)) with (length l) by lia.
  now rewrite nth_middle.
Qed.

Lemma code_at_snoc p p' a :
  ledger_ok p -> accesses p' = accesses p ++ [a] ->
  code_at p' (Proof_len p + 1) = a
  /\ forall B, (1 <= B <= Proof_len p)%Z -> code_at p' B = code_at p B.
Proof.
  intros (_ & _ & Ha) E. unfold code_at, Proof_len, len. rewrite E. split.
  - replace (Z.to_nat (Z.of_nat (length (theorems p)) + 1 - 1))
      with (length (accesses p)) by lia.
    now rewrite nth_middle.
  - intros B HB. apply app_nth1. lia.
Qed.

(** The depth and the scope code of the line that one [Proof.append] adds. *)
Lemma append_new_line fuel p rule lines other fl p' :
  snd (append fuel p rule lines other fl) = Ok p' ->
  exists d i a,
    indent p = Ok d
    /\ indents p' = indents p ++ [i]
    /\ accesses p' = accesses p ++ [a]
    /\ ((rule_is rule "assume" = true
         /\ i = (d + (if fl then 1 else 0))%Z
         /\ exists a0, _get_access p i = Ok a0 /\ (fl = true -> a = a0))
        \/ (rule_is rule "assume" = false
            /\ ((i = d /\ a = access p)
                \/ (i = (d - 1)%Z /\ a = (access p / 10)%Z)))).
Proof.
  unfold append.
  destruct (match other with
            | OStr text => s <- Sentence_of_text fuel text;; Ok (Some s)
            | OObj o => Ok o
            end) as [o| |]; cbn [snd]; try discriminate.
  pose proof (Rule_apply_depth_code rule p lines o fl) as HR.
  destruct (Rule_apply rule p lines o fl) as [lines' r]. cbn [snd] in *.
  intros H. inv_bind H. subst r.
  destruct x as [[[[rl new] i] a0]|]; [|discriminate].
  destruct (HR _ _ _ _ eq_refl) as (d & Hd & Hcase). clear HR.
  unfold append_sentence in H. cbn [bind] in H. rewrite Hd in H. cbn [bind orb] in H.
  exists d, i.
  destruct (a0 =? 0)%Z eqn:E0.
  - apply Z.eqb_eq in E0. subst a0. inv_bind H. injection H as <-.
    cbn [indents accesses]. exists x. split; [exact Hd|].
    split; [reflexivity|]. split; [reflexivity|].
    destruct Hcase as [(Hr & -> & Hg)|(Hr & [[-> Ha]|[-> Ha]])].
    + left. split; [exact Hr|]. split; [reflexivity|].
      exists 0%Z. split; [exact Hg|]. intros ->.
      replace (d + 1 >? d)%Z with true in E by (symmetry; apply Z.gtb_lt; lia).
      rewrite Hg in E. now injection E as <-.
    + right. split; [exact Hr|]. left. split; [reflexivity|].
      replace (d >? d)%Z with false in E
        by (symmetry; apply not_true_iff_false; rewrite Z.gtb_lt; lia).
      rewrite Z.eqb_refl in E. now injection E as <-.
    + right. split; [exact Hr|]. right. split; [reflexivity|].
      replace (d - 1 >? d)%Z with false in E
        by (symmetry; apply not_true_iff_false; rewrite Z.gtb_lt; lia).
      replace (d - 1 =? d)%Z with false in E by (symmetry; apply Z.eqb_neq; lia).
      now injection E as <-.
  - cbn [bind] in H. injection H as <-. cbn [indents accesses]. exists a0.
    split; [exact Hd|]. split; [reflexivity|]. split; [reflexivity|].
    destruct Hcase as [(Hr & -> & Hg)|(Hr & Hc)].
    + left. split; [exact Hr|]. split; [reflexivity|]. eauto.
    + right. split; [exact Hr|]. exact Hc.
Qed.



(** Opening the first assumption box at a depth not used before always
    succeeds: the new line is one level deeper, its scope code is the code
    of the last line followed by the digit 1, and it sees every line that
    the last line saw. *)
Theorem first_box_keeps_sight : forall fuel p lines o d,
  ledger_ok p -> theorems p <> [] -> (0 < access p)%Z ->
  indent p = Ok d -> ~ In (d + 1)%Z (indents p) ->
  let n := Proof_len p in
  exists p',
    snd (append fuel p (py "assume") lines (OObj o) true) = Ok p'
    /\ last_item (indents p') = Ok (d + 1)%Z
    /\ code_at p' (n + 1) = (10 * code_at p n + 1)%Z
    /\ forall B, (1 <= B <= n)%Z ->
         visible_from p n B = true -> visible_from p' (n + 1) B = true.
Proof.
  intros fuel p lines o d Hok Hne Hpos Hd Hfresh n.
  assert (Hg : _get_access p (d + 1) = Ok (10 * access p + 1)%Z).
  { unfold _get_access.
    replace (existsb (Z.eqb (d + 1)) (indents p)) with false; [reflexivity|].
    symmetry. apply not_true_iff_false. intros H. apply existsb_exists in H.
    destruct H as (x & Hx & Ex). apply Z.eqb_eq in Ex. now subst. }
  assert (Happ : exists p',
             snd (append fuel p (py "assume") lines (OObj o) true) = Ok p').
  { unfold append, Rule_apply. cbn [snd]. rewrite Hd. cbn [bind].
    eval_rule_tests. rewrite Hg. cbn [bind]. unfold append_sentence.
    cbn [bind]. replace (10 * access p + 1 =? 0)%Z with false
      by (symmetry; apply Z.eqb_neq; lia).
    cbn [bind]. eauto. }
  destruct Happ as [p' Happ]. exists p'. split; [exact Happ|].
  destruct (append_new_line _ _ _ _ _ _ _ Happ)
    as (d' & i & a & Hd' & Hi & Ha & Hcase).
  rewrite Hd in Hd'. injection Hd' as <-.
  destruct Hcase as [(_ & -> & a0 & Hg' & Ea)|(Hr & _)];
    [|vm_compute in Hr; discriminate].
  assert (Ea' : a = (10 * access p + 1)%Z) by (rewrite (Ea eq_refl); congruence).
  clear Ea Hg'. subst a.
  destruct (code_at_snoc p p' _ Hok Ha) as [Hnew Hold]. fold n in Hnew.
  pose proof (access_is_last_code p Hok Hne) as Hacc. fold n in Hacc.
  rewrite Hi, last_item_snoc, Hnew, <- Hacc.
  split; [reflexivity|]. split; [reflexivity|].
  intros B HB. unfold visible_from. rewrite Hnew, (Hold B HB), <- Hacc.
  intros H. rewrite str_of_int_snoc by lia. now apply starts_with_app.
Qed.

Lemma first_box_keeps_sight_witness :
  exists p p',
    Proof_init 3 scenario1_premises = Ok p
    /\ snd (append 3 p (py "assume") LNone (OObj None) true) = Ok p'
    /\ code_at p' 4 = 11%Z.
Proof.
  do 2 eexists.
  match goal with
  | |- ?init = Ok ?x /\ ?app = Ok ?y /\ _ =>
      assert (Hi : init = Ok x) by (vm_compute; reflexivity);
      assert (Happ : app = Ok y) by (vm_compute; reflexivity)
  end.
  split; [exact Hi|]. split; [exact Happ|].
  pose proof (Proof_init_shape _ _ _ Hi) as (Hok & _).
  destruct (first_box_keeps_sight 3 _ LNone None 0%Z Hok
              ltac:(discriminate) ltac:(vm_compute; reflexivity) eq_refl
              ltac:(vm_compute; intuition discriminate))
    as (q & Hq & _ & Hc & _).
  rewrite Happ in Hq. injection Hq as <-. exact Hc.
Defined.

(** ** The display text of a sentence and its reading back *)

Lemma replace_single c new s :
  replace [c] new s = flat_map (fun x => if (x =? c)%N then new else [x]) s.
Proof.
  unfold replace. induction s as [|x s IH]; [reflexivity|].
  cbn [replace_from starts_with length Nat.sub flat_map].
  replace (starts_with s []) with true by (now destruct s).
  rewrite andb_true_r, (N.eqb_sym c x), IH. now destruct (x =? c)%N.
Qed.

Lemma flat_map_flat_map {A B C} (g : B -> list C) (h : A -> list B) l :
  flat_map g (flat_map h l) = flat_map (fun x => flat_map g (h x)) l.
Proof.
  induction l as [|x l IH]; [reflexivity|].
  cbn [flat_map]. now rewrite flat_map_app, IH.
Qed.

Lemma flat_map_pointwise {A B} (g h : A -> list B) l :
  (forall x, In x l -> g x = h x) -> flat_map g l = flat_map h l.
Proof.
  induction l as [|x l IH]; intros H; [reflexivity|].
  cbn [flat_map]. rewrite (H x (or_introl eq_refl)). f_equal.
  apply IH. intros y Hy. apply H. now right.
Qed.

(** A pass that replaces one character, seen on a text made of blocks. *)
Lemma pass_single c new (r r' : char -> str) f :
  (forall x, In x f ->
     flat_map (fun y => if (y =? c)%N then new else [y]) (r x) = r' x) ->
  replace [c] new (flat_map r f) = flat_map r' f.
Proof.
  intros H. rewrite replace_single, flat_map_flat_map.
  apply flat_map_pointwise. exact H.
Qed.

Lemma replace_from_skip old new l s :
  replace_from old new (length l) (l ++ s) = replace_from old new 0 s.
Proof. induction l as [|x l IH]; [reflexivity|exact IH]. Qed.

Lemma replace_from_match c l new s :
  replace_from (c :: l) new 0 ((c :: l) ++ s)
  = new ++ replace_from (c :: l) new 0 s.
Proof.
  change ((c :: l) ++ s) with (c :: (l ++ s)).
  cbn [replace_from].
  replace (starts_with (c :: l ++ s) (c :: l)) with true
    by (symmetry; apply (starts_with_app (c :: l) s); apply starts_with_refl).
  cbn [length]. rewrite Nat.sub_succ, Nat.sub_0_r.
  now rewrite replace_from_skip.
Qed.

Lemma replace_from_free u tl new s1 s2 :
  ~ In u s1 -> hd_error s2 <> Some u ->
  replace_from (sp :: u :: tl) new 0 (s1 ++ s2)
  = s1 ++ replace_from (sp :: u :: tl) new 0 s2.
Proof.
  intros H1 H2. induction s1 as [|x s1 IH]; [reflexivity|].
  cbn [app replace_from].
  assert (E : starts_with (x :: s1 ++ s2) (sp :: u :: tl) = false).
  { cbn [starts_with]. apply andb_false_iff. right.
    destruct (s1 ++ s2) as [|y t] eqn:Et; [reflexivity|].
    cbn [starts_with]. apply andb_false_iff. left. apply N.eqb_neq. intros <-.
    destruct s1 as [|z s1']; cbn [app] in Et.
    - subst s2. now apply H2.
    - injection Et as -> _. apply H1. right. now left. }
  rewrite E. f_equal. apply IH. intros Hin. apply H1. now right.
Qed.

(** A pass that replaces the display symbol [sp :: u :: tl], seen on a text
    made of blocks each of which is that symbol or does not hold [u]. *)
Lemma pass_symbol u tl new (r r' : char -> str) f :
  sp <> u ->
  (forall x, In x f ->
     (r x = sp :: u :: tl /\ r' x = new) \/ (~ In u (r x) /\ r' x = r x)) ->
  replace (sp :: u :: tl) new (flat_map r f) = flat_map r' f.
Proof.
  intros Hu H. unfold replace.
  assert (Hhd : forall g, (forall x, In x g -> In x f) ->
                  hd_error (flat_map r g) <> Some u).
  { induction g as [|x g IHg]; intros Hg; [discriminate|].
    cbn [flat_map]. destruct (H x (Hg x (or_introl eq_refl))) as [[E _]|[E _]].
    - rewrite E. cbn [app hd_error]. intros [= Es]. now apply Hu.
    - destruct (r x) as [|y t] eqn:Er.
      + apply IHg. intros z Hz. apply Hg. now right.
      + cbn [app hd_error]. intros [= ->]. apply E. now left. }
  assert (G : forall g, (forall x, In x g -> In x f) ->
                replace_from (sp :: u :: tl) new 0 (flat_map r g) = flat_map r' g).
  { induction g as [|x g IHg]; intros Hg; [reflexivity|].
    assert (Hg' : forall z, In z g -> In z f) by (intros z Hz; apply Hg; now right).
    cbn [flat_map]. destruct (H x (Hg x (or_introl eq_refl))) as [[E E']|[E E']].
    - rewrite E, E', replace_from_match. f_equal. now apply IHg.
    - rewrite E', replace_from_free; [|exact E|now apply Hhd].
      f_equal. now apply IHg. }
  apply G. auto.
Qed.

Lemma conn_index_cases c :
  (c = ch "#" \/ c = ch "~" \/ c = ch "v" \/ c = ch "&" \/ c = ch "^"
   \/ c = ch ">" \/ c = ch "-")
  \/ (conn_index c = None
      /\ c <> ch "#" /\ c <> ch "~" /\ c <> ch "v" /\ c <> ch "&"
      /\ c <> ch "^" /\ c <> ch ">" /\ c <> ch "-").
Proof.
  unfold conn_index.
  repeat match goal with
         | |- context [(c =? ?k)%N] =>
             destruct (N.eqb_spec c k); [subst; tauto|]
         end.
  right. tauto.
Qed.

Lemma plain_cases c :
  plain c = true ->
  c <> sp /\ c <> ch "[" /\ c <> ch "]" /\ c <> u_falsum /\ c <> u_not
  /\ c <> u_or /\ c <> u_and /\ c <> u_xor /\ c <> u_cond /\ c <> u_bicond.
Proof.
  unfold plain, mem. cbn [existsb]. intros H. apply negb_true_iff in H.
  repeat match type of H with
         | (_ || _) = false =>
             apply orb_false_iff in H;
             let H1 := fresh "Hc" in destruct H as [H1 H];
             apply N.eqb_neq in H1
         end.
  tauto.
Qed.

Ltac block_other Hn :=
  unfold shown, showing; rewrite ?Hn; cbn [flat_map app];
  repeat match goal with
         | |- context [(?c =? ?k)%N] =>
             let E := fresh in
             destruct (N.eqb_spec c k) as [E|E]; [subst; tauto|]
         end;
  try reflexivity.

(** [str(sentence)] writes, for each character of the formula in turn, its
    display symbol if it is a connective and the character otherwise. *)
Lemma str_blocks f :
  _replace f CONNECTIVES SPEC_CONNECTIVES = flat_map (showing 7) f.
Proof.
  assert (E0 : f = flat_map (showing 0) f).
  { induction f as [|c f IH]; [reflexivity|].
    cbn [flat_map]. rewrite <- IH. unfold showing.
    now destruct (conn_index c). }
  rewrite E0 at 1.
  unfold _replace.
  change CONNECTIVES with [[ch "#"]; [ch "~"]; [ch "v"]; [ch "&"]; [ch "^"];
                           [ch ">"]; [ch "-"]].
  unfold SPEC_CONNECTIVES. cbn [combine fold_left fst snd].
  rewrite (pass_single (ch "#") _ (showing 0) (showing 1));
    [rewrite (pass_single (ch "~") _ (showing 1) (showing 2));
     [rewrite (pass_single (ch "v") _ (showing 2) (showing 3));
      [rewrite (pass_single (ch "&") _ (showing 3) (showing 4));
       [rewrite (pass_single (ch "^") _ (showing 4) (showing 5));
        [rewrite (pass_single (ch ">") _ (showing 5) (showing 6));
         [rewrite (pass_single (ch "-") _ (showing 6) (showing 7));
          [reflexivity|]|]|]|]|]|]|];
    intros c _;
    (destruct (conn_index_cases c)
      as [[->|[->|[->|[->|[->|[->| ->]]]]]]|(Hn & Hc)];
     [reflexivity..|block_other Hn]).
Qed.

Ltac block_symbol Hn Hp :=
  first
    [ left; split; reflexivity
    | right; split; [simpl; intuition discriminate|reflexivity]
    | right; unfold shown; rewrite Hn; split; [|reflexivity];
      intros [E|[]]; tauto ].

(** Reading a display text back: brackets, display symbols and spaces are
    replaced in turn, and a display text whose formula is plain comes back
    as that formula. *)
Lemma read_back f :
  forallb plain f = true ->
  replace [sp] []
    (_replace (_replace (flat_map (showing 7) f) [py "["; py "]"] [py "("; py ")"])
       SPEC_CONNECTIVES CONNECTIVES)
  = f.
Proof.
  intros Hf. rewrite forallb_forall in Hf.
  assert (E7 : flat_map (showing 7) f = flat_map (shown 0) f).
  { apply flat_map_pointwise. intros c _.
    destruct (conn_index_cases c)
      as [[->|[->|[->|[->|[->|[->| ->]]]]]]|(Hn & Hc)];
      [reflexivity..|block_other Hn]. }
  assert (Eid : flat_map (fun c : char => [c]) f = f).
  { clear. induction f as [|c f IH]; [reflexivity|]. cbn [flat_map app].
    now rewrite IH. }
  rewrite E7. unfold _replace.
  change CONNECTIVES with [[ch "#"]; [ch "~"]; [ch "v"]; [ch "&"]; [ch "^"];
                           [ch ">"]; [ch "-"]].
  change (py "[") with [ch "["]. change (py "]") with [ch "]"].
  change (py "(") with [ch "("]. change (py ")") with [ch ")"].
  unfold SPEC_CONNECTIVES. cbn [combine fold_left fst snd].
  rewrite (pass_single (ch "[") _ (shown 0) (shown 0));
    [rewrite (pass_single (ch "]") _ (shown 0) (shown 0));
     [rewrite (pass_single u_falsum _ (shown 0) (shown 1));
      [rewrite (pass_single u_not _ (shown 1) (shown 2));
       [rewrite (pass_symbol u_or [sp] _ (shown 2) (shown 3));
        [rewrite (pass_symbol u_and [sp] _ (shown 3) (shown 4));
         [rewrite (pass_symbol u_xor [sp] _ (shown 4) (shown 5));
          [rewrite (pass_symbol u_cond [sp; sp] _ (shown 5) (shown 6));
           [rewrite (pass_symbol u_bicond [sp; sp] _ (shown 6) (shown 7));
            [rewrite (pass_single sp [] (shown 7) (fun c => [c]));
             [exact Eid|]
            |discriminate|]
           |discriminate|]
          |discriminate|]
         |discriminate|]
        |discriminate|]|]|]|]|];
    intros c Hin; pose proof (plain_cases c (Hf c Hin)) as Hp;
    (destruct (conn_index_cases c)
      as [[->|[->|[->|[->|[->|[->| ->]]]]]]|(Hn & Hc)];
     [first [reflexivity|block_symbol Hn Hp]..
     |first [block_symbol Hn Hp|block_other Hn]]).
Qed.

(** Building a sentence from the display text of a sentence whose formula is
    plain is the same as parsing that formula itself: the display symbols,
    the spaces around them and nothing else are undone before the parser
    runs. *)
Theorem display_text_is_read_back : forall fuel s,
  forallb plain (formula s) = true ->
  Sentence_of_text fuel (Sentence_str s)
  = (r <- _parse fuel (formula s) ;; Sentence_of_root r).
Proof.
  intros fuel s Hs. unfold Sentence_of_text, Sentence_str.
  now rewrite str_blocks, (read_back _ Hs).
Qed.

Lemma display_text_is_read_back_witness :
  exists s,
    Sentence_of_text 6 (py "~(PvQ)>R") = Ok s
    /\ Sentence_of_text 6 (Sentence_str s) = Ok s.
Proof.
  eexists.
  match goal with
  | |- ?init = Ok ?x /\ _ =>
      assert (Hi : init = Ok x) by (vm_compute; reflexivity)
  end.
  split; [exact Hi|].
  match type of Hi with
  | _ = Ok ?s =>
      assert (Hs : forallb plain (formula s) = true) by (vm_compute; reflexivity);
      rewrite (display_text_is_read_back 6 s Hs)
  end.
  vm_compute. reflexivity.
Defined.

(** A text of spaces only, the empty text included, makes no sentence: once
    the spaces are removed nothing is left, and the parser raises
    [IndexError] when it looks at the first character. *)
Theorem blank_text_raises : forall fuel n,
  Sentence_of_text (S fuel) (repeat sp n) = Raise IndexError.
Proof.
  intros fuel n. unfold Sentence_of_text.
  assert (E : repeat sp n = flat_map (fun _ : char => [sp]) (repeat sp n)).
  { induction n as [|n IH]; [reflexivity|]. cbn [repeat flat_map app].
    now rewrite <- IH. }
  rewrite E. unfold _replace.
  change CONNECTIVES with [[ch "#"]; [ch "~"]; [ch "v"]; [ch "&"]; [ch "^"];
                           [ch ">"]; [ch "-"]].
  change (py "[") with [ch "["]. change (py "]") with [ch "]"].
  change (py "(") with [ch "("]. change (py ")") with [ch ")"].
  unfold SPEC_CONNECTIVES. cbn [combine fold_left fst snd].
  rewrite (pass_single (ch "[") _ (fun _ => [sp]) (fun _ => [sp]))
    by reflexivity.
  rewrite (pass_single (ch "]") _ (fun _ => [sp]) (fun _ => [sp]))
    by reflexivity.
  rewrite (pass_single u_falsum _ (fun _ => [sp]) (fun _ => [sp]))
    by reflexivity.
  rewrite (pass_single u_not _ (fun _ => [sp]) (fun _ => [sp]))
    by reflexivity.
  rewrite (pass_symbol u_or [sp] _ (fun _ => [sp]) (fun _ => [sp]));
    [|discriminate|intros; right; split; [simpl; intuition discriminate|reflexivity]].
  rewrite (pass_symbol u_and [sp] _ (fun _ => [sp]) (fun _ => [sp]));
    [|discriminate|intros; right; split; [simpl; intuition discriminate|reflexivity]].
  rewrite (pass_symbol u_xor [sp] _ (fun _ => [sp]) (fun _ => [sp]));
    [|discriminate|intros; right; split; [simpl; intuition discriminate|reflexivity]].
  rewrite (pass_symbol u_cond [sp; sp] _ (fun _ => [sp]) (fun _ => [sp]));
    [|discriminate|intros; right; split; [simpl; intuition discriminate|reflexivity]].
  rewrite (pass_symbol u_bicond [sp; sp] _ (fun _ => [sp]) (fun _ => [sp]));
    [|discriminate|intros; right; split; [simpl; intuition discriminate|reflexivity]].
  rewrite (pass_single sp [] (fun _ => [sp]) (fun _ => [])) by reflexivity.
  clear E.
  replace (flat_map (fun _ : char => @nil char) (repeat sp n)) with (@nil char)
    by (induction n as [|k IH]; [reflexivity|exact IH]).
  reflexivity.
Qed.

(** ** The size of a truth table *)

(** [len(tf)] is computed as [2 ** len(atomics)]; for a truth function that
    has been built it is the number of assignments enumerated, and the
    satisfying and the falsifying assignments add up to it. *)
Theorem len_counts_the_assignments : forall root t,
  TruthFunction_init root = Ok t ->
  TruthFunction_len t = len (canonical t)
  /\ TruthFunction_len t = (len (tf_true t) + len (tf_false t))%Z.
Proof.
  intros root t H.
  pose proof (TruthFunction_init_spec _ _ H) as (_ & Hc & Ht & Hf & Hall).
  assert (E : TruthFunction_len t = len (canonical t)).
  { unfold TruthFunction_len, len. rewrite Hc. unfold _canonical.
    rewrite length_map, length_seq, Nat2Z.inj_pow. reflexivity. }
  split; [exact E|]. rewrite E. unfold len.
  rewrite <- (Permutation_length (filter_partition_perm root _ Hall)).
  rewrite length_app, <- Ht, <- Hf. lia.
Qed.

Lemma len_counts_the_assignments_witness :
  exists root t,
    _parse 4 (py "Q>(PvQ)") = Ok root
    /\ TruthFunction_init root = Ok t
    /\ TruthFunction_len t = 4%Z.
Proof.
  do 2 eexists.
  match goal with
  | |- ?a = Ok ?x /\ ?b = Ok ?y /\ _ =>
      assert (Ha : a = Ok x) by (vm_compute; reflexivity);
      assert (Hb : b = Ok y) by (vm_compute; reflexivity)
  end.
  split; [exact Ha|]. split; [exact Hb|].
  rewrite (proj1 (len_counts_the_assignments _ _ Hb)). vm_compute. reflexivity.
Defined.

(** ** Connecting a list of sentences *)

Lemma connected_text_has_space a c :
  mem c BINARIES = true -> In c (formula a) -> In sp (Sentence_str a).
Proof.
  intros Hc Hin. unfold Sentence_str. rewrite str_blocks.
  apply in_flat_map. exists c. split; [exact Hin|].
  split_mem Hc; now left.
Qed.

Lemma joined_joinable a c :
  constructed a -> mem c BINARIES = true -> In c (formula a) -> joinable a.
Proof.
  intros Ha Hc Hin. split; [exact Ha|]. split.
  - intros E. rewrite E in Hin. exact Hin.
  - intros E. pose proof (connected_text_has_space a c Hc Hin) as Hs.
    rewrite E in Hs. simpl in Hs. intuition discriminate.
Qed.

Lemma Symbol_call_and l r f vals :
  Symbol_call (Sym (ch "&") (Some l) (Some r) f) vals
  = (p <- Symbol_call l vals ;; q <- Symbol_call r vals ;; Ok (p && q)).
Proof. reflexivity. Qed.

Lemma Forall2_halves {A B} (R : A -> B -> Prop) h l bs :
  Forall2 R l bs ->
  Forall2 R (firstn h l) (firstn h bs) /\ Forall2 R (skipn h l) (skipn h bs).
Proof.
  intros H. revert h. induction H as [|a b l bs Hab H IH]; intros h.
  - rewrite !firstn_nil, !skipn_nil. split; constructor.
  - destruct h as [|h]; cbn [firstn skipn].
    + split; constructor; assumption.
    + destruct (IH h) as [H1 H2]. split; [constructor; assumption|exact H2].
Qed.

Lemma connect_fuel_laws c :
  mem c BINARIES = true ->
  forall n l, length l <= n -> l <> [] -> Forall joinable l ->
  exists s,
    (forall fuel, length l <= fuel -> connect_fuel fuel l c = Ok (Some s))
    /\ joinable s
    /\ (length l = 1 -> l = [s])
    /\ (2 <= length l ->
        exists s1 s2,
          connect (firstn (length l / 2) l) c = Ok (Some s1)
          /\ connect (skipn (length l / 2) l) c = Ok (Some s2)
          /\ first s = Some s1 /\ second s = Some s2 /\ mc s = c)
    /\ (c = ch "&" ->
        forall vals bs,
          Forall2 (fun a b => Symbol_call (root a) vals = Ok b) l bs ->
          Symbol_call (root s) vals = Ok (forallb (fun b => b) bs)).
Proof.
  intros Hc. induction n as [|n IH]; intros l Hn Hne Hall.
  { destruct l; [congruence|simpl in Hn; lia]. }
  destruct l as [|a [|b t]]; [congruence| |].
  - (* one sentence *)
    exists a. split.
    { intros [|fuel] Hf; [simpl in Hf; lia|reflexivity]. }
    split; [now inversion Hall|]. split; [reflexivity|].
    split; [simpl; lia|].
    intros _ vals bs H. inversion H as [|? b0 ? ? Hb Ht]; subst.
    inversion Ht; subst. rewrite Hb. cbn [forallb]. now rewrite andb_true_r.
  - (* two or more *)
    set (l := a :: b :: t) in *.
    assert (Hlen : 2 <= length l) by (unfold l; simpl; lia).
    set (h := length l / 2).
    assert (Hh : 1 <= h /\ h < length l).
    { unfold h. split.
      - apply Nat.div_le_lower_bound; lia.
      - apply Nat.div_lt; lia. }
    assert (H1l : length (firstn h l) = h) by (rewrite length_firstn; lia).
    assert (H2l : length (skipn h l) = length l - h) by apply length_skipn.
    assert (Hall1 : Forall joinable (firstn h l)).
    { rewrite Forall_forall in *. intros x Hx. apply Hall.
      rewrite <- (firstn_skipn h l). apply in_or_app. now left. }
    assert (Hall2 : Forall joinable (skipn h l)).
    { rewrite Forall_forall in *. intros x Hx. apply Hall.
      rewrite <- (firstn_skipn h l). apply in_or_app. now right. }
    destruct (IH (firstn h l)) as (s1 & F1 & J1 & _ & _ & V1);
      [lia|intros E; rewrite E in H1l; change (length (@nil Sentence)) with 0 in H1l; lia|exact Hall1|].
    destruct (IH (skipn h l)) as (s2 & F2 & J2 & _ & _ & V2);
      [lia|intros E; rewrite E in H2l; change (length (@nil Sentence)) with 0 in H2l; lia|exact Hall2|].
    destruct J1 as (C1 & N1 & _). destruct J2 as (C2 & N2 & S2).
    destruct (join_laws s1 s2 c C1 C2 N1 N2 Hc S2)
      as (j & Hj & Cj & Hf & Hs & Hm & Hr & _ & Hin).
    exists j. split.
    { intros [|fuel] Hf'; [lia|]. cbn [connect_fuel].
      replace (length l =? 0) with false by (symmetry; apply Nat.eqb_neq; lia).
      replace (length l =? 1) with false by (symmetry; apply Nat.eqb_neq; lia).
      fold h. rewrite (F1 fuel), (F2 fuel) by lia. cbn [bind].
      rewrite Hj. reflexivity. }
    split; [exact (joined_joinable j c Cj Hc Hin)|].
    split; [lia|]. split.
    { intros _. exists s1, s2. unfold connect. fold h.
      rewrite (F1 (S (length (firstn h l)))), (F2 (S (length (skipn h l))))
        by lia.
      auto. }
    intros -> vals bs H.
    destruct (Forall2_halves _ h _ _ H) as [Ha Hb].
    rewrite Hr, Symbol_call_and, (V1 eq_refl _ _ Ha), (V2 eq_refl _ _ Hb).
    cbn [bind]. rewrite <- forallb_app, firstn_skipn. reflexivity.
Qed.

(** [Sentence.connect] on one or more joinable sentences and a binary
    connective never raises and never returns [None].  A list of one gives
    its sentence; a longer list gives the join of what [connect] makes of
    its first half (rounded down) and of the rest.  With ['&'] the result is
    true under an assignment exactly when every sentence of the list is. *)
Theorem connect_joins_halves : forall c l,
  mem c BINARIES = true -> l <> [] -> Forall joinable l ->
  exists s,
    connect l c = Ok (Some s)
    /\ joinable s
    /\ (length l = 1 -> l = [s])
    /\ (2 <= length l ->
        exists s1 s2,
          connect (firstn (length l / 2) l) c = Ok (Some s1)
          /\ connect (skipn (length l / 2) l) c = Ok (Some s2)
          /\ first s = Some s1 /\ second s = Some s2 /\ mc s = c)
    /\ (c = ch "&" ->
        forall vals bs,
          Forall2 (fun a b => Symbol_call (root a) vals = Ok b) l bs ->
          Symbol_call (root s) vals = Ok (forallb (fun b => b) bs)).
Proof.
  intros c l Hc Hne Hall.
  destruct (connect_fuel_laws c Hc (length l) l (le_n _) Hne Hall)
    as (s & F & J & H1 & H2 & H3).
  exists s. split; [apply F; lia|]. auto.
Qed.

Lemma connect_joins_halves_witness :
  exists a b c,
    Sentence_of_text 4 (py "PvQ") = Ok a
    /\ Sentence_of_text 4 (py "P>R") = Ok b
    /\ Sentence_of_text 4 (py "Q>R") = Ok c
    /\ exists s, connect [a; b; c] (ch "&") = Ok (Some s)
                 /\ mc s = ch "&" /\ first s = Some a.
Proof.
  do 3 eexists.
  split; [vm_compute; reflexivity|].
  split; [vm_compute; reflexivity|].
  split; [vm_compute; reflexivity|].
  match goal with
  | |- exists s, connect ?l ?k = _ /\ _ =>
      assert (Hall : Forall joinable l)
        by (repeat constructor; try (vm_compute; reflexivity);
            try discriminate; vm_compute; discriminate);
      destruct (connect_joins_halves k l eq_refl ltac:(discriminate) Hall)
        as (s & Hs & _ & _ & H2 & _)
  end.
  exists s. split; [exact Hs|].
  destruct (H2 ltac:(simpl; lia)) as (s1 & s2 & E1 & _ & Hf & _ & Hm).
  split; [exact Hm|]. rewrite Hf. vm_compute in E1. congruence.
Defined.

(** ** Rules that stay at the depth of the last line *)

Lemma indent_total p : ledger_ok p -> exists d, indent p = Ok d.
Proof.
  intros Hok. unfold indent. destruct (Proof_len p =? 0)%Z eqn:E; [eauto|].
  apply Z.eqb_neq in E. destruct Hok as (_ & Hi & _).
  unfold last_item. rewrite (index_last (indents p) 0%Z); [eauto|].
  intros En. rewrite En in Hi. unfold Proof_len, len in E. simpl in Hi. lia.
Qed.

Lemma append_same_depth fuel p d t r :
  indent p = Ok d ->
  append_sentence fuel p d (OObj t) r (Some (access p))
  = Ok (mkProof (theorems p ++ [t]) (premises p) (rules p ++ [r])
          (indents p ++ [d]) (accesses p ++ [access p])).
Proof.
  intros Hd. unfold append_sentence. cbn [bind]. rewrite Hd. cbn [bind orb].
  replace (d >? d)%Z with false
    by (symmetry; apply not_true_iff_false; rewrite Z.gtb_lt; lia).
  rewrite Z.eqb_refl. now destruct (access p =? 0)%Z.
Qed.

Lemma getitem_line p k :
  (1 <= k <= Proof_len p)%Z -> getitem p k = Ok (theorem_at p k).
Proof.
  intros Hk. unfold getitem, theorem_at. apply index_nth.
  unfold Proof_len, len in Hk. lia.
Qed.

Lemma theorem_at_snoc p p' t :
  theorems p' = theorems p ++ [t] ->
  theorem_at p' (Proof_len p + 1) = t
  /\ Proof_len p' = (Proof_len p + 1)%Z
  /\ forall k, (1 <= k <= Proof_len p)%Z -> theorem_at p' k = theorem_at p k.
Proof.
  intros E. unfold theorem_at, Proof_len, len. rewrite E. split; [|split].
  - replace (Z.to_nat (Z.of_nat (length (theorems p)) + 1 - 1))
      with (length (theorems p)) by lia.
    now rewrite nth_middle.
  - rewrite length_app. cbn [length]. lia.
  - intros k Hk. apply app_nth1. lia.
Qed.

(** Reiteration copies any line of the ledger, whether or not that line is
    visible from the last one: the call succeeds for every line number of
    the ledger, and the new line holds the theorem of the line named, at the
    depth and with the scope code of the last line. *)
Theorem reit_copies_any_line : forall fuel p k o fl,
  ledger_ok p -> (1 <= k <= Proof_len p)%Z ->
  let n := Proof_len p in
  exists p',
    snd (append fuel p (py "reit") (LInt k) (OObj o) fl) = Ok p'
    /\ theorem_at p' (n + 1) = theorem_at p k
    /\ code_at p' (n + 1) = code_at p n
    /\ last_item (indents p') = indent p
    /\ ledger_ok p'.
Proof.
  intros fuel p k o fl Hok Hk n.
  destruct (indent_total p Hok) as [d Hd].
  assert (Hne : theorems p <> []).
  { intros E. unfold Proof_len, len in Hk. rewrite E in Hk. simpl in Hk. lia. }
  eexists. split.
  { unfold append, Rule_apply. cbn [snd]. rewrite Hd. cbn [bind].
    eval_rule_tests. cbn [getitem_lines]. rewrite (getitem_line p k Hk).
    cbn [bind]. apply append_same_depth. exact Hd. }
  set (p' := mkProof _ _ _ _ _).
  destruct (theorem_at_snoc p p' (theorem_at p k) eq_refl) as (Ht & _ & _).
  destruct (code_at_snoc p p' (access p) Hok eq_refl) as (Hc & _).
  split; [exact Ht|]. split.
  { fold n in Hc. rewrite Hc. now apply access_is_last_code. }
  split.
  { unfold p'. cbn [indents]. rewrite last_item_snoc. now rewrite Hd. }
  destruct Hok as (H1 & H2 & H3). unfold ledger_ok, p'.
  cbn [rules theorems indents accesses]. rewrite !length_app. cbn [length].
  lia.
Qed.

Lemma reit_copies_any_line_witness :
  exists p p',
    Proof_init 3 scenario1_premises = Ok p
    /\ snd (append 3 p (py "reit") (LInt 2) (OObj None) true) = Ok p'
    /\ theorem_at p' 4 = theorem_at p 2.
Proof.
  do 2 eexists.
  match goal with
  | |- ?init = Ok ?x /\ ?app = Ok ?y /\ _ =>
      assert (Hi : init = Ok x) by (vm_compute; reflexivity);
      assert (Happ : app = Ok y) by (vm_compute; reflexivity)
  end.
  split; [exact Hi|]. split; [exact Happ|].
  pose proof (Proof_init_shape _ _ _ Hi) as (Hok & _).
  destruct (reit_copies_any_line 3 _ 2 None true Hok
              ltac:(vm_compute; split; discriminate))
    as (q & Hq & Ht & _).
  rewrite Happ in Hq. injection Hq as <-. exact Ht.
Defined.

(** Conjunction introduction on two lines that hold joinable sentences
    always succeeds and writes their conjunction; conjunction elimination
    on that new line gives back the first conjunct (or the second, when
    [fl] is false).  Neither rule looks at which lines are visible. *)
Theorem conj_intro_then_elim : forall fuel p i j a b o,
  ledger_ok p ->
  (1 <= i <= Proof_len p)%Z -> (1 <= j <= Proof_len p)%Z ->
  theorem_at p i = Some a -> theorem_at p j = Some b ->
  joinable a -> joinable b ->
  let n := Proof_len p in
  exists p1 c,
    snd (append fuel p (py "&I") (LList [IInt i; IInt j]) (OObj o) true) = Ok p1
    /\ theorem_at p1 (n + 1) = Some c
    /\ first c = Some a /\ second c = Some b /\ mc c = ch "&"
    /\ (exists p2,
          snd (append fuel p1 (py "&E") (LInt (n + 1)) (OObj o) true) = Ok p2
          /\ theorem_at p2 (n + 2) = Some a)
    /\ (exists p3,
          snd (append fuel p1 (py "&E") (LInt (n + 1)) (OObj o) false) = Ok p3
          /\ theorem_at p3 (n + 2) = Some b).
Proof.
  intros fuel p i j a b o Hok Hi Hj Ha Hb (Ca & Na & _) (Cb & Nb & Sb) n.
  destruct (indent_total p Hok) as [d Hd].
  destruct (join_laws a b (ch "&") Ca Cb Na Nb eq_refl Sb)
    as (c & Hjoin & _ & Hf & Hs & Hm & _).
  set (r1 := mkRule (py "&Intro") (ArgsList (map AItem
               (if (i <? j)%Z then [IInt i; IInt j] else [IInt j; IInt i])))).
  set (p1 := mkProof (theorems p ++ [Some c]) (premises p) (rules p ++ [r1])
               (indents p ++ [d]) (accesses p ++ [access p])).
  assert (H1 : snd (append fuel p (py "&I") (LList [IInt i; IInt j]) (OObj o) true)
               = Ok p1).
  { unfold append, Rule_apply. cbn [snd negb]. rewrite Hd. cbn [bind].
    eval_rule_tests. cbn [lines_at]. rewrite !index_head.
    replace (index [IInt i; IInt j] 1) with (Ok (IInt j)) by reflexivity.
    cbn [bind getitem_item].
    rewrite (getitem_line p i Hi), (getitem_line p j Hj), Ha, Hb.
    cbn [join_obj bind]. rewrite Hjoin. cbn [bind py_sorted sort_items insert_item item_lt].
    destruct (i <? j)%Z eqn:Eij; cbn [bind]; apply append_same_depth; exact Hd. }
  destruct (theorem_at_snoc p p1 (Some c) eq_refl) as (Ht1 & Hn1 & _).
  fold n in Ht1, Hn1.
  assert (Hok1 : ledger_ok p1).
  { destruct Hok as (X1 & X2 & X3). unfold ledger_ok, p1.
    cbn [rules theorems indents accesses]. rewrite !length_app. cbn [length].
    lia. }
  assert (Hd1 : indent p1 = Ok d).
  { unfold indent. rewrite Hn1.
    replace (n + 1 =? 0)%Z with false
      by (symmetry; apply Z.eqb_neq; unfold n, Proof_len, len; lia).
    unfold p1. cbn [indents]. apply last_item_snoc. }
  assert (Hg1 : getitem p1 (n + 1) = Ok (Some c)).
  { rewrite getitem_line by (rewrite Hn1; unfold n, Proof_len, len; lia).
    now rewrite Ht1. }
  exists p1, c. split; [exact H1|]. split; [exact Ht1|].
  split; [exact Hf|]. split; [exact Hs|]. split; [exact Hm|].
  split.
  - eexists. split.
    { unfold append, Rule_apply. cbn [snd negb]. rewrite Hd1. cbn [bind].
      eval_rule_tests. cbn [getitem_lines]. rewrite Hg1. cbn [bind attr].
      cbn [negb]. rewrite ?Hf, ?Hs. apply append_same_depth. exact Hd1. }
    set (p2 := mkProof _ _ _ _ _).
    destruct (theorem_at_snoc p1 p2 (Some a) eq_refl) as (Ht2 & _).
    rewrite Hn1 in Ht2. now replace (n + 2)%Z with (n + 1 + 1)%Z by lia.
  - eexists. split.
    { unfold append, Rule_apply. cbn [snd negb]. rewrite Hd1. cbn [bind].
      eval_rule_tests. cbn [getitem_lines]. rewrite Hg1. cbn [bind attr].
      cbn [negb]. rewrite ?Hf, ?Hs. apply append_same_depth. exact Hd1. }
    set (p3 := mkProof _ _ _ _ _).
    destruct (theorem_at_snoc p1 p3 (Some b) eq_refl) as (Ht3 & _).
    rewrite Hn1 in Ht3. now replace (n + 2)%Z with (n + 1 + 1)%Z by lia.
Qed.

Lemma conj_intro_then_elim_witness :
  exists p p1 p2,
    Proof_init 3 scenario1_premises = Ok p
    /\ snd (append 3 p (py "&I") (LList [IInt 1; IInt 2]) (OObj None) true) = Ok p1
    /\ snd (append 3 p1 (py "&E") (LInt 4) (OObj None) true) = Ok p2
    /\ theorem_at p2 5 = theorem_at p 1.
Proof.
  do 3 eexists.
  match goal with
  | |- ?init = Ok ?x /\ ?app1 = Ok ?y /\ ?app2 = Ok ?z /\ _ =>
      assert (Hi : init = Ok x) by (vm_compute; reflexivity);
      assert (H1 : app1 = Ok y) by (vm_compute; reflexivity);
      assert (H2 : app2 = Ok z) by (vm_compute; reflexivity)
  end.
  split; [exact Hi|]. split; [exact H1|]. split; [exact H2|].
  pose proof (Proof_init_shape _ _ _ Hi) as (Hok & _).
  match type of Hi with
  | _ = Ok ?p =>
      let ta := eval vm_compute in (theorem_at p 1) in
      let tb := eval vm_compute in (theorem_at p 2) in
      match ta with
      | Some ?a =>
          match tb with
          | Some ?b =>
              destruct (conj_intro_then_elim 3 p 1 2 a b None Hok
                          ltac:(vm_compute; split; discriminate)
                          ltac:(vm_compute; split; discriminate)
                          ltac:(vm_compute; reflexivity)
                          ltac:(vm_compute; reflexivity)
                          ltac:(split; [vm_compute; reflexivity
                                       |split; intros E; vm_compute in E;
                                        discriminate])
                          ltac:(split; [vm_compute; reflexivity
                                       |split; intros E; vm_compute in E;
                                        discriminate]))
                as (q1 & c & Hq1 & _ & _ & _ & _ & (q2 & Hq2 & Ht2) & _)
          end
      end
  end.
  pose proof (eq_trans (eq_sym H1) Hq1) as E1. injection E1 as <-.
  pose proof (eq_trans (eq_sym H2) Hq2) as E2. injection E2 as <-.
  exact Ht2.
Defined.

(** ** The prover on a conditional goal *)





